(** * A genetic algorithm for the travelling salesman problem (tsp.c)

    The search engine of tsp.c is embedded here function by function:
    [copy_array], [min], [order_representation], [evaluate_route],
    [ranking_selection], [tow_point_crossover], [mutation],
    [rand_crossover], [genetic_algorithm], together with the two
    template routines [compute_cost] and [is_feasible] they rely on.
    The routines of the template around the search that work on these
    data follow: [recompute_obj], [output_tour] and [copy_parameters].

    C [int] values and indices are integers of [Z]; [/] and [%] are the
    truncating [Z.quot] and [Z.rem].  An [int] array is a [list Z], a
    two-dimensional [int a[][n]] is a list of rows.  Every access goes
    through [load] and [store], which compare the index with the bounds
    of the array. *)

From Stdlib Require Import ZArith Lia QArith Lqa.
From Stdlib Require String.
From stdpp Require Import base numbers list.
Import String.StringSyntax.
Delimit Scope string_scope with string.
Local Open Scope Z_scope.

(** ** Outcomes of a run *)

Inductive outcome (A : Type) : Type :=
| Ok (x : A)
| Oob (i : Z)     (* an access outside an array, at index [i] *)
| Unset           (* a local variable is read before it was assigned *)
| OutOfFuel.      (* the iteration bound given to a loop ran out *)
Arguments Ok {A} x.
Arguments Oob {A} i.
Arguments Unset {A}.
Arguments OutOfFuel {A}.

#[global] Instance outcome_ret : MRet outcome := λ A x, Ok x.
#[global] Instance outcome_bind : MBind outcome := λ A B f m,
  match m with
  | Ok x => f x
  | Oob i => Oob i
  | Unset => Unset
  | OutOfFuel => OutOfFuel
  end.

(** ** Loops *)

(** [for (j = lo; j < hi; j += step) body], for a body that leaves [j]
    and [hi] alone: [cnt] is the number of passes. *)
Fixpoint for_range {St : Type} (cnt : nat) (j step : Z)
    (body : Z → St → outcome St) (s : St) : outcome St :=
  match cnt with
  | O => Ok s
  | S c => s' ← body j s; for_range c (j + step) step body s'
  end.

Definition for_loop {St : Type} (lo hi : Z) (body : Z → St → outcome St) (s : St)
    : outcome St :=
  for_range (Z.to_nat (hi - lo)) lo 1 body s.

(** [for (i = lo; i < hi; i = i + 2) body]. *)
Definition for_loop2 {St : Type} (lo hi : Z) (body : Z → St → outcome St) (s : St)
    : outcome St :=
  for_range (Z.to_nat (Z.quot (hi - lo + 1) 2)) lo 2 body s.

(** A loop whose body may change the loop variable or leave with
    [break]: the state carries every variable the loop touches. *)
Inductive ctl (St : Type) : Type :=
| Next (s : St)
| Break (s : St).
Arguments Next {St} s.
Arguments Break {St} s.

Fixpoint while_loop {St : Type} (fuel : nat) (cond : St → bool)
    (body : St → outcome (ctl St)) (s : St) : outcome St :=
  if cond s then
    match fuel with
    | O => OutOfFuel
    | S f =>
        match body s with
        | Ok (Next s') => while_loop f cond body s'
        | Ok (Break s') => Ok s'
        | Oob i => Oob i
        | Unset => Unset
        | OutOfFuel => OutOfFuel
        end
    end
  else Ok s.

(** ** Arrays *)

(** What a load from outside an array brings back.  The checked
    embedding stops there; the lenient one goes on with the word that
    happens to lie at that place, [junk i]. *)
Inductive policy : Type :=
| Checked
| Lenient (junk : Z → Z).

Definition inb {A : Type} (a : list A) (i : Z) : bool :=
  bool_decide (0 ≤ i < Z.of_nat (length a)).

Abbreviation matrix := (list (list Z)).

Definition POPULATION : Z := 20.

Section Engine.

Variable pol : policy.

Definition stray (i : Z) : outcome Z :=
  match pol with
  | Checked => Oob i
  | Lenient junk => Ok (junk i)
  end.

Definition load (a : list Z) (i : Z) : outcome Z :=
  if inb a i then
    match a !! Z.to_nat i with
    | Some v => Ok v
    | None => Oob i
    end
  else stray i.

(** A store outside the array always stops the run. *)
Definition store (a : list Z) (i v : Z) : outcome (list Z) :=
  if inb a i then Ok (<[Z.to_nat i := v]> a) else Oob i.

Definition mload (m : matrix) (r c : Z) : outcome Z :=
  if inb m r then
    match m !! Z.to_nat r with
    | Some row => load row c
    | None => Oob r
    end
  else stray r.

Definition mstore (m : matrix) (r c v : Z) : outcome matrix :=
  if inb m r then
    match m !! Z.to_nat r with
    | Some row => row' ← store row c v; Ok (<[Z.to_nat r := row']> m)
    | None => Oob r
    end
  else Oob r.

(** ** The codec: copy_array and order_representation *)

(** The block of [copy_array] that runs when [i == j - 1].  Its loop
    runs on the same variable [i] as the loop around it, so it is a
    loop over the pair [(i, a)] and hands the last [i] back. *)
Definition copy_array_at (n j : Z) (i : Z) (a : list Z)
    : outcome (ctl (Z * list Z)) :=
  v ← load a (i + 1);
  a ← store a i v;
  '(i, a) ← while_loop (Z.to_nat n)
    (λ '(i, a), bool_decide (i < n - 1))
    (λ '(i, a),
       v ← load a (i + 1);
       a ← store a i v;
       Ok (Next (i + 1, a)))
    (j, a);
  a ← store a (n - 1) 0;
  Ok (Next (i + 1, a)).

(** [copy_array(a, n, j)]. *)
Definition copy_array (a : list Z) (n j : Z) : outcome (list Z) :=
  '(_, a) ← while_loop (Z.to_nat n)
    (λ '(i, a), bool_decide (i < n))
    (λ '(i, a),
       if bool_decide (i = j - 1) then copy_array_at n j i a
       else Ok (Next (i + 1, a)))
    (0, a);
  Ok a.

(** The body of the loop over [i] in [order_representation]: row [i] of
    [a] is decoded into row [i] of [route]. *)
Definition decode_row (n : Z) (a : matrix) (i : Z)
    (st : matrix * list Z) : outcome (matrix * list Z) :=
  let '(route, order_list) := st in
  order_list ← for_loop 0 n (λ j ol, store ol j (j + 1)) order_list;
  for_loop 0 n
    (λ j '(route, order_list),
       k ← mload a i j;
       v ← load order_list (k - 1);
       route ← mstore route i j v;
       order_list ← copy_array order_list n k;
       Ok (route, order_list))
    (route, order_list).

(** [order_representation(n, a, route)].  [int order_list[n]] starts
    with indeterminate cells; each of them is stored before it is
    loaded, and they are zero here. *)
Definition order_representation (n : Z) (a route : matrix) : outcome matrix :=
  '(route, _) ← for_loop 0 POPULATION (decode_row n a)
                  (route, replicate (Z.to_nat n) 0);
  Ok route.

(** ** The cost oracle: compute_cost and is_feasible *)

(** The instance.  The coordinate arrays [x] and [y] enter the search
    only through the macro [dist(k,l)], a rounded square root of
    doubles; [tsp_dist] is that value as a function of the two node
    numbers. *)
Record TSPdata : Type := {
  tsp_n : Z;
  tsp_dist : Z → Z → Z;
  min_node_num : Z;
}.

(** [dist(k,l)] loads [x] and [y] at [k] and at [l]. *)
Definition dist (t : TSPdata) (k l : Z) : outcome Z :=
  if bool_decide (0 ≤ k < tsp_n t) && bool_decide (0 ≤ l < tsp_n t)
  then Ok (tsp_dist t k l)
  else
    match pol with
    | Checked => Oob (if bool_decide (0 ≤ k < tsp_n t) then l else k)
    | Lenient _ => Ok (tsp_dist t k l)
    end.

(** [compute_cost(tspdata, tour)]; the sum is taken in [Z], an [int]
    that overflows is not modelled. *)
Definition compute_cost (t : TSPdata) (tour : list Z) : outcome Z :=
  let n := tsp_n t in
  '(k, cost) ← while_loop (Z.to_nat n)
    (λ '(k, cost), bool_decide (k < n - 1))
    (λ '(k, cost),
       t1 ← load tour (k + 1);
       if bool_decide (t1 < 0) then Ok (Break (k, cost))
       else
         t0 ← load tour k;
         d ← dist t t0 t1;
         Ok (Next (k + 1, cost + d)))
    (0, 0);
  tk ← load tour k;
  t0 ← load tour 0;
  d ← dist t tk t0;
  Ok (cost + d).

(** [is_feasible(tspdata, tour)]: the state of the second loop is
    [(k, visited, flag, num_visited)]. *)
Definition is_feasible (t : TSPdata) (tour : list Z) : outcome Z :=
  let n := tsp_n t in
  visited ← for_loop 0 n (λ k v, store v k 0) (replicate (Z.to_nat n) 0);
  '(_, _, flag, num_visited) ← while_loop (Z.to_nat n)
    (λ '(k, _, _, _), bool_decide (k < n))
    (λ '(k, visited, flag, num_visited),
       tk ← load tour k;
       if bool_decide (tk < 0) then Ok (Break (k, visited, flag, num_visited))
       else if bool_decide (tk >= n) then Ok (Break (k, visited, 0, num_visited))
       else
         seen ← load visited tk;
         if bool_decide (seen ≠ 0) then Ok (Break (k, visited, 0, num_visited))
         else
           visited ← store visited tk 1;
           Ok (Next (k + 1, visited, flag, num_visited + 1)))
    (0, visited, 1, 0);
  Ok (if bool_decide (num_visited < min_node_num t) then 0 else flag).

(** [evaluate_route(n, route, a, tspdata)]. *)
Definition evaluate_route (t : TSPdata) (n : Z) (route : matrix) (a : list Z)
    : outcome (list Z) :=
  a ← for_loop 0 POPULATION (λ i a, store a i 0) a;
  '(a, _) ← for_loop 0 POPULATION
    (λ i '(a, b),
       b ← for_loop 0 n (λ j b, v ← mload route i j; store b j (v - 1)) b;
       cost ← compute_cost t b;
       a ← store a i cost;
       Ok (a, b))
    (a, replicate (Z.to_nat n) 0);
  Ok a.

(** ** Selection: min and ranking_selection *)

Definition min (a : list Z) : outcome Z :=
  m ← load a (POPULATION - 1);
  for_loop 0 POPULATION
    (λ i m, x ← load a i; Ok (if bool_decide (m > x) then x else m)) m.

(** One pass of the loop over [i] in [ranking_selection].  The state is
    [(d, c, idx, picks)]: [idx] is [None] until its first assignment,
    and [picks] lists the value [idx] had in each pass so far (the C
    code keeps no such list; it is here to name the row behind each
    output position). *)
Definition ranking_pass (n : Z) (b : matrix) (i : Z)
    (st : list Z * matrix * option Z * list Z)
    : outcome (list Z * matrix * option Z * list Z) :=
  let '(d, c, idx, picks) := st in
  m ← min d;
  idx ← for_loop 0 POPULATION
    (λ j idx, x ← load d j; Ok (if bool_decide (x = m) then Some j else idx)) idx;
  match idx with
  | None => Unset
  | Some ix =>
      c ← for_loop 0 n (λ j c, v ← mload b ix j; mstore c i j v) c;
      d ← store d ix 1000000;
      Ok (d, c, Some ix, picks ++ [ix])
  end.

Definition ranking_run (a : list Z) (n : Z) (b c : matrix)
    : outcome (matrix * list Z) :=
  d ← for_loop 0 POPULATION (λ i d, v ← load a i; store d i v)
        (replicate (Z.to_nat POPULATION) 0);
  '(_, c, _, picks) ← for_loop 0 POPULATION (ranking_pass n b) (d, c, None, []);
  Ok (c, picks).

(** [ranking_selection(a, n, b, c)]: the rows written to [c]. *)
Definition ranking_selection (a : list Z) (n : Z) (b c : matrix) : outcome matrix :=
  '(c, _) ← ranking_run a n b c; Ok c.

(** The input row behind each output position. *)
Definition ranking_picks (a : list Z) (n : Z) (b c : matrix) : outcome (list Z) :=
  '(_, picks) ← ranking_run a n b c; Ok picks.

(** ** Recombination and mutation *)

Definition cut_point (n : Z) : Z :=
  if bool_decide (Z.rem n 2 = 0) then Z.quot n 2 - 1 else Z.quot (n + 1) 2 - 1.

(** [tow_point_crossover(n, a, b)]: [b] holds the parents, [a] receives
    the children. *)
Definition tow_point_crossover (n : Z) (a b : matrix) : outcome matrix :=
  let point := cut_point n in
  for_loop2 0 POPULATION
    (λ i a,
       a ← for_loop 0 (Z.quot point 2 + 1)
         (λ j a,
            v ← mload b i j; a ← mstore a i j v;
            w ← mload b (i + 1) j; mstore a (i + 1) j w) a;
       a ← for_loop (Z.quot point 2 + 1) (point + Z.quot point 2 + 1)
         (λ j a,
            v ← mload b (i + 1) j; a ← mstore a i j v;
            w ← mload b i j; mstore a (i + 1) j w) a;
       for_loop (point + Z.quot point 2 + 1) n
         (λ j a,
            v ← mload b i j; a ← mstore a i j v;
            w ← mload b (i + 1) j; mstore a (i + 1) j w) a)
    a.

Definition mutation_point (n : Z) : Z :=
  if bool_decide (Z.rem n 2 = 0) then Z.quot n 2 else Z.quot (n + 1) 2.

(** The individual [mutation] works on, from the value [rv] that
    [rand()] returned. *)
Definition mutation_target (rv : Z) : Z := Z.rem rv (POPULATION - 1) + 1.

(** The run of ones written before the marker, in the branch taken
    when [r <= POPULATION/2]. *)
Definition mutation_tail_ones (n : Z) (a : matrix) (r : Z) : outcome matrix :=
  for_loop (mutation_point n) (n - 10) (λ i a, mstore a r i 1) a.

(** [mutation(n, a)]. *)
Definition mutation (n : Z) (a : matrix) (rv : Z) : outcome matrix :=
  let r := mutation_target rv in
  let point := mutation_point n in
  if bool_decide (r > Z.quot POPULATION 2) then
    a ← for_loop 0 point (λ i a, mstore a r i 1) a;
    mstore a r point 2
  else
    a ← mutation_tail_ones n a r;
    mstore a r (point + 10) 2.

(** [rand_crossover(n, a)]. *)
Definition rand_crossover (n : Z) (a : matrix) : outcome matrix :=
  let p := 3 in
  for_loop 0 n (λ i a, v ← mload a p i; mstore a (POPULATION - p) i v) a.

(** ** The search loop *)

(** What the run draws from outside: the values successive calls of
    [rand()] return, the values successive calls of [cpu_time()]
    return, and the words the stack holds where [gene_tmp] is placed. *)
Record world : Type := {
  rand : nat → Z;
  cpu_time : nat → Q;
  stack_words : matrix;
}.

Variable w : world.

(** [create_matrix(n, a)], from the [pos]-th call of [rand()] on. *)
Definition create_matrix (n : Z) (a : matrix) (pos : nat) : outcome (matrix * nat) :=
  for_loop 0 POPULATION
    (λ i st,
       for_loop 0 n
         (λ j '(a, pos),
            a ← mstore a i j (Z.rem (rand w pos) (n - j) + 1);
            Ok (a, S pos))
         st)
    (a, pos).

(** The local arrays of [genetic_algorithm] and the numbers of calls of
    [rand()] and [cpu_time()] made so far. *)
Record ga_state : Type := {
  gene : matrix;
  route : matrix;
  fitness : list Z;
  gene_tmp : matrix;
  rand_calls : nat;
  time_calls : nat;
}.

(** The body of the while loop. *)
Definition generation (t : TSPdata) (len : Z) (s : ga_state) : outcome ga_state :=
  route' ← order_representation len (gene s) (route s);
  fitness' ← evaluate_route t len route' (fitness s);
  gene_tmp' ← ranking_selection fitness' len (gene s) (gene_tmp s);
  let r1 := Z.rem (rand w (rand_calls s)) 20 in
  let r2 := Z.rem (rand w (S (rand_calls s))) 20 in
  gene_tmp' ← (if bool_decide (r1 = 7) then rand_crossover len gene_tmp'
               else Ok gene_tmp');
  gene' ← tow_point_crossover len (gene s) gene_tmp';
  '(gene', calls) ←
    (if bool_decide (r1 = r2)
     then g ← mutation len gene' (rand w (S (S (rand_calls s))));
          Ok (g, S (S (S (rand_calls s))))
     else Ok (gene', S (S (rand_calls s))));
  Ok {| gene := gene'; route := route'; fitness := fitness';
        gene_tmp := gene_tmp'; rand_calls := calls;
        time_calls := S (time_calls s) |}.

Record Vdata : Type := {
  starttime : Q;
  bestsol : list Z;
}.

(** The test of the while loop, [cpu_time() - vdata->starttime <
    param->timelim]. *)
Definition in_time (timelim : Z) (v : Vdata) (s : ga_state) : bool :=
  if Qlt_le_dec (cpu_time w (time_calls s) - starttime v) (inject_Z timelim)
  then true else false.

(** [genetic_algorithm] up to its while loop: the local arrays and
    the best-solution record as the loop finds them.  [gene], [route]
    and [fitness] start with zeros, every cell of them being stored
    before it is loaded; [gene_tmp] starts with [stack_words]. *)
Definition search_start (t : TSPdata) (v : Vdata) : outcome (ga_state * list Z) :=
  let len := tsp_n t in
  let zeros := replicate (Z.to_nat POPULATION) (replicate (Z.to_nat len) 0) in
  '(gene0, calls) ← create_matrix len zeros O;
  gene0 ← for_loop 0 len (λ i g, mstore g 0 i 1) gene0;
  best ← for_loop 0 (tsp_n t) (λ i b, store b i i) (bestsol v);
  Ok ({| gene := gene0; route := zeros;
         fitness := replicate (Z.to_nat POPULATION) 0;
         gene_tmp := stack_words w; rand_calls := calls; time_calls := O |},
      best).

(** [genetic_algorithm(param, tspdata, vdata)]; [fuel] bounds the
    number of generations. *)
Definition genetic_algorithm (fuel : nat) (timelim : Z) (t : TSPdata) (v : Vdata)
    : outcome Vdata :=
  let len := tsp_n t in
  '(s, best) ← search_start t v;
  s ← while_loop fuel (in_time timelim v)
        (λ s, s' ← generation t len s; Ok (Next s')) s;
  route' ← order_representation len (gene_tmp s) (route s);
  best ← for_loop 0 len (λ i b, v ← mload route' 0 i; store b i (v - 1)) best;
  Ok {| starttime := starttime v; bestsol := best |}.

End Engine.

(** ** The routines around the search *)




Definition MAX_STR : Z := 1024.
Definition TIMELIM : Z := 300.
Definition GIVESOL : Z := 0.
Definition OUTFORMAT : Z := 2.
Definition TOURFILE : String.string := "result.tour"%string.

Record Param : Type := {
  timelim : Z;
  givesol : Z;
  outformat : Z;
  tourfile : String.string;
}.

(** [argv[i]]. *)
Definition arg (argv : list String.string) (i : Z) : outcome String.string :=
  if inb argv i then
    match argv !! Z.to_nat i with
    | Some s => Ok s
    | None => Oob i
    end
  else Oob i.

(** [strcpy(param->tourfile, s)]: the field has MAX_STR bytes, and the
    string goes there with its closing zero byte. *)
Definition set_tourfile (s : String.string) (p : Param) : outcome Param :=
  if bool_decide (Z.of_nat (String.length s) < MAX_STR)
  then Ok {| timelim := timelim p; givesol := givesol p;
             outformat := outformat p; tourfile := s |}
  else Oob MAX_STR.

(** The body of the loop of [copy_parameters]: the four tests on the
    name [argv[i]], one after the other.  [atoi] is the function of the
    C library. *)
Definition read_pair (atoi : String.string → Z) (argv : list String.string)
    (i : Z) (p : Param) : outcome Param :=
  name ← arg argv i;
  p ← (if String.eqb name "timelim"%string
       then value ← arg argv (i + 1);
            Ok {| timelim := atoi value; givesol := givesol p;
                  outformat := outformat p; tourfile := tourfile p |}
       else Ok p);
  name ← arg argv i;
  p ← (if String.eqb name "givesol"%string
       then value ← arg argv (i + 1);
            Ok {| timelim := timelim p; givesol := atoi value;
                  outformat := outformat p; tourfile := tourfile p |}
       else Ok p);
  name ← arg argv i;
  p ← (if String.eqb name "outformat"%string
       then value ← arg argv (i + 1);
            Ok {| timelim := timelim p; givesol := givesol p;
                  outformat := atoi value; tourfile := tourfile p |}
       else Ok p);
  name ← arg argv i;
  if String.eqb name "tourfile"%string
  then value ← arg argv (i + 1); set_tourfile value p
  else Ok p.

(** [copy_parameters(argc, argv, param)]: [None] when the routine
    prints the usage line and ends the process with
    [exit(EXIT_FAILURE)]. *)
Definition copy_parameters (atoi : String.string → Z) (argc : Z)
    (argv : list String.string) : outcome (option Param) :=
  let param := {| timelim := TIMELIM; givesol := GIVESOL;
                  outformat := OUTFORMAT; tourfile := TOURFILE |} in
  if bool_decide (argc > 0) && bool_decide (Z.rem argc 2 = 0) then
    _ ← arg argv 0;
    Ok None
  else
    param ← for_loop2 1 argc (read_pair atoi argv) param;
    Ok (Some param).

(** ** The encoder of the specification *)

(** Modelled from the spec: tsp.c has no encoder.  The specification
    describes it: for each position, the gene is the current rank of
    the label within the labels that remain, and the label is then
    removed. *)
Fixpoint rank (x : Z) (remaining : list Z) : Z :=
  match remaining with
  | [] => 1
  | y :: rest => if bool_decide (x = y) then 1 else 1 + rank x rest
  end.

Fixpoint remove_label (x : Z) (remaining : list Z) : list Z :=
  match remaining with
  | [] => []
  | y :: rest => if bool_decide (x = y) then rest else y :: remove_label x rest
  end.

Fixpoint encode_from (remaining route : list Z) : list Z :=
  match route with
  | [] => []
  | x :: route' => rank x remaining :: encode_from (remove_label x remaining) route'
  end.

Definition encode (n : Z) (route : list Z) : list Z :=
  encode_from (seqZ 1 n) route.

(** * Notions used in the statements *)

(** What [copy_array(a, n, j)] leaves in [a] when [1 <= j <= n]: the
    cell at [j-1] is gone, the cells behind it have moved down by one,
    and the last cell is zero. *)
Definition remove_at (j : Z) (a : list Z) : list Z :=
  delete (Z.to_nat (j - 1)) a ++ [0].

(** One step of decoding: the gene [k] takes the [k]-th label that
    remains.  The state is (labels taken so far, labels that remain). *)
Definition pick_step (st : list Z * list Z) (k : Z) : list Z * list Z :=
  (st.1 ++ [st.2 !!! Z.to_nat (k - 1)], delete (Z.to_nat (k - 1)) st.2).

Definition pick_all (n : Z) (genes : list Z) : list Z * list Z :=
  foldl pick_step ([], seqZ 1 n) genes.

Definition decode (n : Z) (genes : list Z) : list Z := (pick_all n genes).1.

(** The range invariant of a chromosome: [1 <= gene[j] <= n - j]. *)
Definition in_range (n : Z) (genes : list Z) : Prop :=
  Z.of_nat (length genes) = n ∧
  ∀ (j : nat) (k : Z), genes !! j = Some k → 1 ≤ k ≤ n - Z.of_nat j.

(** A population: POPULATION rows of [n] cells. *)
Definition shape (n : Z) (m : matrix) : Prop :=
  Z.of_nat (length m) = POPULATION ∧ Forall (λ row, Z.of_nat (length row) = n) m.

(** The loads of [copy_array] stay inside the working list, or the
    policy lets the one load behind its end through. *)
Definition tolerated (pol : policy) (n : Z) (genes : list Z) : Prop :=
  (∃ junk, pol = Lenient junk) ∨ genes !! O ≠ Some n.

(** The state of the loop over the rows when row [i] is next. *)
Definition decoded_upto (n : Z) (a route : matrix) (i : Z)
    (st : matrix * list Z) : Prop :=
  st.1 = (decode n <$> take (Z.to_nat i) a) ++ drop (Z.to_nat i) route ∧
  Z.of_nat (length st.2) = n.

Fixpoint genes_fit (bound : Z) (genes : list Z) : bool :=
  match genes with
  | [] => true
  | k :: rest => bool_decide (1 ≤ k ≤ bound) && genes_fit (bound - 1) rest
  end.

Definition in_rangeb (n : Z) (genes : list Z) : bool :=
  bool_decide (Z.of_nat (length genes) = n) && genes_fit n genes.

Definition shapeb (n : Z) (m : matrix) : bool :=
  bool_decide (Z.of_nat (length m) = POPULATION) &&
  forallb (λ row, bool_decide (Z.of_nat (length row) = n)) m.

(** The fitness of the individual at input position [x]. *)
Definition fit (a : list Z) (x : Z) : Z := a !!! Z.to_nat x.

(** [x] is picked ahead of [y]: the smaller fitness first and, among
    equal fitness, the larger input position first. *)
Definition ahead (a : list Z) (x y : Z) : Prop :=
  fit a x < fit a y ∨ (fit a x = fit a y ∧ y ≤ x).

(** The state of [ranking_selection] when pass [i] is next. *)
Definition ranked (a : list Z) (b c : matrix) (i : Z)
    (st : list Z * matrix * option Z * list Z) : Prop :=
  let '(d, c', _, picks) := st in
  Z.of_nat (length picks) = i ∧
  NoDup picks ∧
  (∀ x, x ∈ picks → 0 ≤ x < POPULATION) ∧
  Z.of_nat (length d) = POPULATION ∧
  (∀ p, 0 ≤ p < POPULATION →
     d !! Z.to_nat p = Some (if decide (p ∈ picks) then 1000000 else fit a p)) ∧
  c' = ((λ x, b !!! Z.to_nat x) <$> picks) ++ drop (Z.to_nat i) c ∧
  (∀ (s : nat) x, picks !! s = Some x →
     ∀ p, 0 ≤ p < POPULATION → p ∉ take s picks → ahead a x p).

(** The cell [m[r][c]] of a population. *)
Definition cell (m : matrix) (r c : Z) : Z := (m !!! Z.to_nat r) !!! Z.to_nat c.

(** The gene that [tow_point_crossover] puts at column [c] of row [r]:
    in the middle band the gene of the other parent of the pair,
    elsewhere the gene of the parent at the same row. *)
Definition crossed (n : Z) (b : matrix) (r c : Z) : Z :=
  let p := cut_point n in
  let mate := if Z.even r then r + 1 else r - 1 in
  if bool_decide (Z.quot p 2 < c ≤ p + Z.quot p 2) then cell b mate c else cell b r c.

(** The state of the rows [i] and [i+1] while the three loops over [j]
    run: the columns before [j] hold the children, everything else is
    as it was in [a0]. *)
Definition pair_crossed (n : Z) (b a0 : matrix) (i j : Z) (a : matrix) : Prop :=
  shape n a ∧
  ∀ r c, 0 ≤ r < POPULATION → 0 ≤ c < n →
    cell a r c = if bool_decide ((r = i ∨ r = i + 1) ∧ c < j)
                 then crossed n b r c else cell a0 r c.

(** The macro [dist] on nodes with integer coordinates: the square
    root of [dx*dx + dy*dy], rounded to the nearest integer. *)
Definition rounded_dist (xs ys : list Z) (k l : Z) : Z :=
  let dx := xs !!! Z.to_nat k - xs !!! Z.to_nat l in
  let dy := ys !!! Z.to_nat k - ys !!! Z.to_nat l in
  (Z.sqrt (4 * (dx * dx + dy * dy)) + 1) / 2.

(** Three nodes on a line, at (0,0), (1,0) and (2,0); a tour has to
    visit all of them. *)
Definition line3 : TSPdata :=
  {| tsp_n := 3; tsp_dist := rounded_dist [0; 1; 2] [0; 0; 0]; min_node_num := 3 |}.

(** The corners of a rectangle, at (0,0), (3,0), (3,4) and (0,4): the
    sides are 3 and 4 long, the diagonals 5. *)
Definition rect4 : TSPdata :=
  {| tsp_n := 4; tsp_dist := rounded_dist [0; 3; 3; 0] [0; 0; 4; 4]; min_node_num := 4 |}.

(** [rand()] returns 0 except for the listed calls. *)
Definition draws (special : list (nat * Z)) (pos : nat) : Z :=
  match list_find (λ e, e.1 = pos) special with
  | Some (_, e) => e.2
  | None => 0
  end.

(** A clock that advances by one second from one call of [cpu_time()]
    to the next. *)
Definition seconds (pos : nat) : Q := inject_Z (Z.of_nat pos).

(** A run that did not stop for lack of fuel. *)
Definition fueled {A : Type} (o : outcome A) : Prop := o ≠ OutOfFuel.

(** The state of [ranking_selection] when pass [i] is next, whatever
    the fitness values are. *)
Definition picked (b c : matrix) (i : Z)
    (st : list Z * matrix * option Z * list Z) : Prop :=
  let '(d, c', _, picks) := st in
  Z.of_nat (length picks) = i ∧
  Forall (λ x, 0 ≤ x < POPULATION) picks ∧
  Z.of_nat (length d) = POPULATION ∧
  c' = ((λ x, b !!! Z.to_nat x) <$> picks) ++ drop (Z.to_nat i) c.

(** The columns of the run of ones and the column of the marker, by
    the branch taken. *)
Definition mutation_ones (n r : Z) : Z * Z :=
  if bool_decide (r > Z.quot POPULATION 2) then (0, mutation_point n)
  else (mutation_point n, n - 10).

Definition mutation_marker (n r : Z) : Z :=
  if bool_decide (r > Z.quot POPULATION 2) then mutation_point n
  else mutation_point n + 10.

(** The gene [create_matrix] stores at row [r], column [c], when it
    starts at call [pos] of [rand()]. *)
Definition drawn_gene (w : world) (n : Z) (pos : nat) (r c : Z) : Z :=
  Z.rem (rand w (pos + Z.to_nat (r * n + c))%nat) (n - c) + 1.

(** The local arrays are well formed: POPULATION rows of [n] cells,
    POPULATION fitness values. *)
Definition well_formed (n : Z) (s : ga_state) : Prop :=
  shape n (gene s) ∧ shape n (route s) ∧ shape n (gene_tmp s) ∧
  Z.of_nat (length (fitness s)) = POPULATION.

(** The nodes of a tour that come before its first negative entry. *)
Fixpoint visited_part (tour : list Z) : list Z :=
  match tour with
  | [] => []
  | x :: rest => if bool_decide (x < 0) then [] else x :: visited_part rest
  end.

(** The length of the path through the nodes of [l], in their order,
    and the length of the cycle that goes back from the last node to
    the first. *)
Fixpoint path_cost (d : Z → Z → Z) (l : list Z) : Z :=
  match l with
  | [] => 0
  | x :: rest =>
      match rest with
      | [] => 0
      | y :: _ => d x y + path_cost d rest
      end
  end.

Definition cycle_cost (d : Z → Z → Z) (l : list Z) : Z :=
  path_cost d l + d (default 0 (last l)) (default 0 (head l)).

(** The cost that [evaluate_route] gives a decoded row. *)
Definition route_cost (t : TSPdata) (row : list Z) : Z :=
  cycle_cost (tsp_dist t) (visited_part ((λ v, v - 1) <$> row)).

(** A decoded row whose cost can be computed: its first label is not
    the marker 0 and no label before the first marker is above [n]. *)
Definition costable (n : Z) (row : list Z) : Prop :=
  visited_part ((λ v, v - 1) <$> row) ≠ [] ∧
  Forall (λ x, x < n) (visited_part ((λ v, v - 1) <$> row)).

(** The mutation step of a generation cannot leave the range
    invariant: it is skipped, or the chromosomes are long enough for
    the marker. *)
Definition mutation_harmless (w : world) (n : Z) (s : ga_state) : Prop :=
  Z.rem (rand w (rand_calls s)) 20 ≠ Z.rem (rand w (S (rand_calls s))) 20 ∨
  (24 ≤ n ∧ 0 ≤ rand w (S (S (rand_calls s)))).



(** The value that the words of a command line, taken in pairs of a
    name and a value, give the parameter [name]: the value of the last
    pair with that name. *)
Fixpoint setting (name : String.string) (words : list String.string)
    : option String.string :=
  match words with
  | k :: v :: rest =>
      match setting name rest with
      | Some x => Some x
      | None => if String.eqb k name then Some v else None
      end
  | _ => None
  end.

(** The parameters that a command line asks for. *)
Definition settings (atoi : String.string → Z) (words : list String.string) : Param :=
  {| timelim := default TIMELIM (atoi <$> setting "timelim"%string words);
     givesol := default GIVESOL (atoi <$> setting "givesol"%string words);
     outformat := default OUTFORMAT (atoi <$> setting "outformat"%string words);
     tourfile := default TOURFILE (setting "tourfile"%string words) |}.

(** * Properties *)

(** ** Loops *)

Lemma for_range_inv {St : Type} (I : nat → St → Prop) (cnt : nat) (j step : Z)
    (body : Z → St → outcome St) (s : St) :
  I O s →
  (∀ (m : nat) s, (m < cnt)%nat → I m s →
     ∃ s', body (j + step * Z.of_nat m) s = Ok s' ∧ I (S m) s') →
  ∃ s', for_range cnt j step body s = Ok s' ∧ I cnt s'.
Proof.
  revert I j s. induction cnt as [|c IH]; intros I j s H0 Hstep.
  - exists s. split; [reflexivity | exact H0].
  - destruct (Hstep O s) as (s1 & Hb & H1); [lia | exact H0 |].
    replace (j + step * Z.of_nat 0) with j in Hb by lia.
    destruct (IH (λ m, I (S m)) (j + step) s1 H1) as (s2 & Hr & H2).
    + intros m s' Hm Hs'.
      destruct (Hstep (S m) s') as (s'' & Hb' & HI'); [lia | exact Hs' |].
      exists s''. split; [| exact HI'].
      rewrite <- Hb'. f_equal. lia.
    + exists s2. split; [| exact H2].
      simpl. rewrite Hb. exact Hr.
Qed.

Lemma for_loop_inv {St : Type} (I : Z → St → Prop) (lo hi : Z)
    (body : Z → St → outcome St) (s : St) :
  lo ≤ hi →
  I lo s →
  (∀ j s, lo ≤ j < hi → I j s → ∃ s', body j s = Ok s' ∧ I (j + 1) s') →
  ∃ s', for_loop lo hi body s = Ok s' ∧ I hi s'.
Proof.
  intros Hle H0 Hstep. unfold for_loop.
  destruct (for_range_inv (λ m, I (lo + Z.of_nat m)) (Z.to_nat (hi - lo)) lo 1 body s)
    as (s' & Hr & HI).
  - replace (lo + Z.of_nat 0) with lo by lia. exact H0.
  - intros m s0 Hm Hs0.
    destruct (Hstep (lo + Z.of_nat m) s0) as (s1 & Hb & H1); [lia | exact Hs0 |].
    exists s1. split.
    + rewrite <- Hb. f_equal. lia.
    + replace (lo + Z.of_nat (S m)) with (lo + Z.of_nat m + 1) by lia. exact H1.
  - exists s'. split; [exact Hr |].
    replace hi with (lo + Z.of_nat (Z.to_nat (hi - lo))) by lia. exact HI.
Qed.

Lemma for_loop_empty {St : Type} (lo hi : Z) (body : Z → St → outcome St) (s : St) :
  hi ≤ lo → for_loop lo hi body s = Ok s.
Proof.
  intros H. unfold for_loop. replace (Z.to_nat (hi - lo)) with O by lia. reflexivity.
Qed.

(** A loop that goes on until its test fails, and never leaves with
    [break]: [I] is kept by every pass and [measure] goes down. *)
Lemma while_loop_inv {St : Type} (I : St → Prop) (measure : St → nat)
    (cond : St → bool) (body : St → outcome (ctl St)) (fuel : nat) (s : St) :
  (∀ s, I s → cond s = true →
     ∃ s', body s = Ok (Next s') ∧ I s' ∧ (measure s' < measure s)%nat) →
  I s → (measure s ≤ fuel)%nat →
  ∃ s', while_loop fuel cond body s = Ok s' ∧ I s' ∧ cond s' = false.
Proof.
  intros Hstep. revert s. induction fuel as [|f IH]; intros s HI Hm.
  - destruct (cond s) eqn:Hc.
    + destruct (Hstep s HI Hc) as (s' & _ & _ & Hlt). lia.
    + exists s. simpl. rewrite Hc. auto.
  - destruct (cond s) eqn:Hc.
    + destruct (Hstep s HI Hc) as (s' & Hb & HI' & Hlt).
      destruct (IH s' HI') as (s'' & Hw & HI'' & Hc''); [lia |].
      exists s''. simpl. rewrite Hc, Hb. auto.
    + exists s. simpl. rewrite Hc. auto.
Qed.

(** ** Arrays *)

Lemma Forall_weaken {A : Type} (P Q : A → Prop) (l : list A) :
  Forall P l → (∀ x, P x → Q x) → Forall Q l.
Proof. induction 1; intros HPQ; constructor; auto. Qed.

Lemma inb_true {A : Type} (a : list A) (i : Z) :
  0 ≤ i < Z.of_nat (length a) → inb a i = true.
Proof. intros H. unfold inb. by apply bool_decide_eq_true. Qed.

Lemma inb_false {A : Type} (a : list A) (i : Z) :
  ¬ (0 ≤ i < Z.of_nat (length a)) → inb a i = false.
Proof. intros H. unfold inb. by apply bool_decide_eq_false. Qed.

Lemma load_in (pol : policy) (a : list Z) (i : Z) (v : Z) :
  0 ≤ i → a !! Z.to_nat i = Some v → load pol a i = Ok v.
Proof.
  intros Hi Hv. unfold load.
  rewrite inb_true; [by rewrite Hv |].
  apply lookup_lt_Some in Hv. lia.
Qed.

Lemma store_in (a : list Z) (i v : Z) :
  0 ≤ i < Z.of_nat (length a) → store a i v = Ok (<[Z.to_nat i := v]> a).
Proof. intros H. unfold store. by rewrite inb_true. Qed.

Lemma mload_in (pol : policy) (m : matrix) (r c : Z) (row : list Z) (v : Z) :
  0 ≤ r → m !! Z.to_nat r = Some row →
  0 ≤ c → row !! Z.to_nat c = Some v →
  mload pol m r c = Ok v.
Proof.
  intros Hr Hrow Hc Hv. unfold mload.
  rewrite inb_true; [rewrite Hrow; by apply load_in |].
  apply lookup_lt_Some in Hrow. lia.
Qed.

Lemma mstore_in (m : matrix) (r c v : Z) (row : list Z) :
  0 ≤ r → m !! Z.to_nat r = Some row →
  0 ≤ c < Z.of_nat (length row) →
  mstore m r c v = Ok (<[Z.to_nat r := <[Z.to_nat c := v]> row]> m).
Proof.
  intros Hr Hrow Hc. unfold mstore.
  rewrite inb_true; [rewrite Hrow; by rewrite store_in |].
  apply lookup_lt_Some in Hrow. lia.
Qed.

(** ** copy_array *)

Lemma remove_at_lookup (j : Z) (a r : list Z) :
  1 ≤ j ≤ Z.of_nat (length a) →
  length r = length a →
  (∀ p : nat, (p < length a)%nat →
     r !! p = if bool_decide (Z.of_nat p < j - 1) then a !! p
              else if bool_decide (Z.of_nat p < Z.of_nat (length a) - 1) then a !! S p
              else Some 0) →
  r = remove_at j a.
Proof.
  intros Hj Hlen Hp. apply list_eq. intros p. unfold remove_at.
  assert (Hdl : length (delete (Z.to_nat (j - 1)) a) = (length a - 1)%nat).
  { rewrite length_delete; [lia |]. apply lookup_lt_is_Some_2. lia. }
  destruct (decide (p < length a)%nat) as [Hlt | Hge].
  - rewrite (Hp p Hlt). repeat case_bool_decide.
    + rewrite lookup_app_l by lia. rewrite list_lookup_delete_lt by lia. done.
    + rewrite lookup_app_l by lia. rewrite list_lookup_delete_ge by lia. done.
    + rewrite lookup_app_r by lia. rewrite Hdl.
      replace (p - (length a - 1))%nat with O by lia. done.
  - rewrite (lookup_ge_None_2 r) by lia.
    symmetry. apply lookup_ge_None_2. rewrite length_app, Hdl. simpl. lia.
Qed.

Lemma copy_array_shift (pol : policy) (a a1 : list Z) (n j : Z) (fuel : nat) :
  Z.of_nat (length a) = n → 1 ≤ j < n → (Z.to_nat n ≤ fuel)%nat →
  a1 = <[Z.to_nat (j - 1) := a !!! Z.to_nat j]> a →
  ∃ a2,
    while_loop fuel
      (λ '(i, a), bool_decide (i < n - 1))
      (λ '(i, a), v ← load pol a (i + 1); a ← store a i v; Ok (Next (i + 1, a)))
      (j, a1) = Ok (n - 1, a2) ∧
    length a2 = length a ∧
    ∀ p : nat, a2 !! p = if bool_decide (Z.of_nat p < j - 1) then a !! p
                         else if bool_decide (Z.of_nat p < n - 1) then a !! S p
                         else a !! p.
Proof.
  intros Hn Hj Hfuel Ha1.
  set (I := λ s : Z * list Z,
    j ≤ s.1 ≤ n - 1 ∧ length s.2 = length a ∧
    ∀ p : nat, s.2 !! p = if bool_decide (Z.of_nat p < j - 1) then a !! p
                          else if bool_decide (Z.of_nat p < s.1) then a !! S p
                          else a !! p).
  destruct (while_loop_inv I (λ s, Z.to_nat (n - 1 - s.1))
              (λ '(i, a), bool_decide (i < n - 1))
              (λ '(i, a), v ← load pol a (i + 1); a ← store a i v; Ok (Next (i + 1, a)))
              fuel (j, a1)) as ([i a2] & Hw & (Hi & Hlen & Hp) & Hc).
  - intros [i a'] (Hi & Hlen & Hp) Hc. simpl in *.
    apply bool_decide_eq_true in Hc.
    destruct (lookup_lt_is_Some_2 a (Z.to_nat (i + 1))) as [v Hv]; [lia |].
    assert (Hv' : a' !! Z.to_nat (i + 1) = Some v).
    { rewrite Hp. repeat case_bool_decide; try lia. done. }
    rewrite (load_in pol a' (i + 1) v) by (done || lia). simpl.
    rewrite store_in by lia. simpl.
    eexists. split; [reflexivity |]. split; [| simpl; lia].
    unfold I. simpl. split; [lia |]. split; [by rewrite length_insert |].
    intros p. destruct (decide (p = Z.to_nat i)) as [-> | Hne].
    + rewrite list_lookup_insert_eq by lia.
      repeat case_bool_decide; try lia.
      rewrite <- Hv. f_equal. lia.
    + rewrite list_lookup_insert_ne by done. rewrite Hp.
      repeat case_bool_decide; try lia; done.
  - unfold I. simpl. split; [lia |]. subst a1.
    split; [by rewrite length_insert |].
    intros p. destruct (decide (p = Z.to_nat (j - 1))) as [-> | Hne].
    + rewrite list_lookup_insert_eq by lia.
      repeat case_bool_decide; try lia.
      rewrite list_lookup_total_alt.
      destruct (lookup_lt_is_Some_2 a (Z.to_nat j)) as [v Hv]; [lia |].
      rewrite Hv. simpl. rewrite <- Hv. f_equal. lia.
    + rewrite list_lookup_insert_ne by done.
      repeat case_bool_decide; try lia; done.
  - simpl. lia.
  - simpl in *. apply bool_decide_eq_false in Hc.
    assert (i = n - 1) as -> by lia.
    exists a2. split; [exact Hw |]. split; [exact Hlen |]. exact Hp.
Qed.

Lemma copy_array_at_inner (pol : policy) (a : list Z) (n j : Z) :
  Z.of_nat (length a) = n → 1 ≤ j < n →
  copy_array_at pol n j (j - 1) a = Ok (Next (n, remove_at j a)).
Proof.
  intros Hn Hj. unfold copy_array_at.
  destruct (lookup_lt_is_Some_2 a (Z.to_nat j)) as [v Hv]; [lia |].
  replace (j - 1 + 1) with j by lia.
  rewrite (load_in pol a j v) by (done || lia). simpl.
  rewrite store_in by lia. simpl.
  destruct (copy_array_shift pol a (<[Z.to_nat (j - 1) := v]> a) n j (Z.to_nat n))
    as (a2 & Hw & Hlen & Hp); [done | done | lia | |].
  { by rewrite list_lookup_total_alt, Hv. }
  rewrite Hw. simpl. rewrite store_in by lia. simpl.
  replace (n - 1 + 1) with n by lia. do 3 f_equal.
  apply remove_at_lookup; [lia | by rewrite length_insert |].
  intros p Hlt. destruct (decide (p = Z.to_nat (n - 1))) as [-> | Hne].
  - rewrite list_lookup_insert_eq by lia. repeat case_bool_decide; try lia. done.
  - rewrite list_lookup_insert_ne by done. rewrite Hp.
    repeat case_bool_decide; try lia; done.
Qed.

Lemma copy_array_at_last (junk : Z → Z) (a : list Z) (n : Z) :
  Z.of_nat (length a) = n → 1 ≤ n →
  copy_array_at (Lenient junk) n n (n - 1) a = Ok (Next (n + 1, remove_at n a)).
Proof.
  intros Hn Hj. unfold copy_array_at.
  replace (n - 1 + 1) with n by lia.
  assert (Hl : load (Lenient junk) a n = Ok (junk n)).
  { unfold load. rewrite inb_false by lia. done. }
  rewrite Hl. simpl.
  rewrite store_in by lia. simpl.
  destruct (Z.to_nat n) as [|f] eqn:Hf; [lia |].
  simpl. rewrite bool_decide_eq_false_2 by lia. simpl.
  rewrite store_in by (rewrite length_insert; lia). simpl.
  do 3 f_equal.
  apply remove_at_lookup; [lia | by rewrite !length_insert |].
  intros p Hlt. destruct (decide (p = Z.to_nat (n - 1))) as [-> | Hne].
  - rewrite list_lookup_insert_eq by (rewrite length_insert; lia).
    repeat case_bool_decide; try lia. done.
  - rewrite !list_lookup_insert_ne by done.
    repeat case_bool_decide; try lia; done.
Qed.

Lemma copy_array_outer (pol : policy) (a r : list Z) (n j e : Z) :
  Z.of_nat (length a) = n → 1 ≤ j ≤ n → n ≤ e →
  copy_array_at pol n j (j - 1) a = Ok (Next (e, r)) →
  copy_array pol a n j = Ok r.
Proof.
  intros Hn Hj He Hat. unfold copy_array.
  set (I := λ s : Z * list Z, (0 ≤ s.1 ≤ j - 1 ∧ s.2 = a) ∨ (n ≤ s.1 ∧ s.2 = r)).
  match goal with |- context [while_loop ?f ?c ?b ?s0] =>
    destruct (while_loop_inv I (λ x, Z.to_nat (n - x.1)) c b f s0)
      as ([i a'] & Hw & HI & Hc) end.
  - intros [i a'] HI Hc. unfold I in HI. simpl in *.
    apply bool_decide_eq_true in Hc.
    destruct HI as [[Hi ->] | [Hi _]]; [| lia].
    case_bool_decide as Heq.
    + subst i. rewrite Hat.
      eexists. split; [reflexivity |]. split; [| simpl; lia].
      right. simpl. split; [lia | done].
    + eexists. split; [reflexivity |]. split; [| simpl; lia].
      left. simpl. split; [lia | done].
  - left. simpl. split; [lia | done].
  - simpl. lia.
  - rewrite Hw. unfold I in HI. simpl in *. apply bool_decide_eq_false in Hc.
    destruct HI as [[Hi _] | [_ ->]]; [lia | done].
Qed.

Lemma copy_array_spec (pol : policy) (a : list Z) (n j : Z) :
  Z.of_nat (length a) = n → 1 ≤ j ≤ n →
  j < n ∨ (∃ junk, pol = Lenient junk) →
  copy_array pol a n j = Ok (remove_at j a).
Proof.
  intros Hn Hj Hpol.
  destruct (decide (j < n)) as [Hlt | Hge].
  - eapply (copy_array_outer pol a _ n j n); [done | done | lia |].
    apply copy_array_at_inner; [done | lia].
  - assert (j = n) as -> by lia.
    destruct Hpol as [? | [junk ->]]; [lia |].
    eapply (copy_array_outer _ a _ n n (n + 1)); [done | done | lia |].
    apply copy_array_at_last; [done | lia].
Qed.

(** ** The decoder as a function on lists *)

Lemma pick_all_take (n : Z) (genes : list Z) (j : nat) :
  in_range n genes → (j ≤ length genes)%nat →
  length (pick_all n (take j genes)).1 = j ∧
  Z.of_nat (length (pick_all n (take j genes)).2) = n - Z.of_nat j ∧
  (pick_all n (take j genes)).1 ++ (pick_all n (take j genes)).2 ≡ₚ seqZ 1 n.
Proof.
  intros [Hlen Hr]. induction j as [|j IH]; intros Hj.
  - rewrite take_0. unfold pick_all. simpl. rewrite length_seqZ.
    split; [done |]. split; [lia | done].
  - destruct IH as (H1 & H2 & H3); [lia |].
    destruct (lookup_lt_is_Some_2 genes j) as [k Hk]; [lia |].
    specialize (Hr j k Hk).
    rewrite (take_S_r genes j k Hk). unfold pick_all in *.
    rewrite foldl_app. simpl.
    destruct (foldl pick_step ([], seqZ 1 n) (take j genes)) as [p r]. simpl in *.
    destruct (lookup_lt_is_Some_2 r (Z.to_nat (k - 1))) as [x Hx]; [lia |].
    rewrite length_app, (length_delete r _) by eauto. simpl.
    split; [lia |]. split; [lia |].
    rewrite (list_lookup_total_correct r _ x Hx).
    rewrite <- H3, <- app_assoc. simpl.
    apply Permutation_app_head. symmetry. by apply delete_Permutation.
Qed.

Lemma decode_permutation (n : Z) (genes : list Z) :
  in_range n genes → decode n genes ≡ₚ seqZ 1 n.
Proof.
  intros H. destruct (pick_all_take n genes (length genes) H) as (H1 & H2 & H3); [done |].
  rewrite firstn_all in *. unfold decode.
  destruct H as [Hlen _].
  assert (Hnil : (pick_all n genes).2 = []).
  { apply length_zero_iff_nil. lia. }
  rewrite Hnil, app_nil_r in H3. exact H3.
Qed.

Lemma decode_length (n : Z) (genes : list Z) :
  in_range n genes → Z.of_nat (length (decode n genes)) = n.
Proof.
  intros H. rewrite (Permutation_length (decode_permutation n genes H)).
  rewrite length_seqZ. destruct H as [H _]. lia.
Qed.

Lemma decode_NoDup (n : Z) (genes : list Z) :
  in_range n genes → NoDup (decode n genes).
Proof.
  intros H. rewrite (decode_permutation n genes H). apply NoDup_seqZ.
Qed.

(** ** order_representation computes [decode] *)

Lemma order_list_init (ol : list Z) (n : Z) :
  Z.of_nat (length ol) = n →
  for_loop 0 n (λ j ol, store ol j (j + 1)) ol = Ok (seqZ 1 n).
Proof.
  intros Hn.
  destruct (for_loop_inv
    (λ j (l : list Z), length l = length ol ∧
       ∀ p : nat, Z.of_nat p < j → l !! p = Some (1 + Z.of_nat p))
    0 n (λ j ol, store ol j (j + 1)) ol) as (l & Hl & Hlen & Hp).
  - lia.
  - split; [done |]. intros p Hp. lia.
  - intros j l Hj [Hlen Hp]. rewrite store_in by lia.
    eexists. split; [reflexivity |]. split; [by rewrite length_insert |].
    intros p Hlt. destruct (decide (p = Z.to_nat j)) as [-> | Hne].
    + rewrite list_lookup_insert_eq by lia. f_equal. lia.
    + rewrite list_lookup_insert_ne by done. apply Hp. lia.
  - rewrite Hl. f_equal. apply list_eq. intros p.
    destruct (decide (Z.of_nat p < n)) as [Hlt | Hge].
    + rewrite Hp by done. by rewrite lookup_seqZ_lt.
    + rewrite lookup_seqZ_ge by lia. apply lookup_ge_None_2. lia.
Qed.

Lemma decode_row_spec (pol : policy) (n : Z) (a route : matrix) (i : Z)
    (ol genes row0 : list Z) :
  0 ≤ i →
  a !! Z.to_nat i = Some genes → in_range n genes → tolerated pol n genes →
  route !! Z.to_nat i = Some row0 → Z.of_nat (length row0) = n →
  Z.of_nat (length ol) = n →
  ∃ ol', decode_row pol n a i (route, ol)
           = Ok (<[Z.to_nat i := decode n genes]> route, ol') ∧
         Z.of_nat (length ol') = n.
Proof.
  intros Hi Ha Hg Htol Hroute Hrow Hol. unfold decode_row.
  rewrite order_list_init by done. simpl.
  pose proof Hg as [Hglen Hgr].
  destruct (for_loop_inv
    (λ j (st : matrix * list Z),
       st.1 = <[Z.to_nat i := (pick_all n (take (Z.to_nat j) genes)).1
                              ++ drop (Z.to_nat j) row0]> route ∧
       st.2 = (pick_all n (take (Z.to_nat j) genes)).2 ++ replicate (Z.to_nat j) 0)
    0 n
    (λ j '(route, order_list),
       k ← mload pol a i j;
       v ← load pol order_list (k - 1);
       route ← mstore route i j v;
       order_list ← copy_array pol order_list n k;
       Ok (route, order_list))
    (route, seqZ 1 n)) as ([route' ol'] & Hl & Hr' & Hol').
  - lia.
  - simpl. unfold pick_all. simpl. rewrite app_nil_r.
    split; [| done]. symmetry. by apply list_insert_id.
  - intros j [rt olj] Hj [Hrt Holj]. simpl in Hrt, Holj.
    destruct (pick_all_take n genes (Z.to_nat j) Hg) as (H1 & H2 & H3); [lia |].
    destruct (lookup_lt_is_Some_2 genes (Z.to_nat j)) as [k Hk]; [lia |].
    pose proof (Hgr _ _ Hk) as Hkr.
    replace (Z.to_nat (j + 1)) with (S (Z.to_nat j)) by lia.
    rewrite (take_S_r genes _ k Hk). unfold pick_all in *. rewrite foldl_app. simpl.
    destruct (foldl pick_step ([], seqZ 1 n) (take (Z.to_nat j) genes)) as [p r].
    simpl in *.
    destruct (lookup_lt_is_Some_2 r (Z.to_nat (k - 1))) as [x Hx]; [lia |].
    rewrite (mload_in pol a i j genes k) by (done || lia). simpl.
    rewrite (load_in pol olj (k - 1) x); [| lia |]; last first.
    { rewrite Holj. rewrite lookup_app_l by lia. done. }
    simpl.
    assert (Hrti : rt !! Z.to_nat i = Some (p ++ drop (Z.to_nat j) row0)).
    { rewrite Hrt. apply list_lookup_insert_eq. by eapply lookup_lt_Some. }
    rewrite (mstore_in rt i j x (p ++ drop (Z.to_nat j) row0)); [| lia | done |];
      last first.
    { rewrite length_app, length_drop. lia. }
    simpl.
    rewrite copy_array_spec; [| | lia |]; first last.
    { destruct (decide (k < n)) as [? | Hkn]; [by left |]. right.
      destruct Htol as [? | Hne]; [done |]. exfalso. apply Hne.
      assert (j = 0) as -> by lia. replace n with k by lia. exact Hk. }
    { rewrite Holj, length_app, length_replicate. lia. }
    simpl. eexists. split; [reflexivity |]. simpl. split.
    + rewrite Hrt, list_insert_insert_eq. f_equal.
      rewrite (list_lookup_total_correct r _ x Hx).
      destruct (lookup_lt_is_Some_2 row0 (Z.to_nat j)) as [y Hy]; [lia |].
      rewrite (drop_S row0 y _ Hy).
      replace (Z.to_nat j) with (length p + 0)%nat at 1 by lia.
      rewrite insert_app_r. simpl. by rewrite <- app_assoc.
    + rewrite Holj. unfold remove_at.
      rewrite replicate_cons_app, app_assoc. f_equal.
      rewrite !delete_take_drop.
      rewrite take_app_le by lia. rewrite drop_app_le by lia.
      by rewrite <- app_assoc.
  - simpl in Hr', Hol'. rewrite Hl. exists ol'. split.
    + do 2 f_equal. rewrite Hr'. f_equal.
      rewrite drop_ge by lia. rewrite app_nil_r.
      rewrite take_ge by lia. done.
    + destruct (pick_all_take n genes (Z.to_nat n) Hg) as (H1 & H2 & H3); [lia |].
      rewrite Hol', length_app, length_replicate. lia.
Qed.

Lemma decoded_upto_start (n : Z) (a route : matrix) :
  0 ≤ n → decoded_upto n a route 0 (route, replicate (Z.to_nat n) 0).
Proof.
  intros Hn. split; [done |]. simpl. rewrite length_replicate. lia.
Qed.

Lemma decoded_upto_row (n : Z) (a route : matrix) (i : Z) (st : matrix * list Z) :
  0 ≤ i < Z.of_nat (length a) → decoded_upto n a route i st →
  st.1 !! Z.to_nat i = route !! Z.to_nat i.
Proof.
  intros Hi [Hrt _]. rewrite Hrt.
  assert (Hlt : length (decode n <$> take (Z.to_nat i) a) = Z.to_nat i).
  { rewrite length_fmap, length_take. lia. }
  rewrite lookup_app_r by lia.
  rewrite Hlt, Nat.sub_diag, lookup_drop, Nat.add_0_r. done.
Qed.

Lemma decoded_upto_step (pol : policy) (n : Z) (a route : matrix) (i : Z)
    (st : matrix * list Z) (genes : list Z) :
  shape n route → 0 ≤ i < Z.of_nat (length a) → Z.of_nat (length a) = POPULATION →
  a !! Z.to_nat i = Some genes → in_range n genes → tolerated pol n genes →
  decoded_upto n a route i st →
  ∃ st', decode_row pol n a i st = Ok st' ∧ decoded_upto n a route (i + 1) st'.
Proof.
  intros [Hrl Hrr] Hi Hal Hg Hin Htol Hst.
  pose proof (decoded_upto_row n a route i st Hi Hst) as Hrow.
  destruct st as [rt ol]. destruct Hst as [Hrt Hol]. cbn [fst snd] in *.
  destruct (lookup_lt_is_Some_2 route (Z.to_nat i)) as [row0 Hrow0]; [lia |].
  assert (Hlt : length (decode n <$> take (Z.to_nat i) a) = Z.to_nat i).
  { rewrite length_fmap, length_take. lia. }
  destruct (decode_row_spec pol n a rt i ol genes row0) as (ol1 & Hd & Hol1);
    try done; try lia.
  - by rewrite Hrow.
  - eapply Forall_lookup_1 in Hrr; eauto.
  - rewrite Hd. eexists. split; [reflexivity |]. split; [| done]. cbn [fst snd].
    rewrite Hrt. replace (Z.to_nat (i + 1)) with (S (Z.to_nat i)) by lia.
    rewrite (take_S_r a _ genes Hg), fmap_app. simpl.
    rewrite (drop_S route row0 _ Hrow0).
    replace (Z.to_nat i) with (length (decode n <$> take (Z.to_nat i) a) + 0)%nat
      at 1 by lia.
    rewrite insert_app_r. simpl. by rewrite <- app_assoc.
Qed.

Lemma order_representation_spec (pol : policy) (n : Z) (a route : matrix) :
  shape n a → shape n route →
  Forall (in_range n) a → Forall (tolerated pol n) a →
  order_representation pol n a route = Ok (decode n <$> a).
Proof.
  intros [Hal _] Hroute Hin Htol. unfold order_representation.
  destruct (for_loop_inv (decoded_upto n a route)
    0 POPULATION (decode_row pol n a) (route, replicate (Z.to_nat n) 0))
    as ([route' ol'] & Hl & Hr' & _).
  - done.
  - apply decoded_upto_start.
    destruct a as [|g a]; [simpl in Hal; unfold POPULATION in Hal; lia |].
    apply Forall_inv in Hin. destruct Hin as [Hin _]. lia.
  - intros i st Hi Hst.
    destruct (lookup_lt_is_Some_2 a (Z.to_nat i)) as [genes Hg]; [lia |].
    eapply decoded_upto_step; eauto; try lia.
    + eapply Forall_lookup_1 in Hin; eauto.
    + eapply Forall_lookup_1 in Htol; eauto.
  - simpl in Hr'. rewrite Hl. simpl. f_equal. rewrite Hr'.
    destruct Hroute as [Hrl _].
    rewrite drop_ge by lia. rewrite app_nil_r. rewrite take_ge by lia. done.
Qed.

(** ** The encoder of the specification against the decoder of the code *)

Lemma rank_spec (x : Z) (remaining : list Z) :
  x ∈ remaining →
  1 ≤ rank x remaining ≤ Z.of_nat (length remaining) ∧
  remaining !! Z.to_nat (rank x remaining - 1) = Some x ∧
  delete (Z.to_nat (rank x remaining - 1)) remaining = remove_label x remaining.
Proof.
  induction remaining as [|y rest IH]; intros Hin.
  - by apply elem_of_nil in Hin.
  - simpl. case_bool_decide as Hxy.
    + subst y. simpl. split; [lia |]. done.
    + apply elem_of_cons in Hin. destruct Hin as [? | Hin]; [done |].
      destruct (IH Hin) as (H1 & H2 & H3).
      replace (Z.to_nat (1 + rank x rest - 1)) with (S (Z.to_nat (rank x rest - 1)))
        by lia.
      simpl. split; [lia |]. split; [done |]. by rewrite H3.
Qed.

Lemma encode_from_length (remaining route : list Z) :
  length (encode_from remaining route) = length route.
Proof.
  revert remaining. induction route as [|x route IH]; intros remaining; simpl;
    [done | by rewrite IH].
Qed.

Lemma encode_from_range (remaining route : list Z) :
  route ≡ₚ remaining →
  ∀ (j : nat) (k : Z), encode_from remaining route !! j = Some k →
    1 ≤ k ≤ Z.of_nat (length remaining) - Z.of_nat j.
Proof.
  revert remaining. induction route as [|x route IH]; intros remaining Hp j k Hk.
  - done.
  - assert (Hin : x ∈ remaining) by (rewrite <- Hp; left).
    destruct (rank_spec x remaining Hin) as (H1 & H2 & H3).
    assert (Hp' : route ≡ₚ remove_label x remaining).
    { rewrite <- H3. apply (Permutation_cons_inv (a := x)).
      rewrite Hp. by apply delete_Permutation. }
    destruct j as [|j]; simpl in Hk.
    + injection Hk as <-. lia.
    + specialize (IH _ Hp' j k Hk).
      rewrite <- H3, length_delete in IH by eauto.
      apply lookup_lt_Some in H2. lia.
Qed.

Lemma encode_in_range (n : Z) (route : list Z) :
  0 ≤ n → route ≡ₚ seqZ 1 n → in_range n (encode n route).
Proof.
  intros Hn Hp. pose proof (Permutation_length Hp) as Hlen.
  rewrite length_seqZ in Hlen. split.
  - unfold encode. rewrite encode_from_length. lia.
  - intros j k Hk. unfold encode in Hk.
    pose proof (encode_from_range _ _ Hp j k Hk) as H.
    rewrite length_seqZ in H.
    apply lookup_lt_Some in Hk. rewrite encode_from_length in Hk. lia.
Qed.

Lemma pick_all_encode_from (acc remaining route : list Z) :
  route ≡ₚ remaining →
  foldl pick_step (acc, remaining) (encode_from remaining route) = (acc ++ route, []).
Proof.
  revert acc remaining. induction route as [|x route IH]; intros acc remaining Hp.
  - apply Permutation_nil_l in Hp. subst. simpl. by rewrite app_nil_r.
  - assert (Hin : x ∈ remaining) by (rewrite <- Hp; left).
    destruct (rank_spec x remaining Hin) as (H1 & H2 & H3).
    assert (Hp' : route ≡ₚ remove_label x remaining).
    { rewrite <- H3. apply (Permutation_cons_inv (a := x)).
      rewrite Hp. by apply delete_Permutation. }
    simpl. unfold pick_step at 2. simpl.
    rewrite (list_lookup_total_correct _ _ _ H2), H3.
    rewrite (IH _ _ Hp'). by rewrite <- app_assoc.
Qed.

Lemma decode_encode (n : Z) (route : list Z) :
  route ≡ₚ seqZ 1 n → decode n (encode n route) = route.
Proof.
  intros Hp. unfold decode, pick_all, encode.
  by rewrite (pick_all_encode_from [] _ _ Hp).
Qed.

(** The converse: encoding the decoded route gives the chromosome back. *)
Lemma pick_step_acc (acc remaining genes : list Z) :
  (foldl pick_step (acc, remaining) genes).1
  = acc ++ (foldl pick_step ([], remaining) genes).1.
Proof.
  revert acc remaining. induction genes as [|k genes IH]; intros acc remaining.
  - simpl. by rewrite app_nil_r.
  - simpl. unfold pick_step at 2 4. simpl.
    rewrite (IH (acc ++ _)), (IH [_]). by rewrite <- app_assoc.
Qed.

Lemma rank_lookup (remaining : list Z) (i : nat) (x : Z) :
  NoDup remaining → remaining !! i = Some x → rank x remaining = Z.of_nat i + 1.
Proof.
  revert i. induction remaining as [|y rest IH]; intros i Hnd Hi; [done |].
  pose proof (NoDup_cons_1_1 _ _ Hnd) as Hy.
  pose proof (NoDup_cons_1_2 _ _ Hnd) as Hnd'.
  destruct i as [|i]; simpl in *.
  - injection Hi as ->. by rewrite bool_decide_eq_true_2.
  - rewrite bool_decide_eq_false_2.
    + rewrite (IH i Hnd' Hi). lia.
    + intros ->. apply Hy. by eapply list_elem_of_lookup_2.
Qed.

Lemma encode_from_pick_all (remaining genes : list Z) :
  NoDup remaining →
  (∀ (j : nat) (k : Z), genes !! j = Some k →
     1 ≤ k ≤ Z.of_nat (length remaining) - Z.of_nat j) →
  encode_from remaining (foldl pick_step ([], remaining) genes).1 = genes.
Proof.
  revert remaining. induction genes as [|k genes IH]; intros remaining Hnd Hr; [done |].
  pose proof (Hr O k eq_refl) as Hk. simpl in Hk.
  destruct (lookup_lt_is_Some_2 remaining (Z.to_nat (k - 1))) as [x Hx]; [lia |].
  simpl. unfold pick_step at 2. simpl.
  rewrite pick_step_acc. simpl.
  rewrite (list_lookup_total_correct _ _ _ Hx).
  assert (Hin : x ∈ remaining) by by eapply list_elem_of_lookup_2.
  destruct (rank_spec x remaining Hin) as (_ & _ & H3).
  rewrite (rank_lookup remaining _ x Hnd Hx) in *.
  replace (Z.of_nat (Z.to_nat (k - 1)) + 1) with k in * by lia.
  f_equal. rewrite <- H3. apply IH.
  - eapply sublist_NoDup; [exact Hnd | apply sublist_delete].
  - intros j k' Hk'. specialize (Hr (S j) k' Hk').
    rewrite length_delete by eauto. lia.
Qed.

Lemma encode_decode (n : Z) (genes : list Z) :
  in_range n genes → encode n (decode n genes) = genes.
Proof.
  intros [Hlen Hr]. unfold encode, decode, pick_all.
  apply encode_from_pick_all; [apply NoDup_seqZ |].
  intros j k Hk. rewrite length_seqZ. specialize (Hr j k Hk). lia.
Qed.

(** ** Checkers for concrete populations *)

Lemma genes_fit_spec (bound : Z) (genes : list Z) :
  genes_fit bound genes = true →
  ∀ (j : nat) (k : Z), genes !! j = Some k → 1 ≤ k ≤ bound - Z.of_nat j.
Proof.
  revert bound. induction genes as [|g genes IH]; intros bound H j k Hk; [done |].
  simpl in H. apply andb_true_iff in H. destruct H as [Hg H].
  apply bool_decide_eq_true in Hg.
  destruct j as [|j]; simpl in Hk.
  - injection Hk as <-. lia.
  - specialize (IH _ H j k Hk). lia.
Qed.

Lemma in_rangeb_spec (n : Z) (genes : list Z) :
  in_rangeb n genes = true → in_range n genes.
Proof.
  intros H. apply andb_true_iff in H. destruct H as [Hl Hf].
  apply bool_decide_eq_true in Hl. split; [done |]. by apply genes_fit_spec.
Qed.

Lemma in_rangeb_all (n : Z) (m : matrix) :
  forallb (in_rangeb n) m = true → Forall (in_range n) m.
Proof.
  induction m as [|g m IH]; intros H; [constructor |].
  simpl in H. apply andb_true_iff in H. destruct H as [Hg H].
  constructor; [by apply in_rangeb_spec | by apply IH].
Qed.

Lemma shapeb_spec (n : Z) (m : matrix) : shapeb n m = true → shape n m.
Proof.
  intros H. apply andb_true_iff in H. destruct H as [Hl Hf].
  apply bool_decide_eq_true in Hl. split; [done |]. clear Hl.
  induction m as [|row m IH]; [constructor |].
  simpl in Hf. apply andb_true_iff in Hf. destruct Hf as [Hrow Hf].
  apply bool_decide_eq_true in Hrow. constructor; [done | by apply IH].
Qed.

(** ** Runs that stop at an access outside an array *)

Lemma for_range_app {St : Type} (c1 c2 : nat) (j step : Z)
    (body : Z → St → outcome St) (s : St) :
  for_range (c1 + c2) j step body s
  = s' ← for_range c1 j step body s;
    for_range c2 (j + step * Z.of_nat c1) step body s'.
Proof.
  revert j s. induction c1 as [|c1 IH]; intros j s.
  - simpl. f_equal. lia.
  - simpl. destruct (body j s) as [s1| | |]; simpl; try done.
    rewrite IH. destruct (for_range c1 (j + step) step body s1); simpl; try done.
    f_equal. lia.
Qed.

Lemma for_loop_stops {St : Type} (I : Z → St → Prop) (lo hi i0 : Z)
    (body : Z → St → outcome St) (s : St) (e : Z) :
  lo ≤ i0 < hi →
  I lo s →
  (∀ j s, lo ≤ j < i0 → I j s → ∃ s', body j s = Ok s' ∧ I (j + 1) s') →
  (∀ s, I i0 s → body i0 s = Oob e) →
  for_loop lo hi body s = Oob e.
Proof.
  intros Hi H0 Hstep Hstop.
  destruct (for_loop_inv I lo i0 body s) as (s1 & Hl & H1); [lia | done | done |].
  unfold for_loop in *.
  replace (Z.to_nat (hi - lo))
    with (Z.to_nat (i0 - lo) + S (Z.to_nat (hi - i0 - 1)))%nat by lia.
  rewrite for_range_app, Hl. simpl.
  replace (lo + 1 * Z.of_nat (Z.to_nat (i0 - lo))) with i0 by lia.
  by rewrite (Hstop s1 H1).
Qed.

Lemma while_loop_stops {St : Type} (I : St → Prop) (measure : St → nat)
    (cond : St → bool) (body : St → outcome (ctl St)) (fuel : nat) (s : St) (e : Z) :
  (∀ s, I s → cond s = true ∧
     (body s = Oob e ∨
      ∃ s', body s = Ok (Next s') ∧ I s' ∧ (measure s' < measure s)%nat)) →
  I s → (measure s < fuel)%nat →
  while_loop fuel cond body s = Oob e.
Proof.
  intros Hstep. revert s. induction fuel as [|f IH]; intros s HI Hm; [lia |].
  destruct (Hstep s HI) as [Hc [Hb | (s' & Hb & HI' & Hlt)]].
  - simpl. by rewrite Hc, Hb.
  - simpl. rewrite Hc, Hb. apply IH; [done | lia].
Qed.

Lemma copy_array_checked_last (a : list Z) (n : Z) :
  Z.of_nat (length a) = n → 1 ≤ n → copy_array Checked a n n = Oob n.
Proof.
  intros Hn H1. unfold copy_array.
  match goal with |- context [while_loop ?f ?c ?b ?s0] =>
    rewrite (while_loop_stops (λ x, 0 ≤ x.1 ≤ n - 1 ∧ x.2 = a)
               (λ x, Z.to_nat (n - 1 - x.1)) c b f s0 n) end.
  - done.
  - intros [i a'] [Hi Ha]. simpl in *. subst a'.
    split; [apply bool_decide_eq_true; lia |].
    case_bool_decide as Heq.
    + left. unfold copy_array_at. replace (i + 1) with n by lia.
      unfold load. rewrite inb_false by lia. done.
    + right. eexists. split; [reflexivity |]. simpl. split; [split; [lia | done] | lia].
  - simpl. split; [lia | done].
  - simpl. lia.
Qed.

Lemma decode_row_checked_last (n : Z) (a route : matrix) (i : Z)
    (ol genes row0 : list Z) :
  1 ≤ n → 0 ≤ i →
  a !! Z.to_nat i = Some genes → in_range n genes → genes !! O = Some n →
  route !! Z.to_nat i = Some row0 → Z.of_nat (length row0) = n →
  Z.of_nat (length ol) = n →
  decode_row Checked n a i (route, ol) = Oob n.
Proof.
  intros Hn Hi Ha [Hlen _] Hg Hroute Hrow Hol. unfold decode_row.
  rewrite order_list_init by done. simpl.
  apply (for_loop_stops (λ _ st, st = (route, seqZ 1 n)) 0 n 0); [lia | done | lia |].
  intros st ->.
  rewrite (mload_in Checked a i 0 genes n) by (done || lia). simpl.
  rewrite (load_in Checked (seqZ 1 n) (n - 1) n); [| lia |]; last first.
  { rewrite lookup_seqZ_lt by lia. f_equal. lia. }
  simpl. rewrite (mstore_in route i 0 n row0) by (done || lia). simpl.
  rewrite copy_array_checked_last; [done | | done].
  rewrite length_seqZ. lia.
Qed.

(** ** The codec: claims *)

(** C2 (codec totality).  For every size [n >= 1] and every population
    whose chromosomes satisfy [1 <= gene[j] <= n - j], whatever the
    load behind the working list brings back, [order_representation]
    ends normally and each route it writes is a permutation of the
    labels [1..n] without duplicates (the route of row [i] is [decode]
    of chromosome [i]). *)
Theorem codec_totality (junk : Z → Z) (n : Z) (a route : matrix) :
  1 ≤ n → shape n a → shape n route → Forall (in_range n) a →
  ∃ route',
    order_representation (Lenient junk) n a route = Ok route' ∧
    shape n route' ∧
    ∀ (i : nat) (genes : list Z), a !! i = Some genes →
      ∃ r, route' !! i = Some r ∧ r = decode n genes ∧
           r ≡ₚ seqZ 1 n ∧ NoDup r.
Proof.
  intros Hn Ha Hroute Hin.
  exists (decode n <$> a). split.
  - apply order_representation_spec; try done.
    apply Forall_forall. intros g _. left. by exists junk.
  - split.
    + destruct Ha as [Hal _]. split; [by rewrite length_fmap |].
      apply Forall_fmap. eapply Forall_weaken; [exact Hin |].
      intros g Hg. simpl. by apply decode_length.
    + intros i genes Hg. exists (decode n genes).
      rewrite list_lookup_fmap, Hg. split; [done |]. split; [done |].
      eapply Forall_lookup_1 in Hin; [| exact Hg].
      split; [by apply decode_permutation | by apply decode_NoDup].
Qed.

Lemma codec_totality_witness :
  ∃ route',
    order_representation (Lenient (λ _, 0)) 3
      (replicate 20 [3; 2; 1]) (replicate 20 [0; 0; 0]) = Ok route' ∧
    shape 3 route' ∧
    ∀ (i : nat) (genes : list Z), replicate 20 [3; 2; 1] !! i = Some genes →
      ∃ r, route' !! i = Some r ∧ r = decode 3 genes ∧
           r ≡ₚ seqZ 1 3 ∧ NoDup r.
Proof.
  apply (codec_totality (λ _, 0) 3 (replicate 20 [3; 2; 1]) (replicate 20 [0; 0; 0])).
  - lia.
  - apply shapeb_spec. vm_compute. reflexivity.
  - apply shapeb_spec. vm_compute. reflexivity.
  - apply in_rangeb_all. vm_compute. reflexivity.
Defined.

(** X3.  With checked loads the decoder ends normally exactly on the
    populations in which no chromosome starts with the gene [n]. *)
Lemma decode_checked_safe (n : Z) (a route : matrix) :
  shape n a → shape n route → Forall (in_range n) a →
  Forall (λ genes, genes !! O ≠ Some n) a →
  order_representation Checked n a route = Ok (decode n <$> a).
Proof.
  intros Ha Hroute Hin Hne. apply order_representation_spec; try done.
  eapply Forall_weaken; [exact Hne |]. intros g Hg. by right.
Qed.

(** C7 (decode index safety).  The claim fails on the code: for every
    size [n >= 1] and every population of structurally valid
    chromosomes one of which has [gene[0] = n], [copy_array] loads
    [order_list[n]], one cell behind the working list of [n] cells, so
    the checked decoder stops at the index [n]. *)
Theorem decode_index_fault (n : Z) (a route : matrix) :
  1 ≤ n → shape n a → shape n route → Forall (in_range n) a →
  Exists (λ genes, genes !! O = Some n) a →
  order_representation Checked n a route = Oob n.
Proof.
  intros Hn Ha Hroute Hin Hex.
  apply Exists_exists in Hex. destruct Hex as (g & Hg & Hgn).
  destruct (list_find_elem_of (λ genes, genes !! O = Some n) a g Hg Hgn)
    as [[i0 g0] Hfind].
  apply list_find_Some in Hfind. destruct Hfind as (Hi0 & Hg0 & Hmin).
  pose proof (lookup_lt_Some _ _ _ Hi0) as Hlt.
  pose proof Ha as [Hal _]. pose proof Hroute as [Hrl Hrr].
  unfold order_representation.
  rewrite (for_loop_stops (decoded_upto n a route) 0 POPULATION (Z.of_nat i0)
             (decode_row Checked n a) _ n); [done | lia | | |].
  - apply decoded_upto_start. lia.
  - intros j st Hj Hst.
    destruct (lookup_lt_is_Some_2 a (Z.to_nat j)) as [genes Hgj]; [lia |].
    eapply decoded_upto_step; eauto; try lia.
    + eapply Forall_lookup_1 in Hin; eauto.
    + right. apply (Hmin (Z.to_nat j) genes Hgj). lia.
  - intros [rt ol] Hst.
    assert (Hi : 0 ≤ Z.of_nat i0 < Z.of_nat (length a)) by lia.
    pose proof (decoded_upto_row n a route (Z.of_nat i0) (rt, ol) Hi Hst) as Hrow.
    destruct Hst as [_ Hol]. simpl in Hrow, Hol.
    destruct (lookup_lt_is_Some_2 route (Z.to_nat (Z.of_nat i0))) as [row0 Hrow0];
      [lia |].
    eapply (decode_row_checked_last n a rt _ ol g0 row0); try done; try lia.
    + by rewrite Nat2Z.id.
    + eapply Forall_lookup_1 in Hin; eauto.
    + by rewrite Hrow.
    + eapply Forall_lookup_1 in Hrr; eauto.
Qed.

Lemma decode_index_fault_witness :
  order_representation Checked 3 (replicate 20 [3; 2; 1]) (replicate 20 [0; 0; 0])
  = Oob 3.
Proof.
  apply (decode_index_fault 3 (replicate 20 [3; 2; 1]) (replicate 20 [0; 0; 0])).
  - lia.
  - apply shapeb_spec. vm_compute. reflexivity.
  - apply shapeb_spec. vm_compute. reflexivity.
  - apply in_rangeb_all. vm_compute. reflexivity.
  - apply Exists_cons_hd. reflexivity.
Defined.

(** C9 (codec round trip).  For every size [n >= 1] and every
    population of permutations of [1..n], the chromosomes [encode]
    gives satisfy the range invariant, and [order_representation]
    decodes them to the very permutations they were made from.  In
    the other direction, [encode] gives every valid chromosome back
    from its decoded route. *)
Theorem codec_round_trip (junk : Z → Z) (n : Z) (perms route : matrix) :
  1 ≤ n → Z.of_nat (length perms) = POPULATION →
  Forall (λ p, p ≡ₚ seqZ 1 n) perms → shape n route →
  Forall (in_range n) (encode n <$> perms) ∧
  order_representation (Lenient junk) n (encode n <$> perms) route = Ok perms ∧
  ∀ genes, in_range n genes → encode n (decode n genes) = genes.
Proof.
  intros Hn Hlen Hperm Hroute.
  assert (Hin : Forall (in_range n) (encode n <$> perms)).
  { apply Forall_fmap. eapply Forall_weaken; [exact Hperm |].
    intros p Hp. simpl. apply encode_in_range; [lia | done]. }
  split; [exact Hin |].
  split; [| intros genes Hg; by apply encode_decode].
  rewrite order_representation_spec; try done.
  - f_equal. rewrite <- list_fmap_compose.
    rewrite <- (list_fmap_id perms) at 2.
    apply Forall_fmap_ext_1. eapply Forall_weaken; [exact Hperm |].
    intros p Hp. simpl. by apply decode_encode.
  - split; [by rewrite length_fmap |].
    eapply Forall_weaken; [exact Hin |]. by intros g [Hg _].
  - apply Forall_forall. intros g _. left. by exists junk.
Qed.

Lemma codec_round_trip_witness :
  Forall (in_range 3) (encode 3 <$> replicate 20 [2; 3; 1]) ∧
  order_representation (Lenient (λ _, 0)) 3 (encode 3 <$> replicate 20 [2; 3; 1])
    (replicate 20 [0; 0; 0]) = Ok (replicate 20 [2; 3; 1]) ∧
  ∀ genes, in_range 3 genes → encode 3 (decode 3 genes) = genes.
Proof.
  apply (codec_round_trip (λ _, 0) 3 (replicate 20 [2; 3; 1]) (replicate 20 [0; 0; 0])).
  - lia.
  - reflexivity.
  - apply Forall_replicate.
    change (seqZ 1 3) with [1; 2; 3].
    apply perm_trans with [2; 1; 3]; [| apply perm_swap].
    apply perm_skip. apply perm_swap.
  - apply shapeb_spec. vm_compute. reflexivity.
Defined.

(** ** Selection *)

Lemma copy_fitness (pol : policy) (a d0 : list Z) :
  Z.of_nat (length a) = POPULATION → Z.of_nat (length d0) = POPULATION →
  for_loop 0 POPULATION (λ i d, v ← load pol a i; store d i v) d0 = Ok a.
Proof.
  intros Ha Hd.
  destruct (for_loop_inv
    (λ i (d : list Z), length d = length a ∧
       ∀ p : nat, Z.of_nat p < i → d !! p = a !! p)
    0 POPULATION (λ i d, v ← load pol a i; store d i v) d0) as (d & Hl & Hlen & Hp).
  - done.
  - split; [lia |]. intros p Hp. lia.
  - intros i d Hi [Hlen Hp].
    destruct (lookup_lt_is_Some_2 a (Z.to_nat i)) as [v Hv]; [lia |].
    rewrite (load_in pol a i v) by (done || lia). simpl.
    rewrite store_in by lia.
    eexists. split; [reflexivity |]. split; [by rewrite length_insert |].
    intros p Hlt. destruct (decide (p = Z.to_nat i)) as [-> | Hne].
    + rewrite list_lookup_insert_eq by lia. done.
    + rewrite list_lookup_insert_ne by done. apply Hp. lia.
  - rewrite Hl. f_equal. apply list_eq. intros p.
    destruct (decide (Z.of_nat p < POPULATION)) as [Hlt | Hge].
    + by apply Hp.
    + rewrite !lookup_ge_None_2; [done | lia | lia].
Qed.

Lemma min_spec (pol : policy) (d : list Z) :
  Z.of_nat (length d) = POPULATION →
  ∃ m, min pol d = Ok m ∧ m ∈ d ∧ ∀ x, x ∈ d → m ≤ x.
Proof.
  intros Hd. unfold min.
  destruct (lookup_lt_is_Some_2 d (Z.to_nat (POPULATION - 1))) as [m0 Hm0];
    [unfold POPULATION in *; lia |].
  rewrite (load_in pol d _ m0) by (done || unfold POPULATION; lia). simpl.
  destruct (for_loop_inv
    (λ i (m : Z), m ∈ d ∧ ∀ (p : nat) x, Z.of_nat p < i → d !! p = Some x → m ≤ x)
    0 POPULATION
    (λ i m, x ← load pol d i; Ok (if bool_decide (m > x) then x else m)) m0)
    as (m & Hl & Hin & Hle).
  - done.
  - split; [by eapply list_elem_of_lookup_2 |]. intros p x Hp. lia.
  - intros i m Hi [Hin Hle].
    destruct (lookup_lt_is_Some_2 d (Z.to_nat i)) as [x Hx]; [lia |].
    rewrite (load_in pol d i x) by (done || lia). simpl.
    eexists. split; [reflexivity |]. split.
    + case_bool_decide; [by eapply list_elem_of_lookup_2 | done].
    + intros p y Hp Hy. destruct (decide (p = Z.to_nat i)) as [-> | Hne].
      * rewrite Hx in Hy. injection Hy as <-. case_bool_decide; lia.
      * assert (m ≤ y) by (apply (Hle p); [lia | done]).
        case_bool_decide; lia.
  - exists m. split; [done |]. split; [done |].
    intros x Hx. apply list_elem_of_lookup_1 in Hx. destruct Hx as [p Hp].
    apply (Hle p); [| done]. apply lookup_lt_Some in Hp. lia.
Qed.

(** The loop that looks for the minimum ends on its last occurrence. *)
Lemma last_index_spec (pol : policy) (d : list Z) (m : Z) (idx0 : option Z) :
  Z.of_nat (length d) = POPULATION → m ∈ d →
  ∃ ix,
    for_loop 0 POPULATION
      (λ j idx, x ← load pol d j; Ok (if bool_decide (x = m) then Some j else idx))
      idx0 = Ok (Some ix) ∧
    0 ≤ ix < POPULATION ∧ d !! Z.to_nat ix = Some m ∧
    ∀ p : nat, ix < Z.of_nat p → d !! p ≠ Some m.
Proof.
  intros Hd Hin.
  destruct (for_loop_inv
    (λ j (idx : option Z),
       (idx = idx0 ∧ ∀ p : nat, Z.of_nat p < j → d !! p ≠ Some m) ∨
       (∃ ix, idx = Some ix ∧ 0 ≤ ix < j ∧ d !! Z.to_nat ix = Some m ∧
              ∀ p : nat, ix < Z.of_nat p < j → d !! p ≠ Some m))
    0 POPULATION
    (λ j idx, x ← load pol d j; Ok (if bool_decide (x = m) then Some j else idx))
    idx0) as (idx & Hl & HI).
  - done.
  - left. split; [done |]. intros p Hp. lia.
  - intros j idx Hj HI.
    destruct (lookup_lt_is_Some_2 d (Z.to_nat j)) as [x Hx]; [lia |].
    rewrite (load_in pol d j x) by (done || lia). simpl.
    eexists. split; [reflexivity |].
    case_bool_decide as Hxm.
    + subst x. right. exists j. split; [done |]. split; [lia |]. split; [done |].
      intros p Hp. lia.
    + destruct HI as [[-> Hno] | (ix & -> & Hix & Hdix & Hno)].
      * left. split; [done |]. intros p Hp.
        destruct (decide (p = Z.to_nat j)) as [-> | Hne]; [congruence |].
        apply Hno. lia.
      * right. exists ix. split; [done |]. split; [lia |]. split; [done |].
        intros p Hp.
        destruct (decide (p = Z.to_nat j)) as [-> | Hne]; [congruence |].
        apply Hno. lia.
  - destruct HI as [[_ Hno] | (ix & -> & Hix & Hdix & Hno)].
    + exfalso. apply list_elem_of_lookup_1 in Hin. destruct Hin as [p Hp].
      apply (Hno p); [| done]. apply lookup_lt_Some in Hp. lia.
    + exists ix. split; [done |]. split; [done |]. split; [done |].
      intros p Hp. destruct (decide (Z.of_nat p < POPULATION)) as [Hlt | Hge].
      * apply Hno. lia.
      * rewrite lookup_ge_None_2 by lia. done.
Qed.

Lemma copy_row (pol : policy) (n : Z) (b c : matrix) (ix i : Z) (brow crow : list Z) :
  0 ≤ ix → b !! Z.to_nat ix = Some brow → Z.of_nat (length brow) = n →
  0 ≤ i → c !! Z.to_nat i = Some crow → Z.of_nat (length crow) = n →
  for_loop 0 n (λ j c, v ← mload pol b ix j; mstore c i j v) c
  = Ok (<[Z.to_nat i := brow]> c).
Proof.
  intros Hix Hb Hbl Hi Hc Hcl.
  destruct (for_loop_inv
    (λ j (c' : matrix),
       c' = <[Z.to_nat i := take (Z.to_nat j) brow ++ drop (Z.to_nat j) crow]> c)
    0 n (λ j c, v ← mload pol b ix j; mstore c i j v) c) as (c' & Hl & Hc').
  - lia.
  - simpl. symmetry. by apply list_insert_id.
  - intros j c' Hj ->.
    destruct (lookup_lt_is_Some_2 brow (Z.to_nat j)) as [v Hv]; [lia |].
    destruct (lookup_lt_is_Some_2 crow (Z.to_nat j)) as [y Hy]; [lia |].
    rewrite (mload_in pol b ix j brow v) by (done || lia). simpl.
    rewrite (mstore_in _ i j v (take (Z.to_nat j) brow ++ drop (Z.to_nat j) crow));
      [| lia | |].
    + eexists. split; [reflexivity |].
      rewrite list_insert_insert_eq. f_equal.
      replace (Z.to_nat (j + 1)) with (S (Z.to_nat j)) by lia.
      rewrite (take_S_r brow _ v Hv), (drop_S crow y _ Hy).
      assert (Hlt : length (take (Z.to_nat j) brow) = Z.to_nat j).
      { rewrite length_take. lia. }
      replace (Z.to_nat j) with (length (take (Z.to_nat j) brow) + 0)%nat at 1 by lia.
      rewrite insert_app_r. simpl. by rewrite <- app_assoc.
    + apply list_lookup_insert_eq. by eapply lookup_lt_Some.
    + rewrite length_app, length_take, length_drop. lia.
  - rewrite Hl, Hc'. do 2 f_equal.
    rewrite take_ge by lia. rewrite drop_ge by lia. by rewrite app_nil_r.
Qed.

Lemma fit_below (a : list Z) (p : Z) :
  Z.of_nat (length a) = POPULATION → Forall (λ v, v < 1000000) a →
  0 ≤ p < POPULATION → fit a p < 1000000.
Proof.
  intros Hlen Hall Hp. unfold fit.
  destruct (lookup_lt_is_Some_2 a (Z.to_nat p)) as [v Hv]; [lia |].
  rewrite (list_lookup_total_correct _ _ _ Hv).
  by eapply (Forall_lookup_1 _ _ _ _ Hall) in Hv.
Qed.

Lemma ranked_step (pol : policy) (a : list Z) (n : Z) (b c : matrix) (i : Z)
    (st : list Z * matrix * option Z * list Z) :
  shape n b → shape n c →
  Z.of_nat (length a) = POPULATION → Forall (λ v, v < 1000000) a →
  0 ≤ i < POPULATION → ranked a b c i st →
  ∃ st', ranking_pass pol n b i st = Ok st' ∧ ranked a b c (i + 1) st'.
Proof.
  intros [Hbl Hbr] [Hcl Hcr] Hal Hsmall Hi Hst.
  destruct st as [[[d c'] idx] picks].
  destruct Hst as (Hlen & Hnd & Hbound & Hdl & Hd & Hc & Hord).
  unfold ranking_pass.
  destruct (min_spec pol d Hdl) as (m & Hmin & Hmin_in & Hmin_le).
  rewrite Hmin. simpl.
  destruct (last_index_spec pol d m idx Hdl Hmin_in) as (ix & Hfind & Hix & Hdix & Hlast).
  rewrite Hfind. simpl.
  assert (Hdp : ∀ p, 0 ≤ p < POPULATION → p ∉ picks → d !! Z.to_nat p = Some (fit a p)).
  { intros p Hp Hnp. rewrite (Hd p Hp). by rewrite decide_False. }
  assert (Hm : m < 1000000).
  { destruct (decide (m < 1000000)) as [? | Hge]; [done |]. exfalso.
    assert (Hall : ∀ p, p ∈ seqZ 0 POPULATION → p ∈ picks).
    { intros p Hp. apply elem_of_seqZ in Hp.
      destruct (decide (p ∈ picks)) as [? | Hnp]; [done |]. exfalso.
      pose proof (fit_below a p Hal Hsmall ltac:(lia)).
      assert (m ≤ fit a p); [| lia].
      apply Hmin_le. eapply list_elem_of_lookup_2. apply Hdp; [lia | done]. }
    apply (NoDup_submseteq _ _ (NoDup_seqZ 0 POPULATION)) in Hall.
    apply submseteq_length in Hall. rewrite length_seqZ in Hall. lia. }
  assert (Hnix : ix ∉ picks).
  { intros Hin. rewrite (Hd ix Hix), decide_True in Hdix by done.
    injection Hdix as Hdix. lia. }
  assert (Hfix : fit a ix = m).
  { rewrite (Hdp ix Hix Hnix) in Hdix. by injection Hdix. }
  destruct (lookup_lt_is_Some_2 b (Z.to_nat ix)) as [brow Hbrow]; [lia |].
  destruct (lookup_lt_is_Some_2 c (Z.to_nat i)) as [crow Hcrow]; [lia |].
  assert (Hrows : length ((λ x, b !!! Z.to_nat x) <$> picks) = Z.to_nat i).
  { rewrite length_fmap. lia. }
  rewrite (copy_row pol n b c' ix i brow crow); try done; try lia; first last.
  { eapply Forall_lookup_1 in Hcr; eauto. }
  { rewrite Hc. rewrite lookup_app_r by lia.
    rewrite Hrows, Nat.sub_diag, lookup_drop, Nat.add_0_r. done. }
  { eapply Forall_lookup_1 in Hbr; eauto. }
  simpl. rewrite store_in by lia. simpl.
  eexists. split; [reflexivity |].
  split; [rewrite length_app; simpl; lia |].
  split.
  { apply NoDup_app. split; [done |]. split; [| apply NoDup_singleton].
    intros x Hx Hx'. apply list_elem_of_singleton in Hx'. by subst x. }
  split.
  { intros x Hx. apply elem_of_app in Hx. destruct Hx as [Hx | Hx]; [by apply Hbound |].
    apply list_elem_of_singleton in Hx. by subst x. }
  split; [by rewrite length_insert |].
  split.
  { intros p Hp. destruct (decide (p = ix)) as [-> | Hne].
    - rewrite list_lookup_insert_eq by lia.
      rewrite decide_True; [done |]. apply elem_of_app. right. by left.
    - rewrite list_lookup_insert_ne by lia. rewrite (Hd p Hp).
      destruct (decide (p ∈ picks)) as [Hin | Hnin].
      + rewrite decide_True; [done |]. apply elem_of_app. by left.
      + rewrite decide_False; [done |]. intros Hin. apply elem_of_app in Hin.
        destruct Hin as [? | Hin]; [done |].
        apply list_elem_of_singleton in Hin. done. }
  split.
  { rewrite Hc, fmap_app. simpl.
    rewrite (list_lookup_total_correct _ _ _ Hbrow).
    replace (Z.to_nat (i + 1)) with (S (Z.to_nat i)) by lia.
    rewrite (drop_S c crow _ Hcrow).
    replace (Z.to_nat i) with (length ((λ x, b !!! Z.to_nat x) <$> picks) + 0)%nat
      at 1 by lia.
    rewrite insert_app_r. simpl. by rewrite <- app_assoc. }
  intros s x Hs p Hp Hnp.
  destruct (decide (s < length picks)%nat) as [Hlt | Hge].
  - rewrite lookup_app_l in Hs by done.
    rewrite take_app_le in Hnp by lia. by eapply Hord.
  - rewrite lookup_app_r in Hs by lia.
    destruct (s - length picks)%nat as [|k] eqn:Hk; [| done].
    simpl in Hs. injection Hs as <-.
    rewrite take_app_ge in Hnp by lia.
    replace (s - length picks)%nat with O in Hnp by lia. simpl in Hnp.
    rewrite app_nil_r in Hnp.
    pose proof (Hdp p Hp Hnp) as Hdpp.
    assert (Hle : m ≤ fit a p).
    { apply Hmin_le. by eapply list_elem_of_lookup_2. }
    unfold ahead. rewrite Hfix.
    destruct (decide (m = fit a p)) as [Heq | Hne]; [| left; lia].
    right. split; [done |].
    destruct (decide (p ≤ ix)) as [? | Hgt]; [done |]. exfalso.
    apply (Hlast (Z.to_nat p)); [lia |]. by rewrite Hdpp, Heq.
Qed.

Lemma ranking_run_spec (pol : policy) (a : list Z) (n : Z) (b c : matrix) :
  shape n b → shape n c →
  Z.of_nat (length a) = POPULATION → Forall (λ v, v < 1000000) a →
  ∃ picks,
    ranking_run pol a n b c = Ok ((λ x, b !!! Z.to_nat x) <$> picks, picks) ∧
    picks ≡ₚ seqZ 0 POPULATION ∧
    ∀ (s t : nat) x y, (s < t)%nat → picks !! s = Some x → picks !! t = Some y →
      ahead a x y ∧ x ≠ y.
Proof.
  intros Hb Hc Hal Hsmall. unfold ranking_run.
  rewrite copy_fitness; [| done | by rewrite length_replicate; lia].
  simpl.
  destruct (for_loop_inv (ranked a b c) 0 POPULATION (ranking_pass pol n b)
              (a, c, None, [])) as ([[[d c'] idx] picks] & Hl & Hst).
  - done.
  - unfold ranked. split; [done |]. split; [constructor |].
    split; [intros x Hx; by apply elem_of_nil in Hx |].
    split; [done |]. split; [| done].
    intros p Hp. rewrite decide_False by (intros Hx; by apply elem_of_nil in Hx).
    unfold fit. apply list_lookup_lookup_total_lt. lia.
  - intros i st Hi Hst. by eapply ranked_step.
  - destruct Hst as (Hlen & Hnd & Hbound & Hdl & Hd & Hc' & Hord).
    rewrite Hl. simpl. exists picks.
    destruct Hc as [Hcl _].
    rewrite Hc', drop_ge, app_nil_r by lia. split; [done |]. split.
    + apply submseteq_length_Permutation.
      * apply NoDup_submseteq; [done |]. intros x Hx. apply elem_of_seqZ.
        specialize (Hbound x Hx). lia.
      * rewrite length_seqZ. lia.
    + intros s t x y Hst Hs Ht.
      assert (Hne : x ≠ y).
      { intros ->. pose proof (NoDup_lookup _ _ _ _ Hnd Hs Ht). lia. }
      split; [| done]. eapply Hord; [exact Hs | |].
      * apply Hbound. by eapply list_elem_of_lookup_2.
      * intros Hin. apply list_elem_of_lookup_1 in Hin. destruct Hin as [k Hk].
        apply lookup_take_Some in Hk. destruct Hk as [Hk Hks].
        pose proof (NoDup_lookup _ _ _ _ Hnd Hk Ht). lia.
Qed.

(** ** Selection: claims *)

Lemma rows_of_all (b : matrix) :
  Z.of_nat (length b) = POPULATION →
  (λ x, b !!! Z.to_nat x) <$> seqZ 0 POPULATION = b.
Proof.
  intros Hb. apply list_eq. intros p. rewrite list_lookup_fmap.
  destruct (decide (Z.of_nat p < POPULATION)) as [Hlt | Hge].
  - rewrite lookup_seqZ_lt by done. simpl.
    replace (Z.to_nat (0 + Z.of_nat p)) with p by lia.
    symmetry. apply list_lookup_lookup_total_lt. lia.
  - rewrite lookup_seqZ_ge by lia. simpl. symmetry. apply lookup_ge_None_2. lia.
Qed.

(** X6.  As long as every fitness is below the mark 1000000 that
    [ranking_selection] writes over a row it has taken, the rows of the
    output are the rows of the input in another order and their fitness
    does not go down along the output. *)
Lemma selection_sorts_below_mark (pol : policy) (a : list Z) (n : Z) (b c : matrix) :
  shape n b → shape n c →
  Z.of_nat (length a) = POPULATION → Forall (λ v, v < 1000000) a →
  ∃ c' picks,
    ranking_run pol a n b c = Ok (c', picks) ∧
    c' = (λ x, b !!! Z.to_nat x) <$> picks ∧
    c' ≡ₚ b ∧
    ∀ (s t : nat) x y, (s < t)%nat → picks !! s = Some x → picks !! t = Some y →
      fit a x ≤ fit a y.
Proof.
  intros Hb Hc Hal Hsmall.
  destruct (ranking_run_spec pol a n b c Hb Hc Hal Hsmall) as (picks & Hrun & Hperm & Hord).
  exists ((λ x, b !!! Z.to_nat x) <$> picks), picks.
  split; [done |]. split; [done |]. split.
  - rewrite Hperm. destruct Hb as [Hbl _]. by rewrite rows_of_all.
  - intros s t x y Hst Hs Ht.
    destruct (Hord s t x y Hst Hs Ht) as [[? | [? _]] _]; lia.
Qed.

(** C4 (selection correctness).  The claim fails on the code for
    fitness values from 1000000 on, the mark written over a row once it
    is taken: with the twenty fitness values 2000000 .. 2000019 the
    marked row 0 is the minimum again in every later pass, and the
    output is twenty copies of input row 0, not a permutation of the
    input rows. *)
Theorem selection_repeats_marked_row :
  let b := [[1; 1; 1]; [1; 2; 1]; [2; 1; 1]; [2; 2; 1]; [3; 1; 1];
            [3; 2; 1]; [1; 1; 1]; [1; 2; 1]; [2; 1; 1]; [2; 2; 1];
            [3; 1; 1]; [3; 2; 1]; [1; 1; 1]; [1; 2; 1]; [2; 1; 1];
            [2; 2; 1]; [3; 1; 1]; [3; 2; 1]; [1; 1; 1]; [1; 2; 1]] in
  let a := seqZ 2000000 20 in
  ranking_run Checked a 3 b (replicate 20 [0; 0; 0])
    = Ok (replicate 20 [1; 1; 1], replicate 20 0) ∧
  ¬ (replicate 20 [1; 1; 1] ≡ₚ b).
Proof.
  split; [vm_compute; reflexivity |].
  intros Hp.
  assert (Hin : [1; 2; 1] ∈ replicate 20 [1; 1; 1]).
  { rewrite Hp. right. left. }
  apply elem_of_replicate in Hin. destruct Hin as [Heq _]. discriminate Heq.
Qed.

(** C6 as stated (ties keep their input order) fails: individuals 0
    and 1 have the same fitness 3, and individual 1 comes out at
    position 2, ahead of individual 0 at position 3. *)
Lemma selection_ties_not_in_input_order :
  let a := [3; 3; 1; 2; 4; 5; 6; 7; 8; 9; 10; 11; 12; 13; 14; 15; 16; 17; 18; 19] in
  ∃ picks,
    ranking_picks Checked a 2 (replicate 20 [1; 1]) (replicate 20 [0; 0]) = Ok picks ∧
    ¬ (∀ (s t : nat) x y, picks !! s = Some x → picks !! t = Some y →
         fit a x = fit a y → x < y → (s < t)%nat).
Proof.
  eexists. split; [vm_compute; reflexivity |].
  intros H. specialize (H 3%nat 2%nat 0 1 eq_refl eq_refl eq_refl).
  lia.
Qed.

(** C6, amended.  With every fitness below 1000000, [ranking_selection]
    ends normally, its output rows are the input rows at the positions
    [picks], a permutation of [0..19], in ascending fitness; ties are
    broken by reverse input order: of two individuals with equal
    fitness the one at the larger input position comes out first.  The
    result is a function of the fitness vector and the population. *)
Theorem selection_ties_reverse_order (pol : policy) (a : list Z) (n : Z) (b c : matrix) :
  shape n b → shape n c →
  Z.of_nat (length a) = POPULATION → Forall (λ v, v < 1000000) a →
  ∃ picks,
    ranking_selection pol a n b c = Ok ((λ x, b !!! Z.to_nat x) <$> picks) ∧
    ranking_picks pol a n b c = Ok picks ∧
    picks ≡ₚ seqZ 0 POPULATION ∧
    (∀ (s t : nat) x y, (s < t)%nat → picks !! s = Some x → picks !! t = Some y →
       fit a x ≤ fit a y) ∧
    (∀ p q, 0 ≤ p < q → q < POPULATION → fit a p = fit a q →
       ∃ s t : nat, picks !! s = Some q ∧ picks !! t = Some p ∧ (s < t)%nat).
Proof.
  intros Hb Hc Hal Hsmall.
  destruct (ranking_run_spec pol a n b c Hb Hc Hal Hsmall) as (picks & Hrun & Hperm & Hord).
  exists picks. unfold ranking_selection, ranking_picks. rewrite Hrun. simpl.
  split; [done |]. split; [done |]. split; [done |]. split.
  - intros s t x y Hst Hs Ht.
    destruct (Hord s t x y Hst Hs Ht) as [[? | [? _]] _]; lia.
  - intros p q Hpq Hq Heq.
    assert (Hp_in : p ∈ picks) by (rewrite Hperm; apply elem_of_seqZ; lia).
    assert (Hq_in : q ∈ picks) by (rewrite Hperm; apply elem_of_seqZ; lia).
    apply list_elem_of_lookup_1 in Hp_in. destruct Hp_in as [t Ht].
    apply list_elem_of_lookup_1 in Hq_in. destruct Hq_in as [s Hs].
    exists s, t. split; [done |]. split; [done |].
    destruct (decide (s < t)%nat) as [? | Hge]; [done |]. exfalso.
    destruct (decide (s = t)) as [-> | Hne].
    + rewrite Hs in Ht. injection Ht as ->. lia.
    + destruct (Hord t s p q ltac:(lia) Ht Hs) as [[? | [_ ?]] _]; lia.
Qed.

Lemma selection_ties_reverse_order_witness :
  let a := [3; 3; 1; 2; 4; 5; 6; 7; 8; 9; 10; 11; 12; 13; 14; 15; 16; 17; 18; 19] in
  let b := replicate 20 [1; 1] in
  ∃ picks,
    ranking_selection Checked a 2 b (replicate 20 [0; 0])
      = Ok ((λ x, b !!! Z.to_nat x) <$> picks) ∧
    ranking_picks Checked a 2 b (replicate 20 [0; 0]) = Ok picks ∧
    picks ≡ₚ seqZ 0 POPULATION ∧
    (∀ (s t : nat) x y, (s < t)%nat → picks !! s = Some x → picks !! t = Some y →
       fit a x ≤ fit a y) ∧
    (∀ p q, 0 ≤ p < q → q < POPULATION → fit a p = fit a q →
       ∃ s t : nat, picks !! s = Some q ∧ picks !! t = Some p ∧ (s < t)%nat).
Proof.
  apply (selection_ties_reverse_order Checked
           [3; 3; 1; 2; 4; 5; 6; 7; 8; 9; 10; 11; 12; 13; 14; 15; 16; 17; 18; 19]
           2 (replicate 20 [1; 1]) (replicate 20 [0; 0])).
  - apply shapeb_spec. vm_compute. reflexivity.
  - apply shapeb_spec. vm_compute. reflexivity.
  - reflexivity.
  - repeat constructor.
Defined.

(** ** Recombination *)

Lemma mload_cell (pol : policy) (n : Z) (m : matrix) (r c : Z) :
  shape n m → 0 ≤ r < POPULATION → 0 ≤ c < n →
  mload pol m r c = Ok (cell m r c).
Proof.
  intros [Hl Hr] Hrr Hc.
  destruct (lookup_lt_is_Some_2 m (Z.to_nat r)) as [row Hrow]; [lia |].
  pose proof (Forall_lookup_1 _ _ _ _ Hr Hrow) as Hlen. simpl in Hlen.
  destruct (lookup_lt_is_Some_2 row (Z.to_nat c)) as [v Hv]; [lia |].
  rewrite (mload_in pol m r c row v) by (done || lia).
  unfold cell.
  by rewrite (list_lookup_total_correct _ _ _ Hrow), (list_lookup_total_correct _ _ _ Hv).
Qed.

Lemma mstore_cell (n : Z) (m : matrix) (r c v : Z) :
  shape n m → 0 ≤ r < POPULATION → 0 ≤ c < n →
  ∃ m', mstore m r c v = Ok m' ∧ shape n m' ∧
        ∀ r' c', 0 ≤ r' → 0 ≤ c' →
          cell m' r' c' = if decide (r' = r ∧ c' = c) then v else cell m r' c'.
Proof.
  intros [Hl Hr] Hrr Hc.
  destruct (lookup_lt_is_Some_2 m (Z.to_nat r)) as [row Hrow]; [lia |].
  pose proof (Forall_lookup_1 _ _ _ _ Hr Hrow) as Hlen. simpl in Hlen.
  rewrite (mstore_in m r c v row) by (done || lia).
  eexists. split; [reflexivity |]. split.
  - split; [by rewrite length_insert |].
    apply Forall_insert; [done |]. by rewrite length_insert.
  - intros r' c' Hr' Hc'. unfold cell.
    destruct (decide (r' = r)) as [-> | Hne].
    + rewrite list_lookup_total_insert_eq by lia.
      rewrite (list_lookup_total_correct _ _ _ Hrow).
      destruct (decide (c' = c)) as [-> | Hnc].
      * rewrite decide_True by done.
        by rewrite list_lookup_total_insert_eq by lia.
      * rewrite decide_False by (intros [_ ?]; done).
        by rewrite list_lookup_total_insert_ne by lia.
    + rewrite decide_False by (intros [? _]; done).
      by rewrite list_lookup_total_insert_ne by lia.
Qed.

Lemma cut_point_ceil (n : Z) : 1 ≤ n → cut_point n = (n + 1) / 2 - 1.
Proof.
  intros Hn. unfold cut_point.
  case_bool_decide; Z.quot_rem_to_equations; Z.div_mod_to_equations; lia.
Qed.

Lemma cut_point_bands (n : Z) :
  1 ≤ n →
  0 ≤ Z.quot (cut_point n) 2 ∧ 0 ≤ cut_point n ∧
  cut_point n + Z.quot (cut_point n) 2 + 1 ≤ n.
Proof.
  intros Hn. rewrite cut_point_ceil by done.
  Z.quot_rem_to_equations; Z.div_mod_to_equations; lia.
Qed.

Lemma pair_crossed_step (pol : policy) (n : Z) (b a0 a : matrix) (i j : Z)
    (r1 r2 : Z) :
  shape n b → 0 ≤ i → i + 1 < POPULATION → 0 ≤ j < n →
  0 ≤ r1 < POPULATION → 0 ≤ r2 < POPULATION →
  cell b r1 j = crossed n b i j → cell b r2 j = crossed n b (i + 1) j →
  pair_crossed n b a0 i j a →
  ∃ a',
    (v ← mload pol b r1 j; a ← mstore a i j v;
     w ← mload pol b r2 j; mstore a (i + 1) j w) = Ok a' ∧
    pair_crossed n b a0 i (j + 1) a'.
Proof.
  intros Hb Hi Hi1 Hj Hr1 Hr2 H1 H2 [Ha Hcell].
  rewrite (mload_cell pol n b r1 j) by (done || lia). simpl.
  destruct (mstore_cell n a i j (cell b r1 j) Ha) as (a1 & Hs1 & Ha1 & Hc1); [lia | lia |].
  rewrite Hs1. simpl.
  rewrite (mload_cell pol n b r2 j) by (done || lia). simpl.
  destruct (mstore_cell n a1 (i + 1) j (cell b r2 j) Ha1) as (a2 & Hs2 & Ha2 & Hc2);
    [lia | lia |].
  rewrite Hs2. exists a2. split; [done |]. split; [done |].
  intros r c Hr Hc. rewrite Hc2, Hc1 by lia. rewrite (Hcell r c Hr Hc).
  repeat case_decide; repeat case_bool_decide; try lia;
    try (destruct_and?; subst; congruence); try done.
Qed.

Lemma crossover_pair (pol : policy) (n : Z) (b a0 : matrix) (i : Z) :
  1 ≤ n → shape n b → shape n a0 → 0 ≤ i → i + 1 < POPULATION → Z.even i = true →
  let point := cut_point n in
  ∃ a',
    (a ← for_loop 0 (Z.quot point 2 + 1)
         (λ j a,
            v ← mload pol b i j; a ← mstore a i j v;
            w ← mload pol b (i + 1) j; mstore a (i + 1) j w) a0;
     a ← for_loop (Z.quot point 2 + 1) (point + Z.quot point 2 + 1)
         (λ j a,
            v ← mload pol b (i + 1) j; a ← mstore a i j v;
            w ← mload pol b i j; mstore a (i + 1) j w) a;
     for_loop (point + Z.quot point 2 + 1) n
         (λ j a,
            v ← mload pol b i j; a ← mstore a i j v;
            w ← mload pol b (i + 1) j; mstore a (i + 1) j w) a) = Ok a' ∧
    pair_crossed n b a0 i n a'.
Proof.
  intros Hn Hb Ha0 Hi Hi1 Hev point.
  destruct (cut_point_bands n Hn) as (Hq & Hp & Hband). fold point in Hq, Hp, Hband.
  assert (Hodd : Z.even (i + 1) = false).
  { rewrite Z.even_add, Hev. done. }
  assert (Hstart : pair_crossed n b a0 i 0 a0).
  { split; [done |]. intros r c Hr Hc. rewrite bool_decide_eq_false_2 by lia. done. }
  destruct (for_loop_inv (pair_crossed n b a0 i) 0 (Z.quot point 2 + 1)
    (λ j a, v ← mload pol b i j; a ← mstore a i j v;
            w ← mload pol b (i + 1) j; mstore a (i + 1) j w) a0)
    as (a1 & Hl1 & H1); [lia | done | |].
  { intros j a Hj Ha. apply pair_crossed_step; try done; try lia.
    - unfold crossed. fold point. rewrite bool_decide_eq_false_2 by lia. done.
    - unfold crossed. fold point. rewrite bool_decide_eq_false_2 by lia. done. }
  rewrite Hl1. simpl.
  destruct (for_loop_inv (pair_crossed n b a0 i)
    (Z.quot point 2 + 1) (point + Z.quot point 2 + 1)
    (λ j a, v ← mload pol b (i + 1) j; a ← mstore a i j v;
            w ← mload pol b i j; mstore a (i + 1) j w) a1)
    as (a2 & Hl2 & H2); [lia | done | |].
  { intros j a Hj Ha. apply pair_crossed_step; try done; try lia.
    - unfold crossed. fold point. rewrite bool_decide_eq_true_2 by lia.
      by rewrite Hev.
    - unfold crossed. fold point. rewrite bool_decide_eq_true_2 by lia.
      rewrite Hodd. f_equal. lia. }
  rewrite Hl2. simpl.
  destruct (for_loop_inv (pair_crossed n b a0 i) (point + Z.quot point 2 + 1) n
    (λ j a, v ← mload pol b i j; a ← mstore a i j v;
            w ← mload pol b (i + 1) j; mstore a (i + 1) j w) a2)
    as (a3 & Hl3 & H3); [lia | done | |].
  { intros j a Hj Ha. apply pair_crossed_step; try done; try lia.
    - unfold crossed. fold point. rewrite bool_decide_eq_false_2 by lia. done.
    - unfold crossed. fold point. rewrite bool_decide_eq_false_2 by lia. done. }
  rewrite Hl3. exists a3. done.
Qed.

Lemma tow_point_crossover_spec (pol : policy) (n : Z) (a b : matrix) :
  1 ≤ n → shape n a → shape n b →
  ∃ a', tow_point_crossover pol n a b = Ok a' ∧ shape n a' ∧
        ∀ r c, 0 ≤ r < POPULATION → 0 ≤ c < n → cell a' r c = crossed n b r c.
Proof.
  intros Hn Ha Hb. unfold tow_point_crossover, for_loop2.
  match goal with |- context [for_range ?cnt ?j ?step ?body ?s] =>
    destruct (for_range_inv
      (λ (m : nat) (a' : matrix), shape n a' ∧
         ∀ r c, 0 ≤ r < POPULATION → 0 ≤ c < n →
           cell a' r c = if bool_decide (r < 2 * Z.of_nat m)
                         then crossed n b r c else cell a r c)
      cnt j step body s) as (a' & Hl & Ha' & Hcell) end.
  - split; [done |]. intros r c Hr Hc. rewrite bool_decide_eq_false_2 by lia. done.
  - intros m a0 Hm [Ha0 Hcell].
    assert (Hm' : (m < 10)%nat) by (vm_compute in Hm; vm_compute; exact Hm).
    replace (0 + 2 * Z.of_nat m) with (2 * Z.of_nat m) by lia.
    destruct (crossover_pair pol n b a0 (2 * Z.of_nat m)) as (a1 & Hl & Ha1 & Hc1);
      try done; try (unfold POPULATION; lia).
    { rewrite Z.even_mul. done. }
    rewrite Hl. exists a1. split; [done |]. split; [done |].
    intros r c Hr Hc. rewrite (Hc1 r c Hr Hc), (Hcell r c Hr Hc).
    repeat case_bool_decide; try lia; done.
  - exists a'. split; [done |]. split; [done |].
    intros r c Hr Hc. rewrite (Hcell r c Hr Hc).
    rewrite bool_decide_eq_true_2; [done |].
    unfold POPULATION in *. vm_compute Z.to_nat. lia.
Qed.

(** C5 (crossover band symmetry).  For every chromosome length
    [n >= 1], with the cut point [p = n/2 - 1] for even [n] and
    [p = ceil(n/2) - 1 = (n+1)/2 - 1] for odd [n], [tow_point_crossover]
    ends normally and, for every pair of rows [(i, i+1)] with [i] even:
    on the outer bands [[0, p/2]] and [(p + p/2, n)] each child has the
    genes of its own parent, and on the middle band [(p/2, p + p/2]]
    child [i] has the genes of parent [i+1] and child [i+1] those of
    parent [i]. *)
Theorem crossover_band_symmetry (pol : policy) (n : Z) (a b : matrix) :
  1 ≤ n → shape n a → shape n b →
  let p := if Z.even n then n / 2 - 1 else (n + 1) / 2 - 1 in
  cut_point n = p ∧
  ∃ a',
    tow_point_crossover pol n a b = Ok a' ∧ shape n a' ∧
    ∀ i j, 0 ≤ i → i + 1 < POPULATION → Z.even i = true → 0 ≤ j < n →
      (j ≤ p / 2 ∨ p + p / 2 < j →
         cell a' i j = cell b i j ∧ cell a' (i + 1) j = cell b (i + 1) j) ∧
      (p / 2 < j ≤ p + p / 2 →
         cell a' i j = cell b (i + 1) j ∧ cell a' (i + 1) j = cell b i j).
Proof.
  intros Hn Ha Hb p.
  assert (Hp : cut_point n = p).
  { rewrite cut_point_ceil by done. unfold p.
    destruct (Z.even n) eqn:He; [| done].
    apply Zeven_bool_iff in He. destruct (Zeven_ex n He) as [k ->].
    Z.div_mod_to_equations; lia. }
  split; [done |].
  destruct (tow_point_crossover_spec pol n a b Hn Ha Hb) as (a' & Hrun & Ha' & Hcell).
  exists a'. split; [done |]. split; [done |].
  intros i j Hi Hi1 Hev Hj.
  assert (Hodd : Z.even (i + 1) = false) by (rewrite Z.even_add, Hev; done).
  assert (Hq : Z.quot p 2 = p / 2).
  { destruct (cut_point_bands n Hn) as (_ & Hp0 & _). rewrite Hp in Hp0.
    apply Z.quot_div_nonneg; lia. }
  rewrite !Hcell by lia. unfold crossed. rewrite Hp, Hq, Hev, Hodd.
  replace (i + 1 - 1) with i by lia.
  split; intros Hband.
  - rewrite !bool_decide_eq_false_2 by lia. done.
  - rewrite !bool_decide_eq_true_2 by lia. done.
Qed.

Lemma crossover_band_symmetry_witness :
  let a := replicate 20 [0; 0; 0; 0; 0] in
  let b := [[1; 1; 1; 1; 1]; [5; 4; 3; 2; 1]; [1; 1; 1; 1; 1]; [5; 4; 3; 2; 1];
            [1; 1; 1; 1; 1]; [5; 4; 3; 2; 1]; [1; 1; 1; 1; 1]; [5; 4; 3; 2; 1];
            [1; 1; 1; 1; 1]; [5; 4; 3; 2; 1]; [1; 1; 1; 1; 1]; [5; 4; 3; 2; 1];
            [1; 1; 1; 1; 1]; [5; 4; 3; 2; 1]; [1; 1; 1; 1; 1]; [5; 4; 3; 2; 1];
            [1; 1; 1; 1; 1]; [5; 4; 3; 2; 1]; [1; 1; 1; 1; 1]; [5; 4; 3; 2; 1]] in
  let p := if Z.even 5 then 5 / 2 - 1 else (5 + 1) / 2 - 1 in
  cut_point 5 = p ∧
  ∃ a',
    tow_point_crossover Checked 5 a b = Ok a' ∧ shape 5 a' ∧
    ∀ i j, 0 ≤ i → i + 1 < POPULATION → Z.even i = true → 0 ≤ j < 5 →
      (j ≤ p / 2 ∨ p + p / 2 < j →
         cell a' i j = cell b i j ∧ cell a' (i + 1) j = cell b (i + 1) j) ∧
      (p / 2 < j ≤ p + p / 2 →
         cell a' i j = cell b (i + 1) j ∧ cell a' (i + 1) j = cell b i j).
Proof.
  intros a b. apply (crossover_band_symmetry Checked 5 a b).
  - lia.
  - apply shapeb_spec. vm_compute. reflexivity.
  - apply shapeb_spec. vm_compute. reflexivity.
Defined.

(** ** Mutation *)

Lemma mutation_point_ceil (n : Z) : 1 ≤ n → mutation_point n = (n + 1) / 2.
Proof.
  intros Hn. unfold mutation_point.
  case_bool_decide; Z.quot_rem_to_equations; Z.div_mod_to_equations; lia.
Qed.

(** X13.  The marker of the branch [r <= POPULATION/2] falls outside the
    chromosome exactly for the sizes up to 21. *)
Lemma tail_marker_outside_iff (n : Z) :
  1 ≤ n → (n ≤ mutation_point n + 10 ↔ n ≤ 21).
Proof.
  intros Hn. rewrite mutation_point_ceil by done.
  split; intros H; Z.div_mod_to_equations; lia.
Qed.

Lemma mutation_target_range (rv : Z) :
  0 ≤ rv → 1 ≤ mutation_target rv < POPULATION.
Proof.
  intros Hrv. unfold mutation_target, POPULATION.
  Z.quot_rem_to_equations. lia.
Qed.

Lemma ones_run (n : Z) (a : matrix) (r lo hi : Z) :
  shape n a → 0 ≤ r < POPULATION → 0 ≤ lo → hi ≤ n →
  ∃ a', for_loop lo hi (λ i a, mstore a r i 1) a = Ok a' ∧ shape n a' ∧
        ∀ r' c', 0 ≤ r' → 0 ≤ c' →
          cell a' r' c' = if bool_decide (r' = r ∧ lo ≤ c' < hi) then 1 else cell a r' c'.
Proof.
  intros Ha Hr Hlo Hhi.
  destruct (decide (lo ≤ hi)) as [Hle | Hgt].
  - destruct (for_loop_inv
      (λ j (a' : matrix), shape n a' ∧
         ∀ r' c', 0 ≤ r' → 0 ≤ c' →
           cell a' r' c' = if bool_decide (r' = r ∧ lo ≤ c' < j) then 1 else cell a r' c')
      lo hi (λ i a, mstore a r i 1) a) as (a' & Hl & Ha' & Hc); [done | | |].
    + split; [done |]. intros r' c' _ _. rewrite bool_decide_eq_false_2 by lia. done.
    + intros j a0 Hj [Ha0 Hc0].
      destruct (mstore_cell n a0 r j 1 Ha0) as (a1 & Hs & Ha1 & Hc1); [lia | lia |].
      exists a1. split; [done |]. split; [done |].
      intros r' c' Hr' Hc'. rewrite (Hc1 r' c' Hr' Hc'), (Hc0 r' c' Hr' Hc').
      case_decide; repeat case_bool_decide; try lia; done.
    + exists a'. done.
  - rewrite for_loop_empty by lia. exists a. split; [done |]. split; [done |].
    intros r' c' _ _. rewrite bool_decide_eq_false_2 by lia. done.
Qed.

(** C10 (mutation writes outside the chromosome).  Let [n >= 1],
    [rand()] have returned [rv >= 0], and the individual
    [r = rv % 19 + 1] be at most [POPULATION/2].  The marker goes to
    column [point + 10] with [point = ceil(n/2)]; whenever
    [ceil(n/2) + 10 >= n] that column is outside [[0, n)] and the
    checked store stops the run there.  For [n <= 10] the loop that
    writes the ones has no pass, so the marker is the only store. *)
Theorem mutation_marker_outside (n : Z) (a : matrix) (rv : Z) :
  1 ≤ n → shape n a → 0 ≤ rv →
  mutation_target rv ≤ Z.quot POPULATION 2 →
  n ≤ (n + 1) / 2 + 10 →
  mutation_point n = (n + 1) / 2 ∧
  ¬ (0 ≤ mutation_point n + 10 < n) ∧
  mutation n a rv = Oob (mutation_point n + 10) ∧
  (n ≤ 10 → mutation_tail_ones n a (mutation_target rv) = Ok a).
Proof.
  intros Hn Ha Hrv Htail Hout.
  pose proof (mutation_point_ceil n Hn) as Hpt.
  pose proof (mutation_target_range rv Hrv) as Hr.
  split; [done |]. split; [lia |]. split.
  - unfold mutation. rewrite bool_decide_eq_false_2 by lia.
    unfold mutation_tail_ones.
    destruct (ones_run n a (mutation_target rv) (mutation_point n) (n - 10))
      as (a' & Hl & [Hal Har] & _); [done | lia | | lia |].
    { rewrite Hpt. Z.div_mod_to_equations; lia. }
    rewrite Hl. simpl. unfold mstore.
    rewrite inb_true by lia.
    destruct (lookup_lt_is_Some_2 a' (Z.to_nat (mutation_target rv))) as [row Hrow];
      [lia |].
    rewrite Hrow. unfold store.
    pose proof (Forall_lookup_1 _ _ _ _ Har Hrow) as Hlen. simpl in Hlen.
    rewrite inb_false by lia. done.
  - intros Hsmall. unfold mutation_tail_ones. apply for_loop_empty.
    rewrite Hpt. Z.div_mod_to_equations; lia.
Qed.

Lemma mutation_marker_outside_witness :
  mutation_point 10 = (10 + 1) / 2 ∧
  ¬ (0 ≤ mutation_point 10 + 10 < 10) ∧
  mutation 10 (replicate 20 (replicate 10 1)) 4 = Oob (mutation_point 10 + 10) ∧
  (10 ≤ 10 → mutation_tail_ones 10 (replicate 20 (replicate 10 1)) (mutation_target 4)
             = Ok (replicate 20 (replicate 10 1))).
Proof.
  apply (mutation_marker_outside 10 (replicate 20 (replicate 10 1)) 4).
  - lia.
  - apply shapeb_spec. vm_compute. reflexivity.
  - lia.
  - vm_compute. discriminate.
  - vm_compute. discriminate.
Defined.

Lemma cell_lookup (n : Z) (m : matrix) (r c : Z) :
  shape n m → 0 ≤ r < POPULATION → 0 ≤ c < n →
  ∃ row, m !! Z.to_nat r = Some row ∧ Z.of_nat (length row) = n ∧
         row !! Z.to_nat c = Some (cell m r c).
Proof.
  intros [Hl Hr] Hrr Hc.
  destruct (lookup_lt_is_Some_2 m (Z.to_nat r)) as [row Hrow]; [lia |].
  pose proof (Forall_lookup_1 _ _ _ _ Hr Hrow) as Hlen. simpl in Hlen.
  exists row. split; [done |]. split; [done |].
  unfold cell. rewrite (list_lookup_total_correct _ _ _ Hrow).
  apply list_lookup_lookup_total_lt. lia.
Qed.

(** The branch [r > POPULATION/2]: ones on the columns before
    [point], the marker 2 at [point]. *)
Lemma mutation_head (n : Z) (a : matrix) (rv : Z) :
  2 ≤ n → shape n a → 0 ≤ rv → mutation_target rv > Z.quot POPULATION 2 →
  ∃ a', mutation n a rv = Ok a' ∧ shape n a' ∧
        cell a' (mutation_target rv) (mutation_point n) = 2.
Proof.
  intros Hn Ha Hrv Hhead.
  pose proof (mutation_point_ceil n ltac:(lia)) as Hpt.
  pose proof (mutation_target_range rv Hrv) as Hr.
  assert (Hin : 0 ≤ mutation_point n < n).
  { rewrite Hpt. Z.div_mod_to_equations; lia. }
  unfold mutation. rewrite bool_decide_eq_true_2 by done.
  destruct (ones_run n a (mutation_target rv) 0 (mutation_point n))
    as (a1 & Hl & Ha1 & _); [done | lia | lia | lia |].
  rewrite Hl. simpl.
  destruct (mstore_cell n a1 (mutation_target rv) (mutation_point n) 2 Ha1)
    as (a2 & Hs & Ha2 & Hc); [lia | lia |].
  exists a2. split; [done |]. split; [done |].
  rewrite Hc by lia. by rewrite decide_True.
Qed.

(** The branch [r <= POPULATION/2] when the marker falls inside the
    chromosome. *)
Lemma mutation_tail (n : Z) (a : matrix) (rv : Z) :
  22 ≤ n → shape n a → 0 ≤ rv → mutation_target rv ≤ Z.quot POPULATION 2 →
  ∃ a', mutation n a rv = Ok a' ∧ shape n a' ∧
        cell a' (mutation_target rv) (mutation_point n + 10) = 2.
Proof.
  intros Hn Ha Hrv Htail.
  pose proof (mutation_point_ceil n ltac:(lia)) as Hpt.
  pose proof (mutation_target_range rv Hrv) as Hr.
  assert (Hin : 0 ≤ mutation_point n ∧ mutation_point n + 10 < n).
  { rewrite Hpt. Z.div_mod_to_equations; lia. }
  unfold mutation. rewrite bool_decide_eq_false_2 by lia.
  unfold mutation_tail_ones.
  destruct (ones_run n a (mutation_target rv) (mutation_point n) (n - 10))
    as (a1 & Hl & Ha1 & _); [done | lia | lia | lia |].
  rewrite Hl. simpl.
  destruct (mstore_cell n a1 (mutation_target rv) (mutation_point n + 10) 2 Ha1)
    as (a2 & Hs & Ha2 & Hc); [lia | lia |].
  exists a2. split; [done |]. split; [done |].
  rewrite Hc by lia. by rewrite decide_True.
Qed.

(** X12.  For the sizes 2, 3, 22 and 23 the marker 2 lands on a column whose
    gene may only be 1: the mutated chromosome leaves the range
    invariant, whatever the population was. *)
Lemma mutation_breaks_range (n : Z) (a : matrix) (rv : Z) :
  shape n a → 0 ≤ rv →
  (2 ≤ n ≤ 3 ∧ mutation_target rv > Z.quot POPULATION 2) ∨
  (22 ≤ n ≤ 23 ∧ mutation_target rv ≤ Z.quot POPULATION 2) →
  ∃ a' row, mutation n a rv = Ok a' ∧
            a' !! Z.to_nat (mutation_target rv) = Some row ∧ ¬ in_range n row.
Proof.
  intros Ha Hrv Hcase.
  pose proof (mutation_target_range rv Hrv) as Hr.
  assert (Hpt : mutation_point n = (n + 1) / 2).
  { apply mutation_point_ceil. lia. }
  assert (∃ a' col, mutation n a rv = Ok a' ∧ shape n a' ∧ 0 ≤ col < n ∧
                    n - col < 2 ∧ cell a' (mutation_target rv) col = 2)
    as (a' & col & Hrun & Ha' & Hcol & Hlate & Hcell).
  { destruct Hcase as [[Hn Hhead] | [Hn Htail]].
    - destruct (mutation_head n a rv) as (a' & Hrun & Ha' & Hc); try done; try lia.
      exists a', (mutation_point n). rewrite Hpt in *.
      split; [done |]. split; [done |].
      split; [Z.div_mod_to_equations; lia |].
      split; [Z.div_mod_to_equations; lia | done].
    - destruct (mutation_tail n a rv) as (a' & Hrun & Ha' & Hc); try done; try lia.
      exists a', (mutation_point n + 10). rewrite Hpt in *.
      split; [done |]. split; [done |].
      split; [Z.div_mod_to_equations; lia |].
      split; [Z.div_mod_to_equations; lia | done]. }
  destruct (cell_lookup n a' (mutation_target rv) col Ha') as (row & Hrow & Hlen & Hc);
    [lia | lia |].
  exists a', row. split; [done |]. split; [done |].
  intros [_ Hrange]. specialize (Hrange _ _ Hc). rewrite Hcell in Hrange. lia.
Qed.

(** ** One generation *)

(** C3 (range invariant over a generation).  The claim fails on the
    code.  With [n = 3] and a population of valid chromosomes, a
    generation in which both draws agree ([r1 = r2 = 0]) and [rand()]
    then returns 10 mutates individual 11: its genes 0 and 1 become 1
    and the marker 2 is stored at gene 2, where only 1 is allowed.  The
    population still has 20 chromosomes, but chromosome 11 is outside
    the range invariant. *)
Theorem generation_breaks_range :
  let w := {| rand := draws [(2%nat, 10)]; cpu_time := seconds;
              stack_words := replicate 20 [0; 0; 0] |} in
  let s0 := {| gene := replicate 20 [2; 1; 1]; route := replicate 20 [0; 0; 0];
               fitness := replicate 20 0; gene_tmp := replicate 20 [0; 0; 0];
               rand_calls := 0; time_calls := 0 |} in
  forallb (in_rangeb 3) (gene s0) = true ∧
  ∃ s1, generation Checked w line3 3 s0 = Ok s1 ∧
        Z.of_nat (length (gene s1)) = POPULATION ∧
        gene s1 !! 11%nat = Some [1; 1; 2] ∧
        ¬ in_range 3 [1; 1; 2].
Proof.
  split; [vm_compute; reflexivity |].
  eexists. split; [vm_compute; reflexivity |].
  split; [reflexivity |]. split; [reflexivity |].
  intros [_ H]. specialize (H 2%nat 2 eq_refl). lia.
Qed.

(** ** The search loop *)

(** C1 (monotonic elitism).  The claim is right and the code misses
    it: the loop never looks at [vdata->bestsol], and after the loop
    the record is overwritten with the decoded first row of [gene_tmp]
    of the last generation.  On the rectangle instance the record is
    the identity tour [0,1,2,3] of cost 14 when the loop starts, the
    identity chromosome is row 0 of the first generation and is
    evaluated at 14 there, and after two generations the tour emitted
    is [1,0,2,3] of cost 16: the cost of the record went up. *)
Theorem search_forgets_best :
  let w := {| rand := λ pos, if (pos <? 80)%nat then draws [(0%nat, 1); (1%nat, 1)] (pos mod 4)
                             else draws [(81%nat, 1); (83%nat, 1)] pos;
              cpu_time := seconds; stack_words := replicate 20 [0; 0; 0; 0] |} in
  let v := {| starttime := 0%Q; bestsol := [0; 0; 0; 0] |} in
  (∃ s0 s1,
     search_start w rect4 v = Ok (s0, [0; 1; 2; 3]) ∧
     gene s0 !! 0%nat = Some [1; 1; 1; 1] ∧
     generation Checked w rect4 4 s0 = Ok s1 ∧
     fitness s1 !! 0%nat = Some 14) ∧
  is_feasible Checked rect4 [0; 1; 2; 3] = Ok 1 ∧
  compute_cost Checked rect4 [0; 1; 2; 3] = Ok 14 ∧
  genetic_algorithm Checked w 2 2 rect4 v
    = Ok {| starttime := 0%Q; bestsol := [1; 0; 2; 3] |} ∧
  is_feasible Checked rect4 [1; 0; 2; 3] = Ok 1 ∧
  compute_cost Checked rect4 [1; 0; 2; 3] = Ok 16.
Proof.
  split.
  { eexists. eexists. split; [vm_compute; reflexivity |].
    split; [reflexivity |]. split; [vm_compute; reflexivity |]. reflexivity. }
  repeat split; vm_compute; reflexivity.
Qed.

(** C8 (termination with a feasible result).  The claim is right and
    the code misses it.  On three nodes that all have to be visited,
    with a time limit of 2 seconds: the first generation ends with a
    mutation of individual 11 ([r1 = r2], then [rand()] returns 10),
    whose chromosome becomes [1,1,2]; it decodes to the labels
    [1,2,0], that is the tour [0,1,-1] of two nodes, the cheapest of
    the second generation; the loop ends and this tour is emitted.
    [is_feasible] rejects it. *)
Theorem search_emits_infeasible_tour :
  let w := {| rand := draws [(62%nat, 10); (64%nat, 1)]; cpu_time := seconds;
              stack_words := replicate 20 [0; 0; 0] |} in
  let v := {| starttime := 0%Q; bestsol := [0; 0; 0] |} in
  genetic_algorithm Checked w 2 2 line3 v
    = Ok {| starttime := 0%Q; bestsol := [0; 1; -1] |} ∧
  is_feasible Checked line3 [0; 1; -1] = Ok 0 ∧
  is_feasible Checked line3 [0; 1; 2] = Ok 1.
Proof.
  repeat split; vm_compute; reflexivity.
Qed.

(** With the time limit 0 the loop has no pass, [gene_tmp] is never
    written, and the tour emitted is decoded from whatever the stack
    holds there; the identity tour stored before the loop is lost. *)
Lemma search_without_generation :
  let w := {| rand := draws []; cpu_time := seconds;
              stack_words := replicate 20 [2; 2; 2; 2] |} in
  let v := {| starttime := 0%Q; bestsol := [0; 0; 0; 0] |} in
  genetic_algorithm Checked w 0 0 rect4 v
    = Ok {| starttime := 0%Q; bestsol := [1; 2; 3; -1] |} ∧
  is_feasible Checked rect4 [1; 2; 3; -1] = Ok 0.
Proof.
  repeat split; vm_compute; reflexivity.
Qed.

(** ** The loops end *)

Lemma fueled_bind {A B : Type} (m : outcome A) (f : A → outcome B) :
  fueled m → (∀ x, m = Ok x → fueled (f x)) → fueled (m ≫= f).
Proof.
  intros Hm Hf. destruct m as [x| | |]; simpl; try done. by apply Hf.
Qed.

Lemma fueled_for_range {St : Type} (cnt : nat) (j step : Z)
    (body : Z → St → outcome St) (s : St) :
  (∀ j s, fueled (body j s)) → fueled (for_range cnt j step body s).
Proof.
  intros Hb. revert j s. induction cnt as [|c IH]; intros j s; [done |].
  simpl. apply fueled_bind; [apply Hb | intros; apply IH].
Qed.

Lemma fueled_for_loop {St : Type} (lo hi : Z) (body : Z → St → outcome St) (s : St) :
  (∀ j s, fueled (body j s)) → fueled (for_loop lo hi body s).
Proof. apply fueled_for_range. Qed.

(** What holds of the state a loop ends with. *)
Lemma while_loop_post {St : Type} (I : St → Prop) (cond : St → bool)
    (body : St → outcome (ctl St)) (fuel : nat) (s s' : St) :
  (∀ s c, I s → cond s = true → body s = Ok c →
     match c with Next s1 => I s1 | Break s1 => I s1 end) →
  I s → while_loop fuel cond body s = Ok s' → I s'.
Proof.
  intros Hstep. revert s. induction fuel as [|f IH]; intros s HI Hw; simpl in Hw.
  - destruct (cond s); [done |]. by injection Hw as <-.
  - destruct (cond s) eqn:Hc; [| by injection Hw as <-].
    destruct (body s) as [[s1 | s1]| | |] eqn:Hb; try done.
    + apply (IH s1); [| done]. by apply (Hstep s (Next s1)).
    + injection Hw as <-. by apply (Hstep s (Break s1)).
Qed.

(** A loop whose passes bring [measure] down has fuel enough when it
    is given [measure] of its first state. *)
Lemma fueled_while_loop {St : Type} (I : St → Prop) (measure : St → nat)
    (cond : St → bool) (body : St → outcome (ctl St)) (fuel : nat) (s : St) :
  (∀ s, I s → cond s = true →
     (0 < measure s)%nat ∧ fueled (body s) ∧
     ∀ s', body s = Ok (Next s') → I s' ∧ (measure s' < measure s)%nat) →
  I s → (measure s ≤ fuel)%nat → fueled (while_loop fuel cond body s).
Proof.
  intros Hstep. revert s. induction fuel as [|f IH]; intros s HI Hm; simpl.
  - destruct (cond s) eqn:Hc; [| done].
    destruct (Hstep s HI Hc) as (Hpos & _). lia.
  - destruct (cond s) eqn:Hc; [| done].
    destruct (Hstep s HI Hc) as (_ & Hb & Hnext).
    destruct (body s) as [[s1 | s1]| | |] eqn:Heq; try done.
    destruct (Hnext s1 eq_refl) as [HI1 Hlt]. apply IH; [done | lia].
Qed.

Lemma fueled_load (pol : policy) (a : list Z) (i : Z) : fueled (load pol a i).
Proof.
  unfold load, stray. destruct (inb a i); [by destruct (a !! Z.to_nat i) |].
  by destruct pol.
Qed.

Lemma fueled_store (a : list Z) (i v : Z) : fueled (store a i v).
Proof. unfold store. by destruct (inb a i). Qed.

Lemma fueled_mload (pol : policy) (m : matrix) (r c : Z) : fueled (mload pol m r c).
Proof.
  unfold mload, stray. destruct (inb m r).
  - destruct (m !! Z.to_nat r); [apply fueled_load | done].
  - by destruct pol.
Qed.

Lemma fueled_mstore (m : matrix) (r c v : Z) : fueled (mstore m r c v).
Proof.
  unfold mstore. destruct (inb m r); [| done].
  destruct (m !! Z.to_nat r); [| done].
  apply fueled_bind; [apply fueled_store | done].
Qed.

Lemma fueled_dist (pol : policy) (t : TSPdata) (k l : Z) : fueled (dist pol t k l).
Proof. unfold dist. destruct (_ && _); [done |]. by destruct pol. Qed.

Lemma copy_array_at_next (pol : policy) (n j i i2 : Z) (a a2 : list Z) :
  copy_array_at pol n j i a = Ok (Next (i2, a2)) → j < i2.
Proof.
  unfold copy_array_at. intros H.
  destruct (load pol a (i + 1)) as [v| | |]; simpl in H; try done.
  destruct (store a i v) as [a1| | |]; simpl in H; try done.
  match type of H with context [while_loop ?f ?c ?b ?s0] =>
    destruct (while_loop f c b s0) as [[i' a'] | | |] eqn:Hw end; simpl in H; try done.
  apply (while_loop_post (λ x, j ≤ x.1)) in Hw; simpl in *; [| | lia].
  - destruct (store a' (n - 1) 0); simpl in H; try done.
    injection H as <- _. lia.
  - intros [i0 a0] c Hi0 _ Hb. simpl in *.
    destruct (load pol a0 (i0 + 1)) as [v0| | |]; simpl in Hb; try done.
    destruct (store a0 i0 v0); simpl in Hb; try done.
    injection Hb as <-. simpl. lia.
Qed.

Lemma fueled_copy_array_at (pol : policy) (n j i : Z) (a : list Z) :
  0 ≤ i → i = j - 1 → fueled (copy_array_at pol n j i a).
Proof.
  intros Hi Hj. unfold copy_array_at.
  apply fueled_bind; [apply fueled_load | intros v _].
  apply fueled_bind; [apply fueled_store | intros a1 _].
  apply fueled_bind.
  - apply (fueled_while_loop (λ x, j ≤ x.1) (λ x, Z.to_nat (n - 1 - x.1)));
      [| simpl; lia | simpl; lia].
    intros [i0 a0] Hi0 Hc. simpl in *. apply bool_decide_eq_true in Hc.
    split; [lia |]. split.
    + apply fueled_bind; [apply fueled_load | intros v0 _].
      apply fueled_bind; [apply fueled_store | done].
    + intros [i1 a3] Hb.
      destruct (load pol a0 (i0 + 1)) as [v0| | |]; simpl in Hb; try done.
      destruct (store a0 i0 v0); simpl in Hb; try done.
      injection Hb as <- <-. simpl. lia.
  - intros [i' a'] _. apply fueled_bind; [apply fueled_store | done].
Qed.

Lemma fueled_copy_array (pol : policy) (a : list Z) (n j : Z) :
  fueled (copy_array pol a n j).
Proof.
  unfold copy_array. apply fueled_bind; [| by intros [? ?] _].
  apply (fueled_while_loop (λ x, 0 ≤ x.1) (λ x, Z.to_nat (n - x.1)));
    [| simpl; lia | simpl; lia].
  intros [i a0] Hi Hc. simpl in *. apply bool_decide_eq_true in Hc.
  split; [lia |]. case_bool_decide as Heq.
  - split; [by apply fueled_copy_array_at |].
    intros [i2 a2] Hb. apply copy_array_at_next in Hb. simpl. lia.
  - split; [done |]. intros s' Hb. injection Hb as <-. simpl. lia.
Qed.

Lemma fueled_order_representation (pol : policy) (n : Z) (a route : matrix) :
  fueled (order_representation pol n a route).
Proof.
  unfold order_representation. apply fueled_bind; [| by intros [? ?] _].
  apply fueled_for_loop. intros i [rt ol]. unfold decode_row.
  apply fueled_bind.
  { apply fueled_for_loop. intros. apply fueled_store. }
  intros ol1 _. apply fueled_for_loop. intros j [rt1 ol2].
  apply fueled_bind; [apply fueled_mload | intros k _].
  apply fueled_bind; [apply fueled_load | intros v _].
  apply fueled_bind; [apply fueled_mstore | intros rt2 _].
  apply fueled_bind; [apply fueled_copy_array | done].
Qed.

Lemma fueled_compute_cost (pol : policy) (t : TSPdata) (tour : list Z) :
  fueled (compute_cost pol t tour).
Proof.
  unfold compute_cost. apply fueled_bind.
  - apply (fueled_while_loop (λ x, 0 ≤ x.1) (λ x, Z.to_nat (tsp_n t - 1 - x.1)));
      [| simpl; lia | simpl; lia].
    intros [k cost] Hk Hc. simpl in *. apply bool_decide_eq_true in Hc.
    split; [lia |]. split.
    + apply fueled_bind; [apply fueled_load | intros t1 _].
      case_bool_decide; [done |].
      apply fueled_bind; [apply fueled_load | intros t0 _].
      apply fueled_bind; [apply fueled_dist | done].
    + intros [k' cost'] Hb.
      destruct (load pol tour (k + 1)) as [t1| | |]; simpl in Hb; try done.
      case_bool_decide; [done |].
      destruct (load pol tour k) as [t0| | |]; simpl in Hb; try done.
      destruct (dist pol t t0 t1); simpl in Hb; try done.
      injection Hb as <- _. simpl. lia.
  - intros [k cost] _.
    apply fueled_bind; [apply fueled_load | intros tk _].
    apply fueled_bind; [apply fueled_load | intros t0 _].
    apply fueled_bind; [apply fueled_dist | done].
Qed.

Lemma fueled_evaluate_route (pol : policy) (t : TSPdata) (n : Z) (route : matrix)
    (a : list Z) :
  fueled (evaluate_route pol t n route a).
Proof.
  unfold evaluate_route.
  apply fueled_bind; [apply fueled_for_loop; intros; apply fueled_store | intros a1 _].
  apply fueled_bind; [| by intros [? ?] _].
  apply fueled_for_loop. intros i [a2 b].
  apply fueled_bind.
  { apply fueled_for_loop. intros j b1.
    apply fueled_bind; [apply fueled_mload | intros; apply fueled_store]. }
  intros b1 _.
  apply fueled_bind; [apply fueled_compute_cost | intros cost _].
  apply fueled_bind; [apply fueled_store | done].
Qed.

Lemma fueled_ranking_selection (pol : policy) (a : list Z) (n : Z) (b c : matrix) :
  fueled (ranking_selection pol a n b c).
Proof.
  unfold ranking_selection, ranking_run.
  apply fueled_bind; [| by intros [? ?] _].
  apply fueled_bind.
  { apply fueled_for_loop. intros i d.
    apply fueled_bind; [apply fueled_load | intros; apply fueled_store]. }
  intros d _. apply fueled_bind; [| by intros [[[? ?] ?] ?] _].
  apply fueled_for_loop. intros i [[[d1 c1] idx] picks]. unfold ranking_pass.
  apply fueled_bind.
  { unfold min. apply fueled_bind; [apply fueled_load | intros m0 _].
    apply fueled_for_loop. intros j m.
    apply fueled_bind; [apply fueled_load | done]. }
  intros m _. apply fueled_bind.
  { apply fueled_for_loop. intros j idx1.
    apply fueled_bind; [apply fueled_load | done]. }
  intros [ix |] _; [| done].
  apply fueled_bind.
  { apply fueled_for_loop. intros j c2.
    apply fueled_bind; [apply fueled_mload | intros; apply fueled_mstore]. }
  intros c2 _. apply fueled_bind; [apply fueled_store | done].
Qed.

Lemma fueled_tow_point_crossover (pol : policy) (n : Z) (a b : matrix) :
  fueled (tow_point_crossover pol n a b).
Proof.
  assert (Hcol : ∀ r1 r2 i j (a0 : matrix),
    fueled (v ← mload pol b r1 j; a1 ← mstore a0 i j v;
            w ← mload pol b r2 j; mstore a1 (i + 1) j w)).
  { intros. apply fueled_bind; [apply fueled_mload | intros v _].
    apply fueled_bind; [apply fueled_mstore | intros a1 _].
    apply fueled_bind; [apply fueled_mload | intros; apply fueled_mstore]. }
  unfold tow_point_crossover, for_loop2. apply fueled_for_range. intros i a0.
  apply fueled_bind; [apply fueled_for_loop; intros; apply Hcol | intros a1 _].
  apply fueled_bind; [apply fueled_for_loop; intros; apply Hcol | intros a2 _].
  apply fueled_for_loop. intros. apply Hcol.
Qed.

Lemma fueled_mutation (n : Z) (a : matrix) (rv : Z) : fueled (mutation n a rv).
Proof.
  unfold mutation, mutation_tail_ones. case_bool_decide.
  - apply fueled_bind; [| intros; apply fueled_mstore].
    apply fueled_for_loop. intros. apply fueled_mstore.
  - apply fueled_bind; [| intros; apply fueled_mstore].
    apply fueled_for_loop. intros. apply fueled_mstore.
Qed.

Lemma fueled_rand_crossover (pol : policy) (n : Z) (a : matrix) :
  fueled (rand_crossover pol n a).
Proof.
  unfold rand_crossover. apply fueled_for_loop. intros i a0.
  apply fueled_bind; [apply fueled_mload | intros; apply fueled_mstore].
Qed.

Lemma fueled_generation (pol : policy) (w : world) (t : TSPdata) (len : Z)
    (s : ga_state) :
  fueled (generation pol w t len s).
Proof.
  unfold generation.
  apply fueled_bind; [apply fueled_order_representation | intros route' _].
  apply fueled_bind; [apply fueled_evaluate_route | intros fitness' _].
  apply fueled_bind; [apply fueled_ranking_selection | intros gene_tmp' _].
  apply fueled_bind.
  { case_bool_decide; [apply fueled_rand_crossover | done]. }
  intros gene_tmp'' _.
  apply fueled_bind; [apply fueled_tow_point_crossover | intros gene' _].
  apply fueled_bind; [| by intros [? ?] _].
  case_bool_decide; [| done].
  apply fueled_bind; [apply fueled_mutation | done].
Qed.

Lemma generation_time_calls (pol : policy) (w : world) (t : TSPdata) (len : Z)
    (s s' : ga_state) :
  generation pol w t len s = Ok s' → time_calls s' = S (time_calls s).
Proof.
  unfold generation. intros H.
  destruct (order_representation pol len (gene s) (route s)) as [r| | |];
    simpl in H; try done.
  destruct (evaluate_route pol t len r (fitness s)) as [f| | |]; simpl in H; try done.
  destruct (ranking_selection pol f len (gene s) (gene_tmp s)) as [g| | |];
    simpl in H; try done.
  match type of H with context [mbind _ ?m] =>
    destruct m as [g'| | |]; simpl in H; try done end.
  destruct (tow_point_crossover pol len (gene s) g') as [g2| | |]; simpl in H; try done.
  match type of H with context [mbind _ ?m] =>
    destruct m as [[g3 calls]| | |]; simpl in H; try done end.
  by injection H as <-.
Qed.

Lemma fueled_search_start (w : world) (t : TSPdata) (v : Vdata) :
  fueled (search_start w t v).
Proof.
  unfold search_start.
  apply fueled_bind; [| intros [g calls] _].
  { unfold create_matrix. apply fueled_for_loop. intros i st.
    apply fueled_for_loop. intros j [a pos].
    apply fueled_bind; [apply fueled_mstore | done]. }
  apply fueled_bind; [apply fueled_for_loop; intros; apply fueled_mstore | intros g0 _].
  apply fueled_bind; [apply fueled_for_loop; intros; apply fueled_store | done].
Qed.

(** X21.  The search ends: when the clock never goes back and its reading at
    call [limit] is [timelim] seconds or more past [starttime], the
    while loop of [genetic_algorithm] makes at most [limit] passes, so
    with fuel for [limit] generations the run ends, with a tour or at
    an access outside an array. *)
Lemma search_ends (pol : policy) (w : world) (limit fuel : nat) (timelim : Z)
    (t : TSPdata) (v : Vdata) :
  (∀ i j : nat, (i ≤ j)%nat → (cpu_time w i <= cpu_time w j)%Q) →
  (inject_Z timelim <= cpu_time w limit - starttime v)%Q →
  (limit ≤ fuel)%nat →
  fueled (genetic_algorithm pol w fuel timelim t v).
Proof.
  intros Hmono Hlimit Hfuel. unfold genetic_algorithm.
  apply fueled_bind; [apply fueled_search_start | intros [s best] Hstart].
  assert (Hs : time_calls s = O).
  { unfold search_start in Hstart.
    destruct (create_matrix w _ _ _) as [[g calls]| | |]; simpl in Hstart; try done.
    destruct (for_loop 0 (tsp_n t) _ g) as [g0| | |]; simpl in Hstart; try done.
    destruct (for_loop 0 (tsp_n t) _ (bestsol v)) as [b| | |]; simpl in Hstart;
      try done.
    by injection Hstart as <- _. }
  apply fueled_bind.
  - apply (fueled_while_loop (λ _, True) (λ x, limit - time_calls x)%nat);
      [| done | lia].
    intros s0 _ Hc. unfold in_time in Hc.
    destruct (Qlt_le_dec _ _) as [Hlt | _]; [| done].
    assert (Hcalls : (time_calls s0 < limit)%nat).
    { destruct (decide (time_calls s0 < limit)%nat) as [? | Hge]; [done |]. exfalso.
      pose proof (Hmono limit (time_calls s0) ltac:(lia)) as Hle. lra. }
    split; [lia |]. split.
    + apply fueled_bind; [apply fueled_generation | done].
    + intros s1 Hb.
      destruct (generation pol w t (tsp_n t) s0) as [s2| | |] eqn:Hg; simpl in Hb;
        try done.
      injection Hb as <-. apply generation_time_calls in Hg. split; [done | lia].
  - intros s1 _.
    apply fueled_bind; [apply fueled_order_representation | intros route' _].
    apply fueled_bind; [| done].
    apply fueled_for_loop. intros i b.
    apply fueled_bind; [apply fueled_mload | intros; apply fueled_store].
Qed.

(** * Further properties of the code *)

(** * Further properties of the engine *)

(** ** Loops that may leave with break *)

(** [I] holds whenever the test is made, [Q] when the loop is left,
    by its test or by [break]. *)
Lemma while_loop_break_inv {St : Type} (I Q : St → Prop) (measure : St → nat)
    (cond : St → bool) (body : St → outcome (ctl St)) (fuel : nat) (s : St) :
  (∀ s, I s → cond s = true →
     (0 < measure s)%nat ∧
     ∃ c, body s = Ok c ∧
          match c with
          | Next s' => I s' ∧ (measure s' < measure s)%nat
          | Break s' => Q s'
          end) →
  (∀ s, I s → cond s = false → Q s) →
  I s → (measure s ≤ fuel)%nat →
  ∃ s', while_loop fuel cond body s = Ok s' ∧ Q s'.
Proof.
  intros Hstep Hexit. revert s. induction fuel as [|f IH]; intros s HI Hm.
  - destruct (cond s) eqn:Hc.
    + destruct (Hstep s HI Hc) as (Hpos & _). lia.
    + exists s. simpl. rewrite Hc. split; [done | by apply Hexit].
  - destruct (cond s) eqn:Hc.
    + destruct (Hstep s HI Hc) as (_ & [s' | s'] & Hb & Hs').
      * destruct Hs' as [HI' Hlt].
        destruct (IH s' HI') as (s'' & Hw & HQ); [lia |].
        exists s''. simpl. rewrite Hc, Hb. done.
      * exists s'. simpl. rewrite Hc, Hb. done.
    + exists s. simpl. rewrite Hc. split; [done | by apply Hexit].
Qed.

(** ** Cells and rows *)

Lemma load_lenient (junk : Z → Z) (a : list Z) (i : Z) :
  ∃ v, load (Lenient junk) a i = Ok v.
Proof.
  unfold load. destruct (inb a i) eqn:Hi.
  - unfold inb in Hi. apply bool_decide_eq_true in Hi.
    destruct (lookup_lt_is_Some_2 a (Z.to_nat i)) as [v Hv]; [lia |].
    rewrite Hv. eauto.
  - simpl. eauto.
Qed.

Lemma mload_lenient (junk : Z → Z) (m : matrix) (r c : Z) :
  ∃ v, mload (Lenient junk) m r c = Ok v.
Proof.
  unfold mload. destruct (inb m r) eqn:Hr.
  - unfold inb in Hr. apply bool_decide_eq_true in Hr.
    destruct (lookup_lt_is_Some_2 m (Z.to_nat r)) as [row Hrow]; [lia |].
    rewrite Hrow. apply load_lenient.
  - simpl. eauto.
Qed.

Lemma cell_row (m : matrix) (r c : Z) (row : list Z) (v : Z) :
  m !! Z.to_nat r = Some row → row !! Z.to_nat c = Some v → cell m r c = v.
Proof.
  intros Hrow Hv. unfold cell.
  by rewrite (list_lookup_total_correct _ _ _ Hrow), (list_lookup_total_correct _ _ _ Hv).
Qed.

Lemma rows_eq_cells (n : Z) (r1 r2 : list Z) :
  Z.of_nat (length r1) = n → Z.of_nat (length r2) = n →
  (∀ c, 0 ≤ c < n → r1 !!! Z.to_nat c = r2 !!! Z.to_nat c) → r1 = r2.
Proof.
  intros H1 H2 Hc. apply list_eq. intros p.
  destruct (decide (Z.of_nat p < n)) as [Hlt | Hge].
  - specialize (Hc (Z.of_nat p) ltac:(lia)). rewrite Nat2Z.id in Hc.
    rewrite (list_lookup_lookup_total_lt r1 p) by lia.
    rewrite (list_lookup_lookup_total_lt r2 p) by lia. by rewrite Hc.
  - rewrite !lookup_ge_None_2; [done | lia | lia].
Qed.

Lemma cells_eq (n : Z) (a b : matrix) :
  shape n a → shape n b →
  (∀ r c, 0 ≤ r < POPULATION → 0 ≤ c < n → cell a r c = cell b r c) → a = b.
Proof.
  intros [Hal Har] [Hbl Hbr] Hc. apply list_eq. intros p.
  destruct (decide (Z.of_nat p < POPULATION)) as [Hlt | Hge].
  - destruct (lookup_lt_is_Some_2 a p) as [ra Hra]; [lia |].
    destruct (lookup_lt_is_Some_2 b p) as [rb Hrb]; [lia |].
    rewrite Hra, Hrb. f_equal.
    pose proof (Forall_lookup_1 _ _ _ _ Har Hra) as Hla.
    pose proof (Forall_lookup_1 _ _ _ _ Hbr Hrb) as Hlb. simpl in Hla, Hlb.
    apply (rows_eq_cells n); [done | done |]. intros c Hcn.
    specialize (Hc (Z.of_nat p) c ltac:(lia) Hcn). unfold cell in Hc.
    rewrite Nat2Z.id in Hc.
    by rewrite (list_lookup_total_correct _ _ _ Hra),
               (list_lookup_total_correct _ _ _ Hrb) in Hc.
  - rewrite !lookup_ge_None_2; [done | lia | lia].
Qed.

Lemma in_range_cells (n : Z) (m : matrix) :
  shape n m →
  (Forall (in_range n) m ↔
   ∀ r c, 0 ≤ r < POPULATION → 0 ≤ c < n → 1 ≤ cell m r c ≤ n - c).
Proof.
  intros [Hl Hr]. split.
  - intros Hin r c Hrr Hc.
    destruct (cell_lookup n m r c) as (row & Hrow & Hlen & Hv); [done | done | done |].
    destruct (Forall_lookup_1 _ _ _ _ Hin Hrow) as [_ Hrange].
    specialize (Hrange _ _ Hv). lia.
  - intros Hcells. apply Forall_lookup. intros p row Hrow.
    pose proof (Forall_lookup_1 _ _ _ _ Hr Hrow) as Hlen. simpl in Hlen.
    pose proof (lookup_lt_Some _ _ _ Hrow) as Hp.
    split; [done |]. intros j k Hk.
    pose proof (lookup_lt_Some _ _ _ Hk) as Hj.
    specialize (Hcells (Z.of_nat p) (Z.of_nat j) ltac:(lia) ltac:(lia)).
    rewrite (cell_row m (Z.of_nat p) (Z.of_nat j) row k) in Hcells;
      [lia | by rewrite Nat2Z.id | by rewrite Nat2Z.id].
Qed.

(** ** copy_array, min *)

(** X1.  [copy_array(a, n, j)] on an array of [n] cells with
    [1 <= j < n], under either policy: the cell at [j-1] is removed,
    the cells behind it move down by one and the last cell becomes 0;
    the array keeps its length. *)
Theorem copy_array_removes (pol : policy) (a : list Z) (n j : Z) :
  Z.of_nat (length a) = n → 1 ≤ j < n →
  ∃ a', copy_array pol a n j = Ok a' ∧
        a' = take (Z.to_nat (j - 1)) a ++ drop (Z.to_nat j) a ++ [0] ∧
        length a' = length a.
Proof.
  intros Hn Hj. exists (remove_at j a). split.
  - apply copy_array_spec; [done | lia | left; lia].
  - unfold remove_at. rewrite delete_take_drop.
    replace (S (Z.to_nat (j - 1))) with (Z.to_nat j) by lia.
    rewrite <- app_assoc. split; [reflexivity |].
    rewrite !length_app, length_take, length_drop. simpl. lia.
Qed.

Lemma copy_array_removes_witness :
  ∃ a', copy_array Checked [10; 20; 30; 40] 4 2 = Ok a' ∧
        a' = take (Z.to_nat (2 - 1)) [10; 20; 30; 40]
             ++ drop (Z.to_nat 2) [10; 20; 30; 40] ++ [0] ∧
        length a' = length [10; 20; 30; 40].
Proof.
  apply (copy_array_removes Checked [10; 20; 30; 40] 4 2); [reflexivity | lia].
Defined.

(** X2.  With [j] outside [1..n] no index matches [j - 1]: the array
    comes back as it was, and nothing outside it is touched. *)
Theorem copy_array_out_of_range (pol : policy) (a : list Z) (n j : Z) :
  Z.of_nat (length a) = n → j < 1 ∨ n < j →
  copy_array pol a n j = Ok a.
Proof.
  intros Hn Hj. unfold copy_array.
  match goal with |- context [while_loop ?f ?c ?b ?s0] =>
    destruct (while_loop_inv (λ x, 0 ≤ x.1 ∧ x.2 = a)
                (λ x, Z.to_nat (n - x.1)) c b f s0) as ([i a'] & Hw & [_ Ha] & _) end.
  - intros [i a'] [Hi Ha] Hc. simpl in *. subst a'.
    apply bool_decide_eq_true in Hc.
    rewrite bool_decide_eq_false_2 by lia.
    eexists. split; [reflexivity |]. simpl. split; [split; [lia | done] | lia].
  - simpl. split; [lia | done].
  - simpl. lia.
  - rewrite Hw. simpl in Ha. by subst a'.
Qed.

Lemma copy_array_out_of_range_witness :
  copy_array Checked [10; 20; 30; 40] 4 5 = Ok [10; 20; 30; 40].
Proof.
  apply (copy_array_out_of_range Checked [10; 20; 30; 40] 4 5); [reflexivity | lia].
Defined.

Lemma decode_checked_safe_witness :
  order_representation Checked 3 (replicate 20 [2; 2; 1]) (replicate 20 [0; 0; 0])
  = Ok (decode 3 <$> replicate 20 [2; 2; 1]).
Proof.
  apply (decode_checked_safe 3 (replicate 20 [2; 2; 1]) (replicate 20 [0; 0; 0])).
  - apply shapeb_spec. vm_compute. reflexivity.
  - apply shapeb_spec. vm_compute. reflexivity.
  - apply in_rangeb_all. vm_compute. reflexivity.
  - apply Forall_replicate. discriminate.
Defined.

(** X4.  [min(a)] on an array of POPULATION cells returns an element
    of the array that no element is below, under either policy. *)
Theorem min_least (pol : policy) (a : list Z) :
  Z.of_nat (length a) = POPULATION →
  ∃ m, min pol a = Ok m ∧ m ∈ a ∧ ∀ x, x ∈ a → m ≤ x.
Proof.
  intros Hlen. destruct (min_spec pol a Hlen) as (m & Hm & Hin & Hle).
  exists m. split; [exact Hm |]. split; [exact Hin | exact Hle].
Qed.

Lemma min_least_witness :
  ∃ m, min Checked (seqZ 5 20) = Ok m ∧ m ∈ seqZ 5 20 ∧ ∀ x, x ∈ seqZ 5 20 → m ≤ x.
Proof. apply (min_least Checked (seqZ 5 20)). reflexivity. Defined.

(** ** Selection on any fitness vector *)

Lemma picked_step (pol : policy) (n : Z) (b c : matrix) (i : Z)
    (st : list Z * matrix * option Z * list Z) :
  shape n b → shape n c → 0 ≤ i < POPULATION → picked b c i st →
  ∃ st', ranking_pass pol n b i st = Ok st' ∧ picked b c (i + 1) st'.
Proof.
  intros [Hbl Hbr] [Hcl Hcr] Hi Hst.
  destruct st as [[[d c'] idx] picks].
  destruct Hst as (Hlen & Hbound & Hdl & Hc).
  unfold ranking_pass.
  destruct (min_spec pol d Hdl) as (m & Hmin & Hmin_in & _).
  rewrite Hmin. simpl.
  destruct (last_index_spec pol d m idx Hdl Hmin_in) as (ix & Hfind & Hix & _ & _).
  rewrite Hfind. simpl.
  destruct (lookup_lt_is_Some_2 b (Z.to_nat ix)) as [brow Hbrow]; [lia |].
  destruct (lookup_lt_is_Some_2 c (Z.to_nat i)) as [crow Hcrow]; [lia |].
  assert (Hrows : length ((λ x, b !!! Z.to_nat x) <$> picks) = Z.to_nat i).
  { rewrite length_fmap. lia. }
  rewrite (copy_row pol n b c' ix i brow crow); try done; try lia; first last.
  { eapply Forall_lookup_1 in Hcr; eauto. }
  { rewrite Hc. rewrite lookup_app_r by lia.
    rewrite Hrows, Nat.sub_diag, lookup_drop, Nat.add_0_r. done. }
  { eapply Forall_lookup_1 in Hbr; eauto. }
  simpl. rewrite store_in by lia. simpl.
  eexists. split; [reflexivity |].
  split; [rewrite length_app; simpl; lia |].
  split; [apply Forall_app; split; [done | by constructor] |].
  split; [by rewrite length_insert |].
  rewrite Hc, fmap_app. simpl.
  rewrite (list_lookup_total_correct _ _ _ Hbrow).
  replace (Z.to_nat (i + 1)) with (S (Z.to_nat i)) by lia.
  rewrite (drop_S c crow _ Hcrow).
  replace (Z.to_nat i) with (length ((λ x, b !!! Z.to_nat x) <$> picks) + 0)%nat
    at 1 by lia.
  rewrite insert_app_r. simpl. by rewrite <- app_assoc.
Qed.

Lemma ranking_run_rows (pol : policy) (a : list Z) (n : Z) (b c : matrix) :
  shape n b → shape n c → Z.of_nat (length a) = POPULATION →
  ∃ picks,
    ranking_run pol a n b c = Ok ((λ x, b !!! Z.to_nat x) <$> picks, picks) ∧
    Z.of_nat (length picks) = POPULATION ∧
    Forall (λ x, 0 ≤ x < POPULATION) picks.
Proof.
  intros Hb Hc Hal. unfold ranking_run.
  rewrite copy_fitness; [| done | by rewrite length_replicate; lia].
  simpl.
  destruct (for_loop_inv (picked b c) 0 POPULATION (ranking_pass pol n b)
              (a, c, None, [])) as ([[[d c'] idx] picks] & Hl & Hst).
  - done.
  - unfold picked. split; [done |]. split; [constructor |]. split; done.
  - intros i st Hi Hst. by eapply picked_step.
  - destruct Hst as (Hlen & Hbound & Hdl & Hc').
    rewrite Hl. simpl. exists picks. destruct Hc as [Hcl _].
    rewrite Hc', drop_ge, app_nil_r by lia. done.
Qed.

Lemma rows_of_picks (n : Z) (b : matrix) (picks : list Z) (P : list Z → Prop) :
  shape n b → Forall (λ x, 0 ≤ x < POPULATION) picks → Forall P b →
  Forall P ((λ x, b !!! Z.to_nat x) <$> picks).
Proof.
  intros [Hbl _] Hpicks HP. apply Forall_fmap.
  eapply Forall_weaken; [exact Hpicks |]. intros x Hx. simpl in *.
  destruct (lookup_lt_is_Some_2 b (Z.to_nat x)) as [row Hrow]; [lia |].
  rewrite (list_lookup_total_correct _ _ _ Hrow).
  by eapply (Forall_lookup_1 _ _ _ _ HP).
Qed.

Lemma ranking_selection_keeps (pol : policy) (a : list Z) (n : Z) (b c : matrix) :
  shape n b → shape n c → Z.of_nat (length a) = POPULATION →
  ∃ c', ranking_selection pol a n b c = Ok c' ∧ shape n c' ∧
        Forall (λ row, row ∈ b) c' ∧
        (Forall (in_range n) b → Forall (in_range n) c').
Proof.
  intros Hb Hc Hal.
  destruct (ranking_run_rows pol a n b c Hb Hc Hal) as (picks & Hrun & Hlen & Hpicks).
  unfold ranking_selection. rewrite Hrun. simpl. eexists. split; [reflexivity |].
  split.
  { split; [by rewrite length_fmap |].
    apply (rows_of_picks n); [done | done |]. by destruct Hb. }
  split.
  { apply (rows_of_picks n); [done | done |].
    apply Forall_forall. by intros row Hrow. }
  intros Hin. by apply (rows_of_picks n).
Qed.

(** X5.  Whatever the fitness values are, marks included,
    [ranking_selection] ends normally, writes POPULATION rows of [n]
    cells, and every row it writes is a row of the input population;
    what [c] held before is gone.  So a population of chromosomes
    that satisfy the range invariant is selected into one. *)
Theorem selection_rows_from_input (pol : policy) (a : list Z) (n : Z) (b c : matrix) :
  shape n b → shape n c → Z.of_nat (length a) = POPULATION →
  ∃ c', ranking_selection pol a n b c = Ok c' ∧ shape n c' ∧
        Forall (λ row, row ∈ b) c' ∧
        (Forall (in_range n) b → Forall (in_range n) c').
Proof.
  intros Hb Hc Hal.
  destruct (ranking_selection_keeps pol a n b c Hb Hc Hal) as (c' & Hrun & Hrest).
  exists c'. split; [exact Hrun | exact Hrest].
Qed.

Lemma selection_rows_from_input_witness :
  ∃ c', ranking_selection Checked (seqZ 2000000 20) 2
          (replicate 20 [2; 1]) (replicate 20 [0; 0]) = Ok c' ∧
        shape 2 c' ∧
        Forall (λ row, row ∈ replicate 20 [2; 1]) c' ∧
        (Forall (in_range 2) (replicate 20 [2; 1]) → Forall (in_range 2) c').
Proof.
  apply (selection_rows_from_input Checked (seqZ 2000000 20) 2
           (replicate 20 [2; 1]) (replicate 20 [0; 0])).
  - apply shapeb_spec. vm_compute. reflexivity.
  - apply shapeb_spec. vm_compute. reflexivity.
  - reflexivity.
Defined.

Lemma selection_sorts_below_mark_witness :
  let a := [3; 3; 1; 2; 4; 5; 6; 7; 8; 9; 10; 11; 12; 13; 14; 15; 16; 17; 18; 19] in
  let b := replicate 20 [1; 1] in
  ∃ c' picks,
    ranking_run Checked a 2 b (replicate 20 [0; 0]) = Ok (c', picks) ∧
    c' = (λ x, b !!! Z.to_nat x) <$> picks ∧
    c' ≡ₚ b ∧
    ∀ (s t : nat) x y, (s < t)%nat → picks !! s = Some x → picks !! t = Some y →
      fit a x ≤ fit a y.
Proof.
  apply (selection_sorts_below_mark Checked
           [3; 3; 1; 2; 4; 5; 6; 7; 8; 9; 10; 11; 12; 13; 14; 15; 16; 17; 18; 19]
           2 (replicate 20 [1; 1]) (replicate 20 [0; 0])).
  - apply shapeb_spec. vm_compute. reflexivity.
  - apply shapeb_spec. vm_compute. reflexivity.
  - reflexivity.
  - repeat constructor.
Defined.

(** ** Recombination: what the children are made of *)

Lemma crossed_mate (r : Z) :
  0 ≤ r < POPULATION →
  0 ≤ (if Z.even r then r + 1 else r - 1) < POPULATION.
Proof.
  intros Hr. unfold POPULATION in *. destruct (Z.even r) eqn:He.
  - apply Zeven_bool_iff in He. destruct (Zeven_ex r He) as [k ->]. lia.
  - assert (Ho : Z.odd r = true) by (rewrite <- Z.negb_even, He; done).
    apply Zodd_bool_iff in Ho. destruct (Zodd_ex r Ho) as [k ->]. lia.
Qed.

Lemma crossed_in_range (n : Z) (b : matrix) (r c : Z) :
  shape n b → Forall (in_range n) b →
  0 ≤ r < POPULATION → 0 ≤ c < n → 1 ≤ crossed n b r c ≤ n - c.
Proof.
  intros Hb Hin Hr Hc. pose proof (proj1 (in_range_cells n b Hb) Hin) as Hcells.
  unfold crossed. case_bool_decide.
  - apply Hcells; [by apply crossed_mate | done].
  - by apply Hcells.
Qed.


(** X7.  [tow_point_crossover] keeps the range invariant: a gene moves
    between the two rows of a pair but never leaves its column, so
    children of chromosomes with [1 <= gene[j] <= n - j] satisfy it
    too.  Every cell of the children's buffer is written: its former
    content has no part in the result. *)
Theorem crossover_keeps_range (pol : policy) (n : Z) (a a0 b : matrix) :
  1 ≤ n → shape n a → shape n a0 → shape n b → Forall (in_range n) b →
  ∃ a', tow_point_crossover pol n a b = Ok a' ∧
        tow_point_crossover pol n a0 b = Ok a' ∧
        shape n a' ∧ Forall (in_range n) a'.
Proof.
  intros Hn Ha Ha0 Hb Hin.
  destruct (tow_point_crossover_spec pol n a b Hn Ha Hb) as (a' & Hrun & Ha' & Hcell).
  destruct (tow_point_crossover_spec pol n a0 b Hn Ha0 Hb) as (a1 & Hrun1 & Ha1 & Hcell1).
  assert (a1 = a') as ->.
  { apply (cells_eq n); [done | done |]. intros r c Hr Hc.
    by rewrite Hcell, Hcell1. }
  exists a'. split; [done |]. split; [done |]. split; [done |].
  apply (in_range_cells n a' Ha'). intros r c Hr Hc.
  rewrite Hcell by done. by apply crossed_in_range.
Qed.

Lemma crossover_keeps_range_witness :
  ∃ a', tow_point_crossover Checked 3 (replicate 20 [0; 0; 0]) (replicate 20 [2; 2; 1])
          = Ok a' ∧
        tow_point_crossover Checked 3 (replicate 20 [7; 7; 7]) (replicate 20 [2; 2; 1])
          = Ok a' ∧
        shape 3 a' ∧ Forall (in_range 3) a'.
Proof.
  apply (crossover_keeps_range Checked 3 (replicate 20 [0; 0; 0])
           (replicate 20 [7; 7; 7]) (replicate 20 [2; 2; 1])).
  - lia.
  - apply shapeb_spec. vm_compute. reflexivity.
  - apply shapeb_spec. vm_compute. reflexivity.
  - apply shapeb_spec. vm_compute. reflexivity.
  - apply in_rangeb_all. vm_compute. reflexivity.
Defined.



(** ** rand_crossover *)

Lemma rand_crossover_spec (pol : policy) (n : Z) (a : matrix) :
  shape n a → rand_crossover pol n a = Ok (<[17%nat := a !!! 3%nat]> a).
Proof.
  intros [Hl Hr]. unfold rand_crossover. unfold POPULATION in *.
  destruct (lookup_lt_is_Some_2 a 3%nat) as [src Hsrc]; [lia |].
  destruct (lookup_lt_is_Some_2 a 17%nat) as [dst Hdst]; [lia |].
  pose proof (Forall_lookup_1 _ _ _ _ Hr Hsrc) as Hls.
  pose proof (Forall_lookup_1 _ _ _ _ Hr Hdst) as Hld. simpl in Hls, Hld.
  rewrite (list_lookup_total_correct _ _ _ Hsrc).
  destruct (for_loop_inv
    (λ j (a' : matrix),
       a' = <[17%nat := take (Z.to_nat j) src ++ drop (Z.to_nat j) dst]> a)
    0 n (λ i a, v ← mload pol a 3 i; mstore a (20 - 3) i v) a) as (a' & Hrun & Ha').
  - lia.
  - simpl. symmetry. by apply list_insert_id.
  - intros j a' Hj ->.
    destruct (lookup_lt_is_Some_2 src (Z.to_nat j)) as [v Hv]; [lia |].
    destruct (lookup_lt_is_Some_2 dst (Z.to_nat j)) as [y Hy]; [lia |].
    rewrite (mload_in pol _ 3 j src v); [| lia | | lia | done]; last first.
    { by rewrite list_lookup_insert_ne by lia. }
    simpl.
    rewrite (mstore_in _ (20 - 3) j v
               (take (Z.to_nat j) src ++ drop (Z.to_nat j) dst)); [| lia | |].
    + eexists. split; [reflexivity |].
      replace (Z.to_nat (20 - 3)) with 17%nat by lia.
      rewrite list_insert_insert_eq. f_equal.
      replace (Z.to_nat (j + 1)) with (S (Z.to_nat j)) by lia.
      rewrite (take_S_r src _ v Hv), (drop_S dst y _ Hy).
      assert (Hlt : length (take (Z.to_nat j) src) = Z.to_nat j).
      { rewrite length_take. lia. }
      replace (Z.to_nat j) with (length (take (Z.to_nat j) src) + 0)%nat at 1 by lia.
      rewrite insert_app_r. simpl. by rewrite <- app_assoc.
    + replace (Z.to_nat (20 - 3)) with 17%nat by lia.
      apply list_lookup_insert_eq. lia.
    + rewrite length_app, length_take, length_drop. lia.
  - rewrite Hrun, Ha'. do 2 f_equal.
    rewrite take_ge by lia. rewrite drop_ge by lia. by rewrite app_nil_r.
Qed.

(** X9.  [rand_crossover] copies individual 3 over individual
    POPULATION - 3 = 17 and leaves the other eighteen rows alone; the
    population keeps its shape, and the range invariant when it had
    it. *)
Theorem reinjection_copies_row (pol : policy) (n : Z) (a : matrix) :
  shape n a →
  ∃ a', rand_crossover pol n a = Ok a' ∧ shape n a' ∧
        a' !! 17%nat = a !! 3%nat ∧
        (∀ r : nat, r ≠ 17%nat → a' !! r = a !! r) ∧
        (Forall (in_range n) a → Forall (in_range n) a').
Proof.
  intros Ha. pose proof Ha as [Hl Hr]. unfold POPULATION in Hl.
  destruct (lookup_lt_is_Some_2 a 3%nat) as [src Hsrc]; [lia |].
  exists (<[17%nat := a !!! 3%nat]> a).
  rewrite (list_lookup_total_correct _ _ _ Hsrc).
  split; [rewrite (rand_crossover_spec pol n a Ha);
          by rewrite (list_lookup_total_correct _ _ _ Hsrc) |].
  split.
  { split; [by rewrite length_insert |].
    apply Forall_insert; [done |]. by eapply (Forall_lookup_1 _ _ _ _ Hr). }
  split; [rewrite Hsrc; apply list_lookup_insert_eq; lia |].
  split; [intros r Hne; by apply list_lookup_insert_ne |].
  intros Hin. apply Forall_insert; [done |]. by eapply (Forall_lookup_1 _ _ _ _ Hin).
Qed.

Lemma reinjection_copies_row_witness :
  ∃ a', rand_crossover Checked 2 (replicate 10 [1; 1] ++ replicate 10 [2; 1]) = Ok a' ∧
        shape 2 a' ∧
        a' !! 17%nat = (replicate 10 [1; 1] ++ replicate 10 [2; 1]) !! 3%nat ∧
        (∀ r : nat, r ≠ 17%nat →
           a' !! r = (replicate 10 [1; 1] ++ replicate 10 [2; 1]) !! r) ∧
        (Forall (in_range 2) (replicate 10 [1; 1] ++ replicate 10 [2; 1]) →
         Forall (in_range 2) a').
Proof.
  apply (reinjection_copies_row Checked 2 (replicate 10 [1; 1] ++ replicate 10 [2; 1])).
  apply shapeb_spec. vm_compute. reflexivity.
Defined.

(** ** Mutation: what it writes *)

Lemma mutation_cells (n : Z) (a : matrix) (rv : Z) :
  shape n a → 0 ≤ rv →
  (2 ≤ n ∧ mutation_target rv > Z.quot POPULATION 2) ∨
  (22 ≤ n ∧ mutation_target rv ≤ Z.quot POPULATION 2) →
  ∃ a', mutation n a rv = Ok a' ∧ shape n a' ∧
        0 ≤ mutation_marker n (mutation_target rv) < n ∧
        ∀ r c, 0 ≤ r → 0 ≤ c →
          cell a' r c =
            if bool_decide (r = mutation_target rv) then
              if bool_decide (c = mutation_marker n (mutation_target rv)) then 2
              else if bool_decide ((mutation_ones n (mutation_target rv)).1 ≤ c
                                   < (mutation_ones n (mutation_target rv)).2) then 1
              else cell a r c
            else cell a r c.
Proof.
  intros Ha Hrv Hcase.
  pose proof (mutation_target_range rv Hrv) as Hr.
  assert (Hpt : mutation_point n = (n + 1) / 2) by (apply mutation_point_ceil; lia).
  unfold mutation, mutation_tail_ones, mutation_ones, mutation_marker.
  destruct Hcase as [[Hn Hhead] | [Hn Htail]].
  - rewrite !bool_decide_eq_true_2 by done. simpl.
    assert (Hin : 0 ≤ mutation_point n < n) by (rewrite Hpt; Z.div_mod_to_equations; lia).
    destruct (ones_run n a (mutation_target rv) 0 (mutation_point n))
      as (a1 & Hl & Ha1 & Hc1); [done | lia | lia | lia |].
    rewrite Hl. simpl.
    destruct (mstore_cell n a1 (mutation_target rv) (mutation_point n) 2 Ha1)
      as (a2 & Hs & Ha2 & Hc2); [lia | lia |].
    exists a2. split; [done |]. split; [done |]. split; [done |].
    intros r c Hr0 Hc0. rewrite Hc2, Hc1 by done.
    repeat case_decide; repeat case_bool_decide; try lia; try done;
      destruct_and?; try lia; try done.
  - rewrite !bool_decide_eq_false_2 by lia. simpl.
    assert (Hin : 0 ≤ mutation_point n ∧ mutation_point n + 10 < n)
      by (rewrite Hpt; Z.div_mod_to_equations; lia).
    destruct (ones_run n a (mutation_target rv) (mutation_point n) (n - 10))
      as (a1 & Hl & Ha1 & Hc1); [done | lia | lia | lia |].
    rewrite Hl. simpl.
    destruct (mstore_cell n a1 (mutation_target rv) (mutation_point n + 10) 2 Ha1)
      as (a2 & Hs & Ha2 & Hc2); [lia | lia |].
    exists a2. split; [done |]. split; [done |]. split; [lia |].
    intros r c Hr0 Hc0. rewrite Hc2, Hc1 by done.
    repeat case_decide; repeat case_bool_decide; try lia; try done;
      destruct_and?; try lia; try done.
Qed.

Lemma mutation_other_rows (n : Z) (a a' : matrix) (rv : Z) (r' : nat) :
  shape n a → shape n a' →
  (∀ r c, 0 ≤ r → 0 ≤ c →
     cell a' r c =
       if bool_decide (r = mutation_target rv) then
         if bool_decide (c = mutation_marker n (mutation_target rv)) then 2
         else if bool_decide ((mutation_ones n (mutation_target rv)).1 ≤ c
                              < (mutation_ones n (mutation_target rv)).2) then 1
         else cell a r c
       else cell a r c) →
  Z.of_nat r' ≠ mutation_target rv → a' !! r' = a !! r'.
Proof.
  intros [Hal Har] [Hal' Har'] Hcell Hne.
  destruct (decide (Z.of_nat r' < POPULATION)) as [Hlt | Hge];
    [| rewrite !lookup_ge_None_2; [done | lia | lia]].
  destruct (lookup_lt_is_Some_2 a r') as [row Hrow]; [lia |].
  destruct (lookup_lt_is_Some_2 a' r') as [row' Hrow']; [lia |].
  rewrite Hrow, Hrow'. f_equal.
  apply (rows_eq_cells n).
  - by eapply (Forall_lookup_1 _ _ _ _ Har').
  - by eapply (Forall_lookup_1 _ _ _ _ Har).
  - intros c Hc. specialize (Hcell (Z.of_nat r') c ltac:(lia) ltac:(lia)).
    rewrite bool_decide_eq_false_2 in Hcell by done.
    unfold cell in Hcell. rewrite Nat2Z.id in Hcell.
    by rewrite (list_lookup_total_correct _ _ _ Hrow),
               (list_lookup_total_correct _ _ _ Hrow') in Hcell.
Qed.

(** X10.  [mutation] changes one individual only, [r = rv % 19 + 1]
    with [1 <= r <= 19], so individual 0 is never mutated.  In the
    branch [r > POPULATION/2] (for [n >= 2]) the genes before
    [point = ceil(n/2)] become 1 and gene [point] becomes 2; in the
    other branch (for [n >= 22], where the marker is inside the
    chromosome) the genes from [point] up to [n - 10] become 1 and
    gene [point + 10] becomes 2.  Every other gene is as before. *)
Theorem mutation_effect (n : Z) (a : matrix) (rv : Z) :
  shape n a → 0 ≤ rv →
  (2 ≤ n ∧ mutation_target rv > Z.quot POPULATION 2) ∨
  (22 ≤ n ∧ mutation_target rv ≤ Z.quot POPULATION 2) →
  let r := mutation_target rv in
  let point := (n + 1) / 2 in
  1 ≤ r < POPULATION ∧
  ∃ a', mutation n a rv = Ok a' ∧ shape n a' ∧
        (∀ r' : nat, Z.of_nat r' ≠ r → a' !! r' = a !! r') ∧
        ∀ c, 0 ≤ c < n →
          cell a' r c =
            if bool_decide (r > 10) then
              if bool_decide (c < point) then 1
              else if bool_decide (c = point) then 2 else cell a r c
            else
              if bool_decide (c = point + 10) then 2
              else if bool_decide (point ≤ c < n - 10) then 1 else cell a r c.
Proof.
  intros Ha Hrv Hcase r point.
  pose proof (mutation_target_range rv Hrv) as Hr.
  split; [exact Hr |].
  assert (Hpt : mutation_point n = point) by (apply mutation_point_ceil; lia).
  destruct (mutation_cells n a rv Ha Hrv Hcase) as (a' & Hrun & Ha' & Hmark & Hcell).
  exists a'. split; [done |]. split; [done |]. split.
  - intros r' Hne. by apply (mutation_other_rows n a a' rv r').
  - intros c Hc. rewrite Hcell by lia. fold r.
    rewrite bool_decide_eq_true_2 by done.
    unfold mutation_marker, mutation_ones. rewrite Hpt.
    change (Z.quot POPULATION 2) with 10.
    case_bool_decide; simpl; repeat case_bool_decide; cbn [fst snd] in *;
      try lia; done.
Qed.

Lemma mutation_effect_witness :
  let a := replicate 20 [4; 3; 2; 1] in
  let r := mutation_target 10 in
  let point := (4 + 1) / 2 in
  1 ≤ r < POPULATION ∧
  ∃ a', mutation 4 a 10 = Ok a' ∧ shape 4 a' ∧
        (∀ r' : nat, Z.of_nat r' ≠ r → a' !! r' = a !! r') ∧
        ∀ c, 0 ≤ c < 4 →
          cell a' r c =
            if bool_decide (r > 10) then
              if bool_decide (c < point) then 1
              else if bool_decide (c = point) then 2 else cell a r c
            else
              if bool_decide (c = point + 10) then 2
              else if bool_decide (point ≤ c < 4 - 10) then 1 else cell a r c.
Proof.
  apply (mutation_effect 4 (replicate 20 [4; 3; 2; 1]) 10).
  - apply shapeb_spec. vm_compute. reflexivity.
  - lia.
  - left. split; [lia | vm_compute; reflexivity].
Defined.

Lemma mutation_in_range (n : Z) (a : matrix) (rv : Z) :
  24 ≤ n → shape n a → Forall (in_range n) a → 0 ≤ rv →
  ∃ a', mutation n a rv = Ok a' ∧ shape n a' ∧ Forall (in_range n) a' ∧
        a' !! 0%nat = a !! 0%nat.
Proof.
  intros Hn Ha Hin Hrv.
  pose proof (mutation_target_range rv Hrv) as Hr.
  assert (Hpt : mutation_point n = (n + 1) / 2) by (apply mutation_point_ceil; lia).
  destruct (mutation_cells n a rv Ha Hrv) as (a' & Hrun & Ha' & Hmark & Hcell).
  { destruct (decide (mutation_target rv > Z.quot POPULATION 2)); [left | right];
      split; lia. }
  exists a'. split; [done |]. split; [done |]. split.
  - apply (in_range_cells n a' Ha'). intros r c Hrr Hc.
    pose proof (proj1 (in_range_cells n a Ha) Hin r c Hrr Hc) as Hold.
    rewrite Hcell by lia.
    unfold mutation_marker, mutation_ones in *. rewrite Hpt in *.
    repeat case_bool_decide; cbn [fst snd] in *; try lia;
      subst; Z.div_mod_to_equations; lia.
  - apply (mutation_other_rows n a a' rv 0); [done | done | done |]. simpl. lia.
Qed.

(** X11.  From 24 nodes on, [mutation] keeps the range invariant in
    both branches: a gene set to 1 is always in range, and the marker
    2 lands on a column [j] with [n - j >= 2].  It ends normally and
    individual 0 is untouched. *)
Theorem mutation_keeps_range (n : Z) (a : matrix) (rv : Z) :
  24 ≤ n → shape n a → Forall (in_range n) a → 0 ≤ rv →
  ∃ a', mutation n a rv = Ok a' ∧ shape n a' ∧ Forall (in_range n) a' ∧
        a' !! 0%nat = a !! 0%nat.
Proof.
  intros Hn Ha Hin Hrv.
  destruct (mutation_in_range n a rv Hn Ha Hin Hrv) as (a' & Hrun & Ha' & Hin' & H0).
  exists a'. split; [exact Hrun |]. split; [exact Ha' |]. split; [exact Hin' | exact H0].
Qed.

Lemma mutation_keeps_range_witness :
  ∃ a', mutation 24 (replicate 20 (replicate 24 1)) 3 = Ok a' ∧ shape 24 a' ∧
        Forall (in_range 24) a' ∧
        a' !! 0%nat = replicate 20 (replicate 24 1) !! 0%nat.
Proof.
  apply (mutation_keeps_range 24 (replicate 20 (replicate 24 1)) 3).
  - lia.
  - apply shapeb_spec. vm_compute. reflexivity.
  - apply in_rangeb_all. vm_compute. reflexivity.
  - lia.
Defined.

(** ** The first population *)

Lemma create_matrix_spec (w : world) (n : Z) (a : matrix) (pos : nat) :
  1 ≤ n → shape n a →
  ∃ a', create_matrix w n a pos = Ok (a', (pos + Z.to_nat (POPULATION * n))%nat) ∧
        shape n a' ∧
        ∀ r c, 0 ≤ r < POPULATION → 0 ≤ c < n → cell a' r c = drawn_gene w n pos r c.
Proof.
  intros Hn Ha. unfold create_matrix.
  destruct (for_loop_inv
    (λ i (st : matrix * nat),
       shape n st.1 ∧ st.2 = (pos + Z.to_nat (i * n))%nat ∧
       ∀ r c, 0 ≤ r < POPULATION → 0 ≤ c < n →
         cell st.1 r c = if bool_decide (r < i) then drawn_gene w n pos r c
                         else cell a r c)
    0 POPULATION
    (λ i st,
       for_loop 0 n
         (λ j '(a, pos),
            a ← mstore a i j (Z.rem (rand w pos) (n - j) + 1);
            Ok (a, S pos)) st)
    (a, pos)) as ([a' pos'] & Hrun & Ha' & Hpos & Hcell).
  - done.
  - simpl. split; [done |]. split; [lia |].
    intros r c Hr Hc. rewrite bool_decide_eq_false_2 by lia. done.
  - intros i [a0 p0] Hi (Ha0 & Hp0 & Hc0). simpl in Ha0, Hp0, Hc0.
    destruct (for_loop_inv
      (λ j (st : matrix * nat),
         shape n st.1 ∧ st.2 = (pos + Z.to_nat (i * n + j))%nat ∧
         ∀ r c, 0 ≤ r < POPULATION → 0 ≤ c < n →
           cell st.1 r c = if bool_decide (r < i ∨ (r = i ∧ c < j))
                           then drawn_gene w n pos r c else cell a r c)
      0 n
      (λ j '(a, pos),
         a ← mstore a i j (Z.rem (rand w pos) (n - j) + 1);
         Ok (a, S pos))
      (a0, p0)) as ([a1 p1] & Hrun1 & Ha1 & Hp1 & Hc1).
    + lia.
    + simpl. split; [done |]. split; [rewrite Hp0; f_equal; f_equal; lia |].
      intros r c Hr Hc. rewrite (Hc0 r c Hr Hc).
      repeat case_bool_decide; try lia; done.
    + intros j [a2 p2] Hj (Ha2 & Hp2 & Hc2). simpl in Ha2, Hp2, Hc2.
      destruct (mstore_cell n a2 i j (Z.rem (rand w p2) (n - j) + 1) Ha2)
        as (a3 & Hs & Ha3 & Hc3); [lia | lia |].
      rewrite Hs. simpl. eexists. split; [reflexivity |]. simpl.
      split; [done |]. split; [rewrite Hp2; nia |].
      intros r c Hr Hc. rewrite Hc3 by lia. rewrite (Hc2 r c Hr Hc).
      case_decide as Hrc.
      * destruct Hrc as [-> ->]. rewrite bool_decide_eq_true_2 by lia.
        unfold drawn_gene. by rewrite Hp2.
      * repeat case_bool_decide; try lia; done.
    + rewrite Hrun1. eexists. split; [reflexivity |]. simpl in *.
      split; [done |]. split; [rewrite Hp1; f_equal; f_equal; lia |].
      intros r c Hr Hc. rewrite (Hc1 r c Hr Hc).
      repeat case_bool_decide; try lia; done.
  - simpl in *. exists a'. rewrite Hrun, Hpos. split; [done |]. split; [done |].
    intros r c Hr Hc. rewrite (Hcell r c Hr Hc).
    rewrite bool_decide_eq_true_2 by lia. done.
Qed.

Lemma drawn_gene_in_range (w : world) (n : Z) (pos : nat) (r c : Z) :
  (∀ p, 0 ≤ rand w p) → 0 ≤ c < n → 1 ≤ drawn_gene w n pos r c ≤ n - c.
Proof.
  intros Hrand Hc. unfold drawn_gene.
  pose proof (Hrand (pos + Z.to_nat (r * n + c))%nat) as H0.
  pose proof (Z.rem_bound_pos (rand w (pos + Z.to_nat (r * n + c))%nat) (n - c) H0)
    as Hb.
  lia.
Qed.

(** X14.  [create_matrix] fills every gene [j] of every chromosome
    with [rand() % (n - j) + 1], in row order, one call of [rand()]
    per gene: as [rand()] returns no negative value, the first
    population satisfies the range invariant, and POPULATION * n calls
    of [rand()] are made. *)
Theorem create_matrix_in_range (w : world) (n : Z) (a : matrix) (pos : nat) :
  1 ≤ n → shape n a → (∀ p, 0 ≤ rand w p) →
  ∃ a', create_matrix w n a pos = Ok (a', (pos + Z.to_nat (POPULATION * n))%nat) ∧
        shape n a' ∧ Forall (in_range n) a' ∧
        ∀ r c, 0 ≤ r < POPULATION → 0 ≤ c < n →
          cell a' r c = Z.rem (rand w (pos + Z.to_nat (r * n + c))%nat) (n - c) + 1.
Proof.
  intros Hn Ha Hrand.
  destruct (create_matrix_spec w n a pos Hn Ha) as (a' & Hrun & Ha' & Hcell).
  exists a'. split; [done |]. split; [done |]. split; [| exact Hcell].
  apply (in_range_cells n a' Ha'). intros r c Hr Hc.
  rewrite Hcell by done. by apply drawn_gene_in_range.
Qed.

Lemma create_matrix_in_range_witness :
  let w := {| rand := λ p, Z.of_nat p; cpu_time := seconds; stack_words := [] |} in
  ∃ a', create_matrix w 3 (replicate 20 [0; 0; 0]) 0
          = Ok (a', (0 + Z.to_nat (POPULATION * 3))%nat) ∧
        shape 3 a' ∧ Forall (in_range 3) a' ∧
        ∀ r c, 0 ≤ r < POPULATION → 0 ≤ c < 3 →
          cell a' r c = Z.rem (rand w (0 + Z.to_nat (r * 3 + c))%nat) (3 - c) + 1.
Proof.
  intros w. apply (create_matrix_in_range w 3 (replicate 20 [0; 0; 0]) 0).
  - lia.
  - apply shapeb_spec. vm_compute. reflexivity.
  - intros p. simpl. lia.
Defined.

Lemma identity_tour (b : list Z) (n : Z) :
  Z.of_nat (length b) = n →
  for_loop 0 n (λ i b, store b i i) b = Ok (seqZ 0 n).
Proof.
  intros Hn.
  destruct (for_loop_inv
    (λ j (l : list Z), length l = length b ∧
       ∀ p : nat, Z.of_nat p < j → l !! p = Some (Z.of_nat p))
    0 n (λ i b, store b i i) b) as (l & Hl & Hlen & Hp).
  - lia.
  - split; [done |]. intros p Hp. lia.
  - intros j l Hj [Hlen Hp]. rewrite store_in by lia.
    eexists. split; [reflexivity |]. split; [by rewrite length_insert |].
    intros p Hlt. destruct (decide (p = Z.to_nat j)) as [-> | Hne].
    + rewrite list_lookup_insert_eq by lia. f_equal. lia.
    + rewrite list_lookup_insert_ne by done. apply Hp. lia.
  - rewrite Hl. f_equal. apply list_eq. intros p.
    destruct (decide (Z.of_nat p < n)) as [Hlt | Hge].
    + rewrite Hp by done. by rewrite lookup_seqZ_lt.
    + rewrite lookup_seqZ_ge by lia. apply lookup_ge_None_2. lia.
Qed.

Lemma zeros_shape (n : Z) :
  0 ≤ n → shape n (replicate (Z.to_nat POPULATION) (replicate (Z.to_nat n) 0)).
Proof.
  intros Hn. split; [rewrite length_replicate; unfold POPULATION; lia |].
  apply Forall_replicate. cbv beta. rewrite length_replicate. lia.
Qed.

Lemma search_start_spec (w : world) (t : TSPdata) (v : Vdata) :
  1 ≤ tsp_n t → Z.of_nat (length (bestsol v)) = tsp_n t → (∀ p, 0 ≤ rand w p) →
  ∃ s, search_start w t v = Ok (s, seqZ 0 (tsp_n t)) ∧
       shape (tsp_n t) (gene s) ∧ Forall (in_range (tsp_n t)) (gene s) ∧
       gene s !! 0%nat = Some (replicate (Z.to_nat (tsp_n t)) 1) ∧
       shape (tsp_n t) (route s) ∧
       Z.of_nat (length (fitness s)) = POPULATION ∧
       gene_tmp s = stack_words w ∧
       rand_calls s = Z.to_nat (POPULATION * tsp_n t) ∧ time_calls s = O.
Proof.
  intros Hn Hbest Hrand. unfold search_start. set (n := tsp_n t) in *.
  pose proof (zeros_shape n ltac:(lia)) as Hz.
  destruct (create_matrix_spec w n _ O Hn Hz) as (g & Hrun & Hg & Hcell).
  rewrite Hrun. simpl.
  destruct (ones_run n g 0 0 n Hg) as (g1 & Hones & Hg1 & Hc1);
    [unfold POPULATION; lia | lia | lia |].
  rewrite Hones. simpl. rewrite identity_tour by done. simpl.
  eexists. split; [reflexivity |]. simpl.
  split; [done |]. split.
  { apply (in_range_cells n g1 Hg1). intros r c Hr Hc.
    rewrite Hc1 by lia. case_bool_decide; [lia |].
    rewrite Hcell by done. by apply drawn_gene_in_range. }
  split.
  { pose proof Hg1 as [Hl1 Hr1].
    destruct (lookup_lt_is_Some_2 g1 0%nat) as [row Hrow];
      [unfold POPULATION in *; lia |].
    rewrite Hrow. f_equal.
    pose proof (Forall_lookup_1 _ _ _ _ Hr1 Hrow) as Hlen. simpl in Hlen.
    apply (rows_eq_cells n); [done | rewrite length_replicate; lia |].
    intros c Hc.
    pose proof (Hc1 0 c ltac:(lia) ltac:(lia)) as H0.
    rewrite bool_decide_eq_true_2 in H0 by lia.
    unfold cell in H0. change (Z.to_nat 0) with O in H0.
    rewrite (list_lookup_total_correct _ _ _ Hrow) in H0. rewrite H0.
    symmetry. apply list_lookup_total_correct. apply lookup_replicate_2. lia. }
  split; [done |].
  split; [| done].
  first [done | rewrite length_replicate; unfold POPULATION; lia].
Qed.

Lemma pick_ones (acc l : list Z) :
  foldl pick_step (acc, l) (replicate (length l) 1) = (acc ++ l, []).
Proof.
  revert acc. induction l as [|x l IH]; intros acc; simpl.
  - by rewrite app_nil_r.
  - unfold pick_step at 2. simpl. rewrite IH. by rewrite <- app_assoc.
Qed.

Lemma decode_ones (n : Z) : decode n (replicate (Z.to_nat n) 1) = seqZ 1 n.
Proof.
  unfold decode, pick_all.
  rewrite <- (length_seqZ 1 n). by rewrite pick_ones.
Qed.

(** X15.  Up to its loop [genetic_algorithm] prepares a population
    that satisfies the range invariant, whose individual 0 is the
    identity chromosome [1, 1, ..., 1] (it decodes to the labels
    [1, 2, ..., n]), and sets the best-solution record to the identity
    tour [0, 1, ..., n-1]; [gene_tmp] is left as the stack holds it,
    and POPULATION * n calls of [rand()] have been made. *)
Theorem search_starts_valid (w : world) (t : TSPdata) (v : Vdata) :
  1 ≤ tsp_n t → Z.of_nat (length (bestsol v)) = tsp_n t → (∀ p, 0 ≤ rand w p) →
  ∃ s, search_start w t v = Ok (s, seqZ 0 (tsp_n t)) ∧
       shape (tsp_n t) (gene s) ∧ Forall (in_range (tsp_n t)) (gene s) ∧
       gene s !! 0%nat = Some (replicate (Z.to_nat (tsp_n t)) 1) ∧
       decode (tsp_n t) (replicate (Z.to_nat (tsp_n t)) 1) = seqZ 1 (tsp_n t) ∧
       gene_tmp s = stack_words w ∧
       rand_calls s = Z.to_nat (POPULATION * tsp_n t) ∧ time_calls s = O.
Proof.
  intros Hn Hbest Hrand.
  destruct (search_start_spec w t v Hn Hbest Hrand)
    as (s & Hrun & Hg & Hin & H0 & _ & _ & Htmp & Hcalls & Htime).
  exists s. split; [done |]. split; [done |]. split; [done |]. split; [done |].
  split; [apply decode_ones | done].
Qed.

Lemma search_starts_valid_witness :
  let w := {| rand := λ p, Z.of_nat p; cpu_time := seconds; stack_words := [] |} in
  let v := {| starttime := 0%Q; bestsol := [0; 0; 0] |} in
  ∃ s, search_start w line3 v = Ok (s, seqZ 0 (tsp_n line3)) ∧
       shape (tsp_n line3) (gene s) ∧ Forall (in_range (tsp_n line3)) (gene s) ∧
       gene s !! 0%nat = Some (replicate (Z.to_nat (tsp_n line3)) 1) ∧
       decode (tsp_n line3) (replicate (Z.to_nat (tsp_n line3)) 1)
         = seqZ 1 (tsp_n line3) ∧
       gene_tmp s = stack_words w ∧
       rand_calls s = Z.to_nat (POPULATION * tsp_n line3) ∧ time_calls s = O.
Proof.
  intros w v. apply (search_starts_valid w line3 v).
  - simpl. lia.
  - reflexivity.
  - intros p. simpl. lia.
Defined.

(** ** The cost oracle *)

Lemma visited_part_app (l1 l2 : list Z) :
  Forall (λ x, 0 ≤ x) l1 → visited_part (l1 ++ l2) = l1 ++ visited_part l2.
Proof.
  induction 1 as [|x l1 Hx _ IH]; [done |].
  simpl. rewrite bool_decide_eq_false_2 by lia. by rewrite IH.
Qed.

Lemma visited_part_take (tour : list Z) (k : nat) :
  Forall (λ x, 0 ≤ x) (take k tour) →
  visited_part tour = take k tour ++ visited_part (drop k tour).
Proof.
  intros H. rewrite <- (take_drop k tour) at 1. by apply visited_part_app.
Qed.

Lemma visited_part_nonneg (tour : list Z) : Forall (λ x, 0 ≤ x) (visited_part tour).
Proof.
  induction tour as [|x tour IH]; simpl; [constructor |].
  case_bool_decide; constructor; [lia | done].
Qed.

Lemma path_cost_snoc (d : Z → Z → Z) (l : list Z) (x y : Z) :
  path_cost d (l ++ [x; y]) = path_cost d (l ++ [x]) + d x y.
Proof.
  induction l as [|z l IH]; simpl; [lia |].
  destruct l as [|z' l]; simpl in *; [lia |]. rewrite IH. lia.
Qed.

Lemma visited_init (n : Z) :
  for_loop 0 n (λ k v, store v k 0) (replicate (Z.to_nat n) 0)
  = Ok (replicate (Z.to_nat n) 0).
Proof.
  destruct (decide (0 ≤ n)) as [Hn | Hn]; [| by rewrite for_loop_empty by lia].
  destruct (for_loop_inv (λ _ (l : list Z), l = replicate (Z.to_nat n) 0)
    0 n (λ k v, store v k 0) (replicate (Z.to_nat n) 0)) as (l & Hl & ->);
    [lia | done | | done].
  intros j l Hj ->. rewrite store_in by (rewrite length_replicate; lia).
  eexists. split; [reflexivity |]. apply insert_replicate.
Qed.

Lemma is_feasible_spec (pol : policy) (t : TSPdata) (tour : list Z) :
  Z.of_nat (length tour) = tsp_n t →
  ∃ flag, is_feasible pol t tour = Ok flag ∧ (flag = 0 ∨ flag = 1) ∧
    (flag = 1 ↔
     Forall (λ x, x < tsp_n t) (visited_part tour) ∧ NoDup (visited_part tour) ∧
     min_node_num t ≤ Z.of_nat (length (visited_part tour))).
Proof.
  intros Hlen. unfold is_feasible. set (n := tsp_n t) in *.
  rewrite visited_init. simpl.
  set (V := visited_part tour).
  set (I := λ s : Z * list Z * Z * Z,
    let '(k, visited, flag, num) := s in
    flag = 1 ∧ 0 ≤ k ≤ n ∧ num = k ∧
    Forall (λ x, 0 ≤ x < n) (take (Z.to_nat k) tour) ∧
    NoDup (take (Z.to_nat k) tour) ∧
    Z.of_nat (length visited) = n ∧
    ∀ p, 0 ≤ p < n →
      visited !! Z.to_nat p
      = Some (if decide (p ∈ take (Z.to_nat k) tour) then 1 else 0)).
  set (Q := λ s : Z * list Z * Z * Z,
    let '(_, _, flag, num) := s in
    (flag = 1 ∧ num = Z.of_nat (length V) ∧ Forall (λ x, x < n) V ∧ NoDup V) ∨
    (flag = 0 ∧ ¬ (Forall (λ x, x < n) V ∧ NoDup V))).
  match goal with |- context [while_loop ?f ?c ?b ?s0] =>
    destruct (while_loop_break_inv I Q (λ s, Z.to_nat (n - s.1.1.1)) c b f s0)
      as ([[[k vis] flag] num] & Hw & HQ) end.
  - intros [[[k vis] flag] num] (Hflag & Hk & Hnum & Hrange & Hnd & Hvl & Hvis) Hc.
    simpl in Hc. apply bool_decide_eq_true in Hc. simpl.
    split; [lia |].
    destruct (lookup_lt_is_Some_2 tour (Z.to_nat k)) as [tk Htk]; [lia |].
    rewrite (load_in pol tour k tk) by (done || lia). simpl.
    assert (Hnn : Forall (λ x, 0 ≤ x) (take (Z.to_nat k) tour)).
    { eapply Forall_weaken; [exact Hrange |]. intros x Hx. simpl in Hx. lia. }
    assert (HV : V = take (Z.to_nat k) tour
                     ++ visited_part (tk :: drop (S (Z.to_nat k)) tour)).
    { unfold V. rewrite (visited_part_take tour (Z.to_nat k) Hnn).
      by rewrite (drop_S tour tk _ Htk). }
    case_bool_decide as Hneg.
    { eexists. split; [reflexivity |]. simpl. left.
      simpl in HV. rewrite bool_decide_eq_true_2 in HV by done.
      rewrite app_nil_r in HV. rewrite HV.
      split; [done |]. split; [rewrite length_take; lia |]. split; [| done].
      eapply Forall_weaken; [exact Hrange |]. intros x Hx. simpl in Hx. lia. }
    simpl in HV. rewrite bool_decide_eq_false_2 in HV by done.
    case_bool_decide as Hbig.
    { eexists. split; [reflexivity |]. simpl. right. split; [done |].
      intros [HF _]. rewrite HV in HF. apply Forall_app in HF. destruct HF as [_ HF].
      apply Forall_cons in HF. destruct HF as [HF _]. lia. }
    rewrite (load_in pol vis tk _ ltac:(lia) (Hvis tk ltac:(lia))). simpl.
    destruct (decide (tk ∈ take (Z.to_nat k) tour)) as [Hin | Hnin].
    { rewrite bool_decide_eq_true_2 by done.
      eexists. split; [reflexivity |]. simpl. right. split; [done |].
      intros [_ HN]. rewrite HV in HN. apply NoDup_app in HN.
      destruct HN as (_ & HN & _). apply (HN tk Hin). left. }
    rewrite bool_decide_eq_false_2 by (intros H; apply H; done).
    rewrite store_in by lia. simpl.
    eexists. split; [reflexivity |]. simpl.
    replace (Z.to_nat (k + 1)) with (S (Z.to_nat k)) by lia.
    rewrite (take_S_r tour _ tk Htk).
    split; [| lia].
    split; [done |]. split; [lia |]. split; [lia |].
    split; [apply Forall_app; split; [done | constructor; [lia | constructor]] |].
    split.
    { apply NoDup_app. split; [done |]. split; [| apply NoDup_singleton].
      intros x Hx Hx'. apply list_elem_of_singleton in Hx'. by subst x. }
    split; [by rewrite length_insert |].
    intros p Hp. destruct (decide (p = tk)) as [-> | Hne].
    + rewrite list_lookup_insert_eq by lia.
      rewrite decide_True; [done |]. apply elem_of_app. right. by left.
    + rewrite list_lookup_insert_ne by lia. rewrite (Hvis p Hp).
      destruct (decide (p ∈ take (Z.to_nat k) tour)) as [Hpin | Hpnin].
      * rewrite decide_True; [done |]. apply elem_of_app. by left.
      * rewrite decide_False; [done |]. intros Hin. apply elem_of_app in Hin.
        destruct Hin as [? | Hin]; [done |].
        apply list_elem_of_singleton in Hin. done.
  - intros [[[k vis] flag] num] (Hflag & Hk & Hnum & Hrange & Hnd & Hvl & Hvis) Hc.
    simpl in Hc. apply bool_decide_eq_false in Hc. simpl. left.
    assert (k = n) as -> by lia.
    rewrite take_ge in Hrange, Hnd by lia.
    assert (HV : V = tour).
    { unfold V. rewrite <- (app_nil_r tour) at 1. rewrite visited_part_app.
      - by rewrite app_nil_r.
      - eapply Forall_weaken; [exact Hrange |]. intros x Hx. simpl in Hx. lia. }
    rewrite HV. split; [done |]. split; [lia |]. split; [| done].
    eapply Forall_weaken; [exact Hrange |]. intros x Hx. simpl in Hx. lia.
  - simpl. split; [done |]. split; [lia |]. split; [done |].
    split; [constructor |]. split; [constructor |].
    split; [rewrite length_replicate; lia |].
    intros p Hp. apply lookup_replicate_2. lia.
  - simpl. lia.
  - rewrite Hw. simpl. eexists. split; [reflexivity |].
    simpl in HQ. fold V.
    destruct HQ as [(-> & -> & HF & HN) | (-> & Hbad)].
    + case_bool_decide as Hmin.
      * split; [by left |]. split; [done |]. intros (_ & _ & Hge). lia.
      * split; [by right |]. split; [| done]. intros _.
        split; [done |]. split; [done | lia].
    + split; [case_bool_decide; by left |].
      split; [case_bool_decide; done |]. intros (HF & HN & _). by destruct Hbad.
Qed.

Lemma dist_in (pol : policy) (t : TSPdata) (k l : Z) :
  0 ≤ k < tsp_n t → 0 ≤ l < tsp_n t → dist pol t k l = Ok (tsp_dist t k l).
Proof.
  intros Hk Hl. unfold dist.
  by rewrite !bool_decide_eq_true_2 by lia.
Qed.

Lemma compute_cost_spec (pol : policy) (t : TSPdata) (tour : list Z) :
  Z.of_nat (length tour) = tsp_n t →
  visited_part tour ≠ [] →
  Forall (λ x, x < tsp_n t) (visited_part tour) →
  compute_cost pol t tour = Ok (cycle_cost (tsp_dist t) (visited_part tour)).
Proof.
  intros Hlen Hne Hlt. unfold compute_cost. set (n := tsp_n t) in *.
  set (V := visited_part tour) in *.
  assert (HVr : Forall (λ x, 0 ≤ x < n) V).
  { pose proof (visited_part_nonneg tour) as Hnn. fold V in Hnn.
    clear Hne. induction V as [|x V IH]; [constructor |].
    apply Forall_cons in Hnn, Hlt. destruct Hnn, Hlt.
    constructor; [lia | by apply IH]. }
  assert (Hhead : ∃ x0, tour !! 0%nat = Some x0 ∧ 0 ≤ x0 ∧ head V = Some x0).
  { unfold V in *. destruct tour as [|x0 rest]; [done |]. simpl in *.
    case_bool_decide; [done |]. exists x0. split; [done |]. split; [lia | done]. }
  destruct Hhead as (x0 & Htour & Hx0 & Hhd).
  assert (Hn : 1 ≤ n) by (apply lookup_lt_Some in Htour; lia).
  set (I := λ s : Z * Z,
    0 ≤ s.1 ≤ n - 1 ∧
    Forall (λ x, 0 ≤ x) (take (S (Z.to_nat s.1)) tour) ∧
    s.2 = path_cost (tsp_dist t) (take (S (Z.to_nat s.1)) tour)).
  set (Q := λ s : Z * Z,
    0 ≤ s.1 ≤ n - 1 ∧
    V = take (S (Z.to_nat s.1)) tour ∧
    s.2 = path_cost (tsp_dist t) V).
  match goal with |- context [while_loop ?f ?c ?b ?s0] =>
    destruct (while_loop_break_inv I Q (λ s, Z.to_nat (n - 1 - s.1)) c b f s0)
      as ([k cost] & Hw & Hk & HV & Hcost) end.
  - intros [k cost] (Hk & Hnn & Hcost) Hc. cbn [fst snd] in *.
    apply bool_decide_eq_true in Hc. split; [lia |].
    destruct (lookup_lt_is_Some_2 tour (S (Z.to_nat k))) as [t1 Ht1]; [lia |].
    destruct (lookup_lt_is_Some_2 tour (Z.to_nat k)) as [t0 Ht0]; [lia |].
    rewrite (load_in pol tour (k + 1) t1)
      by (lia || by replace (Z.to_nat (k + 1)) with (S (Z.to_nat k)) by lia).
    simpl.
    assert (HV : V = take (S (Z.to_nat k)) tour
                     ++ visited_part (t1 :: drop (S (S (Z.to_nat k))) tour)).
    { unfold V. rewrite (visited_part_take tour (S (Z.to_nat k)) Hnn).
      by rewrite (drop_S tour t1 _ Ht1). }
    case_bool_decide as Hneg.
    { eexists. split; [reflexivity |]. unfold Q. cbn [fst snd].
      simpl in HV. rewrite bool_decide_eq_true_2 in HV by done.
      rewrite app_nil_r in HV. split; [lia |]. split; [done |]. by rewrite HV. }
    simpl in HV. rewrite bool_decide_eq_false_2 in HV by done.
    rewrite (load_in pol tour k t0) by (done || lia). simpl.
    assert (Ht0r : 0 ≤ t0 < n).
    { rewrite HV in HVr. apply Forall_app in HVr. destruct HVr as [HVr _].
      rewrite (take_S_r tour _ t0 Ht0) in HVr. apply Forall_app in HVr.
      destruct HVr as [_ HVr]. apply Forall_cons in HVr. by destruct HVr. }
    assert (Ht1r : 0 ≤ t1 < n).
    { rewrite HV in HVr. apply Forall_app in HVr. destruct HVr as [_ HVr].
      apply Forall_cons in HVr. by destruct HVr. }
    rewrite (dist_in pol t t0 t1) by done. simpl.
    eexists. split; [reflexivity |]. unfold I. cbn [fst snd].
    replace (Z.to_nat (k + 1)) with (S (Z.to_nat k)) by lia.
    split; [| lia]. split; [lia |].
    rewrite (take_S_r tour (S (Z.to_nat k)) t1 Ht1).
    split; [apply Forall_app; split; [done | constructor; [lia | constructor]] |].
    rewrite Hcost. rewrite (take_S_r tour _ t0 Ht0).
    rewrite <- (assoc_L (++)). simpl. by rewrite path_cost_snoc.
  - intros [k cost] (Hk & Hnn & Hcost) Hc. cbn [fst snd] in *.
    apply bool_decide_eq_false in Hc. unfold Q. cbn [fst snd].
    assert (k = n - 1) as -> by lia.
    rewrite take_ge in Hnn, Hcost |- * by lia.
    assert (HV : V = tour).
    { unfold V. rewrite <- (app_nil_r tour) at 1. rewrite visited_part_app by done.
      by rewrite app_nil_r. }
    split; [lia |]. split; [done |]. by rewrite HV.
  - unfold I. cbn [fst snd]. change (Z.to_nat 0) with 0%nat.
    rewrite (take_S_r tour 0 x0 Htour). rewrite take_0. simpl.
    split; [lia |]. split; [constructor; [done | constructor] | done].
  - cbn [fst snd]. lia.
  - cbn [fst snd] in *. rewrite Hw. simpl.
    destruct (lookup_lt_is_Some_2 tour (Z.to_nat k)) as [tk Htk]; [lia |].
    rewrite (load_in pol tour k tk) by (done || lia). simpl.
    rewrite (load_in pol tour 0 x0) by (lia || done). simpl.
    assert (HVk : V = take (Z.to_nat k) tour ++ [tk]).
    { rewrite HV. by apply take_S_r. }
    assert (Htkr : 0 ≤ tk < n).
    { rewrite HVk in HVr. apply Forall_app in HVr. destruct HVr as [_ HVr].
      apply Forall_cons in HVr. by destruct HVr. }
    assert (Hx0r : 0 ≤ x0 < n).
    { destruct V as [|y V']; [done |]. simpl in Hhd.
      apply Forall_cons in HVr. destruct HVr. congruence. }
    rewrite (dist_in pol t tk x0) by done. simpl.
    unfold cycle_cost. rewrite Hhd. rewrite HVk at 2. rewrite last_snoc. simpl.
    by rewrite Hcost.
Qed.

(** X18.  A tour whose first entry is negative (no node visited) makes
    [compute_cost] take that entry as a node: the macro [dist] reads
    the coordinate arrays at a negative index. *)
Theorem compute_cost_empty_tour (t : TSPdata) (tour : list Z) (x : Z) :
  Z.of_nat (length tour) = tsp_n t → head tour = Some x → x < 0 →
  compute_cost Checked t tour = Oob x.
Proof.
  intros Hlen Hhead Hx. destruct tour as [|x0 rest]; [done |].
  injection Hhead as ->. unfold compute_cost.
  assert (Hd : ∀ l, dist Checked t x l = Oob x).
  { intros l. unfold dist. by rewrite bool_decide_eq_false_2 by lia. }
  assert (H0 : load Checked (x :: rest) 0 = Ok x).
  { by apply load_in. }
  destruct (Z.to_nat (tsp_n t)) as [|f] eqn:Hf; [simpl in Hlen; lia |].
  cbn [while_loop]. case_bool_decide as Hc.
  - destruct rest as [|t1 rest]; [simpl in Hlen; lia |].
    assert (H1 : load Checked (x :: t1 :: rest) (0 + 1) = Ok t1).
    { by apply load_in. }
    rewrite H1. cbn [mbind outcome_bind]. case_bool_decide.
    + cbn [mbind outcome_bind]. rewrite H0. cbn [mbind outcome_bind].
      by rewrite Hd.
    + rewrite H0. cbn [mbind outcome_bind]. by rewrite Hd.
  - cbn [mbind outcome_bind]. rewrite H0. cbn [mbind outcome_bind]. by rewrite Hd.
Qed.

Lemma compute_cost_empty_tour_witness :
  compute_cost Checked rect4 [-1; -1; -1; -1] = Oob (-1).
Proof.
  apply (compute_cost_empty_tour rect4 [-1; -1; -1; -1] (-1)).
  - reflexivity.
  - reflexivity.
  - lia.
Defined.

(** ** evaluate_route *)

(** The loop that turns a row of labels [1..n] into a tour of nodes
    [0..n-1]. *)
Lemma labels_to_nodes (pol : policy) (n r : Z) (m : matrix) (row b : list Z) :
  0 ≤ r → m !! Z.to_nat r = Some row →
  Z.of_nat (length row) = n → Z.of_nat (length b) = n →
  for_loop 0 n (λ j b, v ← mload pol m r j; store b j (v - 1)) b
  = Ok ((λ v, v - 1) <$> row).
Proof.
  intros Hr Hrow Hlr Hlb.
  destruct (for_loop_inv
    (λ j (b' : list Z), Z.of_nat (length b') = n ∧
       take (Z.to_nat j) b' = (λ v, v - 1) <$> take (Z.to_nat j) row)
    0 n (λ j b, v ← mload pol m r j; store b j (v - 1)) b)
    as (b' & Hb' & Hl & Ht); [lia | by split | |].
  - intros j b' Hj [Hl Ht].
    destruct (lookup_lt_is_Some_2 row (Z.to_nat j)) as [v Hv]; [lia |].
    rewrite (mload_in pol m r j row v) by (done || lia). simpl.
    rewrite store_in by lia. eexists. split; [reflexivity |].
    split; [by rewrite length_insert |].
    replace (Z.to_nat (j + 1)) with (S (Z.to_nat j)) by lia.
    rewrite (take_S_r row _ v Hv).
    rewrite (take_S_r (<[Z.to_nat j := v - 1]> b') _ (v - 1))
      by (apply list_lookup_insert_eq; lia).
    rewrite take_insert_ge by lia. rewrite Ht. by rewrite fmap_app.
  - rewrite Hb'. f_equal. rewrite !take_ge in Ht by lia. done.
Qed.

Lemma zero_fitness (a : list Z) :
  Z.of_nat (length a) = POPULATION →
  ∃ a', for_loop 0 POPULATION (λ i a, store a i 0) a = Ok a' ∧
        Z.of_nat (length a') = POPULATION.
Proof.
  intros Hl.
  destruct (for_loop_inv (λ _ (l : list Z), Z.of_nat (length l) = POPULATION)
    0 POPULATION (λ i a, store a i 0) a) as (l & Hl' & HI);
    [unfold POPULATION; lia | done | | by exists l].
  intros j l Hj Hlen. rewrite store_in by lia.
  eexists. split; [reflexivity |]. by rewrite length_insert.
Qed.

Lemma evaluate_route_spec (pol : policy) (t : TSPdata) (route : matrix) (a : list Z) :
  shape (tsp_n t) route → Forall (costable (tsp_n t)) route →
  Z.of_nat (length a) = POPULATION →
  evaluate_route pol t (tsp_n t) route a = Ok (route_cost t <$> route).
Proof.
  intros [Hrows Hcols] Hcost Hla. unfold evaluate_route. set (n := tsp_n t) in *.
  destruct (zero_fitness a Hla) as (a0 & -> & Hla0). simpl.
  assert (Hn : 0 ≤ n).
  { destruct route as [|row route]; [unfold POPULATION in Hrows; simpl in Hrows; lia |].
    apply Forall_cons in Hcols. destruct Hcols as [Hc _]. lia. }
  destruct (for_loop_inv
    (λ i (st : list Z * list Z),
       Z.of_nat (length st.1) = POPULATION ∧ Z.of_nat (length st.2) = n ∧
       take (Z.to_nat i) st.1 = route_cost t <$> take (Z.to_nat i) route)
    0 POPULATION
    (λ i '(a, b),
       b ← for_loop 0 n (λ j b, v ← mload pol route i j; store b j (v - 1)) b;
       cost ← compute_cost pol t b;
       a ← store a i cost;
       Ok (a, b))
    (a0, replicate (Z.to_nat n) 0))
    as ([a' b'] & -> & Hl & _ & Ht).
  - unfold POPULATION. lia.
  - cbn [fst snd]. split; [done |]. split; [rewrite length_replicate; lia | done].
  - intros i [a1 b1] Hi (Hl1 & Hl2 & Ht). cbn [fst snd] in *.
    destruct (lookup_lt_is_Some_2 route (Z.to_nat i)) as [row Hrow]; [lia |].
    assert (Hlr : Z.of_nat (length row) = n).
    { eapply Forall_lookup_1 in Hcols; [| exact Hrow]. done. }
    assert (Hc : costable n row).
    { eapply Forall_lookup_1 in Hcost; [| exact Hrow]. done. }
    rewrite (labels_to_nodes pol n i route row b1) by (done || lia). simpl.
    destruct Hc as [Hne Hlt].
    rewrite compute_cost_spec; [| by rewrite length_fmap | done | done]. simpl.
    rewrite store_in by lia. simpl. eexists. split; [reflexivity |]. cbn [fst snd].
    split; [by rewrite length_insert |]. split; [by rewrite length_fmap |].
    replace (Z.to_nat (i + 1)) with (S (Z.to_nat i)) by lia.
    rewrite (take_S_r route _ row Hrow).
    erewrite take_S_r by (apply list_lookup_insert_eq; lia).
    rewrite take_insert_ge by lia. rewrite Ht. by rewrite fmap_app.
  - simpl. f_equal. cbn [fst snd] in *. rewrite !take_ge in Ht by lia. done.
Qed.

(** A permutation of the labels [1..n] is costable, and its cost is
    the length of the closed tour through all nodes. *)
Lemma visited_part_all (l : list Z) :
  Forall (λ x, 0 ≤ x) l → visited_part l = l.
Proof.
  intros H. rewrite <- (app_nil_r l) at 1. rewrite visited_part_app by done.
  by rewrite app_nil_r.
Qed.

Lemma labels_nodes (n : Z) (row : list Z) :
  row ≡ₚ seqZ 1 n → Forall (λ x, 0 ≤ x < n) ((λ v, v - 1) <$> row).
Proof.
  intros Hp. apply Forall_fmap.
  assert (H : Forall (λ x, 1 ≤ x < 1 + n) row).
  { rewrite Hp. apply Forall_forall. intros x Hx. apply elem_of_seqZ in Hx. lia. }
  eapply Forall_weaken; [exact H |]. intros x Hx. simpl in *. lia.
Qed.

Lemma permutation_costable (n : Z) (row : list Z) :
  1 ≤ n → row ≡ₚ seqZ 1 n → costable n row.
Proof.
  intros Hn Hp. pose proof (labels_nodes n row Hp) as Hr.
  unfold costable. rewrite visited_part_all.
  - split.
    + intros Hnil. apply fmap_nil_inv in Hnil. subst row.
      apply Permutation_length in Hp. rewrite length_seqZ in Hp. simpl in Hp. lia.
    + eapply Forall_weaken; [exact Hr |]. intros x Hx. simpl in *. lia.
  - eapply Forall_weaken; [exact Hr |]. intros x Hx. simpl in *. lia.
Qed.

(** ** One generation *)

Lemma rand_crossover_keeps (pol : policy) (n : Z) (a : matrix) :
  shape n a → Forall (in_range n) a →
  ∃ a', rand_crossover pol n a = Ok a' ∧ shape n a' ∧ Forall (in_range n) a'.
Proof.
  intros Ha Hin. pose proof Ha as [Hl Hr]. unfold POPULATION in Hl.
  destruct (lookup_lt_is_Some_2 a 3%nat) as [src Hsrc]; [lia |].
  exists (<[17%nat := a !!! 3%nat]> a).
  split; [by apply rand_crossover_spec |].
  rewrite (list_lookup_total_correct _ _ _ Hsrc).
  split.
  - split; [by rewrite length_insert |].
    apply Forall_insert; [done |]. by eapply (Forall_lookup_1 _ _ _ _ Hr).
  - apply Forall_insert; [done |]. by eapply (Forall_lookup_1 _ _ _ _ Hin).
Qed.

Lemma crossover_in_range (pol : policy) (n : Z) (a b : matrix) :
  1 ≤ n → shape n a → shape n b → Forall (in_range n) b →
  ∃ a', tow_point_crossover pol n a b = Ok a' ∧ shape n a' ∧ Forall (in_range n) a'.
Proof.
  intros Hn Ha Hb Hin.
  destruct (tow_point_crossover_spec pol n a b Hn Ha Hb) as (a' & Hrun & Ha' & Hcell).
  exists a'. split; [done |]. split; [done |].
  apply (in_range_cells n a' Ha'). intros r c Hr Hc.
  rewrite Hcell by done. by apply crossed_in_range.
Qed.

Lemma decoded_shape (n : Z) (a : matrix) :
  shape n a → Forall (in_range n) a → shape n (decode n <$> a).
Proof.
  intros [Hl Hr] Hin. split; [by rewrite length_fmap |].
  apply Forall_fmap. eapply Forall_weaken; [exact Hin |].
  intros row Hrow. simpl. by apply decode_length.
Qed.

Lemma decoded_costable (n : Z) (a : matrix) :
  1 ≤ n → Forall (in_range n) a → Forall (costable n) (decode n <$> a).
Proof.
  intros Hn Hin. apply Forall_fmap. eapply Forall_weaken; [exact Hin |].
  intros row Hrow. simpl. apply permutation_costable; [done |].
  by apply decode_permutation.
Qed.

Lemma generation_spec (pol : policy) (w : world) (t : TSPdata) (s : ga_state) :
  1 ≤ tsp_n t → well_formed (tsp_n t) s →
  Forall (in_range (tsp_n t)) (gene s) →
  Forall (tolerated pol (tsp_n t)) (gene s) →
  mutation_harmless w (tsp_n t) s →
  ∃ s', generation pol w t (tsp_n t) s = Ok s' ∧
        well_formed (tsp_n t) s' ∧
        Forall (in_range (tsp_n t)) (gene s') ∧
        Forall (in_range (tsp_n t)) (gene_tmp s') ∧
        route s' = decode (tsp_n t) <$> gene s ∧
        fitness s' = route_cost t <$> route s' ∧
        (rand_calls s < rand_calls s')%nat ∧
        time_calls s' = S (time_calls s).
Proof.
  intros Hn (Hg & Hr & Hgt & Hf) Hin Htol Hmut. set (n := tsp_n t) in *.
  unfold generation.
  rewrite (order_representation_spec pol n (gene s) (route s)) by done. simpl.
  pose proof (decoded_shape n (gene s) Hg Hin) as Hroute.
  rewrite (evaluate_route_spec pol t (decode n <$> gene s) (fitness s))
    by (done || by apply decoded_costable). simpl.
  assert (Hfl : Z.of_nat (length (route_cost t <$> (decode n <$> gene s))) = POPULATION).
  { rewrite !length_fmap. by destruct Hg. }
  destruct (ranking_selection_keeps pol (route_cost t <$> (decode n <$> gene s))
              n (gene s) (gene_tmp s) Hg Hgt Hfl) as (c & -> & Hc & _ & Hcin).
  specialize (Hcin Hin). simpl.
  assert (Hre : ∃ c', (if bool_decide (Z.rem (rand w (rand_calls s)) 20 = 7)
                       then rand_crossover pol n c else Ok c) = Ok c' ∧
                      shape n c' ∧ Forall (in_range n) c').
  { case_bool_decide; [by apply rand_crossover_keeps | by exists c]. }
  destruct Hre as (c' & -> & Hc' & Hcin'). simpl.
  destruct (crossover_in_range pol n (gene s) c' Hn Hg Hc' Hcin')
    as (g & -> & Hg' & Hgin). simpl.
  case_bool_decide as Hr12.
  - destruct Hmut as [Hne | [Hbig Hrv]]; [done |].
    destruct (mutation_in_range n g _ Hbig Hg' Hgin Hrv) as (g' & -> & Hg'' & Hgin' & _).
    simpl. eexists. split; [reflexivity |]. simpl.
    split; [unfold well_formed; simpl; tauto |].
    split; [done |]. split; [done |]. split; [done |]. split; [done |].
    split; [lia | done].
  - simpl. eexists. split; [reflexivity |]. simpl.
    split; [unfold well_formed; simpl; tauto |].
    split; [done |]. split; [done |]. split; [done |]. split; [done |].
    split; [lia | done].
Qed.

(** ** The whole search *)

Lemma nodes_of_labels (n : Z) : (λ v, v - 1) <$> seqZ 1 n = seqZ 0 n.
Proof.
  change 0 with (-1 + 1). rewrite <- (fmap_add_seqZ (-1) 1 n). apply list_fmap_ext.
  intros _ x _. lia.
Qed.

Lemma decoded_tour (n : Z) (genes : list Z) :
  in_range n genes → (λ v, v - 1) <$> decode n genes ≡ₚ seqZ 0 n.
Proof.
  intros Hin. rewrite <- nodes_of_labels.
  apply fmap_Permutation. by apply decode_permutation.
Qed.

Lemma permutation_feasible (pol : policy) (t : TSPdata) (tour : list Z) :
  0 ≤ tsp_n t → tour ≡ₚ seqZ 0 (tsp_n t) →
  is_feasible pol t tour
  = Ok (if bool_decide (min_node_num t ≤ tsp_n t) then 1 else 0).
Proof.
  intros Hn Hp.
  assert (Hr : Forall (λ x, 0 ≤ x < tsp_n t) tour).
  { rewrite Hp. apply Forall_forall. intros x Hx. apply elem_of_seqZ in Hx. lia. }
  assert (Hl : length tour = Z.to_nat (tsp_n t)).
  { apply Permutation_length in Hp. by rewrite length_seqZ in Hp. }
  assert (HV : visited_part tour = tour).
  { apply visited_part_all. eapply Forall_weaken; [exact Hr |].
    intros x Hx. simpl in Hx. lia. }
  destruct (is_feasible_spec pol t tour) as (flag & -> & Hflag & Hiff); [lia |].
  f_equal. rewrite HV in Hiff.
  assert (Hgood : Forall (λ x, x < tsp_n t) tour ∧ NoDup tour).
  { split.
    - eapply Forall_weaken; [exact Hr |]. intros x Hx. simpl in Hx. lia.
    - rewrite Hp. apply NoDup_seqZ. }
  case_bool_decide as Hmin.
  - apply Hiff. split; [apply Hgood |]. split; [apply Hgood | lia].
  - destruct Hflag as [-> | ->]; [done |]. exfalso.
    destruct Hiff as [Hiff _]. specialize (Hiff eq_refl). lia.
Qed.

Lemma lenient_tolerated (junk : Z → Z) (n : Z) (m : matrix) :
  Forall (tolerated (Lenient junk) n) m.
Proof. induction m; constructor; [left; by eexists | done]. Qed.

Lemma in_time_calls (w : world) (timelim : Z) (v : Vdata) (s s' : ga_state) :
  time_calls s = time_calls s' → in_time w timelim v s = in_time w timelim v s'.
Proof. intros H. unfold in_time. by rewrite H. Qed.

Lemma search_spec (junk : Z → Z) (w : world) (limit fuel : nat) (timelim : Z)
    (t : TSPdata) (v : Vdata) :
  1 ≤ tsp_n t →
  24 ≤ tsp_n t ∨ (∀ p, Z.rem (rand w p) 20 ≠ Z.rem (rand w (S p)) 20) →
  Z.of_nat (length (bestsol v)) = tsp_n t →
  shape (tsp_n t) (stack_words w) →
  (∀ p, 0 ≤ rand w p) →
  (∀ i j : nat, (i ≤ j)%nat → (cpu_time w i <= cpu_time w j)%Q) →
  (cpu_time w 0 - starttime v < inject_Z timelim)%Q →
  (inject_Z timelim <= cpu_time w limit - starttime v)%Q →
  (limit ≤ fuel)%nat →
  ∃ genes, in_range (tsp_n t) genes ∧
    genetic_algorithm (Lenient junk) w fuel timelim t v
    = Ok {| starttime := starttime v;
            bestsol := (λ x, x - 1) <$> decode (tsp_n t) genes |}.
Proof.
  intros Hn Hmut Hbest Hstack Hrand Hmono Hfirst Hlimit Hfuel.
  unfold genetic_algorithm. set (n := tsp_n t) in *.
  destruct (search_start_spec w t v Hn Hbest Hrand)
    as (s0 & -> & Hg0 & Hin0 & _ & Hr0 & Hf0 & Hgt0 & _ & Htc0).
  fold n. simpl.
  set (I := λ s : ga_state,
    well_formed n s ∧ Forall (in_range n) (gene s) ∧
    (time_calls s ≠ O → Forall (in_range n) (gene_tmp s))).
  destruct (while_loop_inv I (λ s, limit - time_calls s)%nat
    (in_time w timelim v)
    (λ s, s' ← generation (Lenient junk) w t n s; Ok (Next s')) fuel s0)
    as (s1 & -> & (Hwf & Hin1 & Htmp) & Hstop).
  - intros s (Hwf & Hin & _) Hc.
    assert (Hcalls : (time_calls s < limit)%nat).
    { unfold in_time in Hc. destruct (Qlt_le_dec _ _) as [Hlt | _]; [| done].
      destruct (decide (time_calls s < limit)%nat) as [? | Hge]; [done |]. exfalso.
      pose proof (Hmono limit (time_calls s) ltac:(lia)) as Hle. lra. }
    destruct (generation_spec (Lenient junk) w t s Hn Hwf Hin)
      as (s' & Hgen & Hwf' & Hin' & Htmp' & _ & _ & _ & Htc).
    + apply lenient_tolerated.
    + destruct Hmut as [Hbig | Hnever]; [right | left; apply Hnever].
      split; [done | apply Hrand].
    + fold n in Hgen. rewrite Hgen. simpl. exists s'.
      split; [done |]. split; [done | lia].
  - split; [| split; [done | by rewrite Htc0]].
    split; [done |]. split; [done |]. split; [by rewrite Hgt0 | done].
  - lia.
  - simpl.
    assert (Hne : time_calls s1 ≠ O).
    { intros H0. unfold in_time in Hstop. rewrite H0 in Hstop.
      destruct (Qlt_le_dec _ _) as [? | Hle]; [done | lra]. }
    specialize (Htmp Hne). destruct Hwf as (_ & Hr1 & Hgt1 & _).
    rewrite (order_representation_spec (Lenient junk) n (gene_tmp s1) (route s1))
      by (done || apply lenient_tolerated).
    simpl.
    destruct (lookup_lt_is_Some_2 (gene_tmp s1) 0) as [genes Hgenes].
    { destruct Hgt1 as [Hl _]. unfold POPULATION in Hl. lia. }
    assert (Hgin : in_range n genes) by (by eapply (Forall_lookup_1 _ _ _ _ Htmp)).
    rewrite (labels_to_nodes (Lenient junk) n 0 (decode n <$> gene_tmp s1)
               (decode n genes) (seqZ 0 n)).
    + simpl. by exists genes.
    + lia.
    + change (Z.to_nat 0) with O. rewrite list_lookup_fmap. by rewrite Hgenes.
    + by apply decode_length.
    + rewrite length_seqZ. lia.
Qed.

(** ** The cost oracle, the generation and the search: statements *)

(** X16.  [is_feasible] on a tour of [n] cells returns 1 exactly when
    the nodes in front of the first negative entry are all below [n],
    no node is among them twice, and they are at least [min_node_num];
    otherwise it returns 0.  No load or store leaves [tour] or
    [visited], under checked indexing too. *)
Theorem is_feasible_decides (pol : policy) (t : TSPdata) (tour : list Z) :
  Z.of_nat (length tour) = tsp_n t →
  is_feasible pol t tour
  = Ok (if decide (Forall (λ x, x < tsp_n t) (visited_part tour) ∧
                   NoDup (visited_part tour) ∧
                   min_node_num t ≤ Z.of_nat (length (visited_part tour)))
        then 1 else 0).
Proof.
  intros Hlen.
  destruct (is_feasible_spec pol t tour Hlen) as (flag & -> & Hflag & Hiff).
  f_equal. case_decide as Hgood.
  - by apply Hiff.
  - destruct Hflag as [-> | ->]; [done |]. exfalso. apply Hgood. by apply Hiff.
Qed.

Lemma is_feasible_decides_witness :
  is_feasible Checked rect4 [2; 0; 3; -1]
  = Ok (if decide (Forall (λ x, x < tsp_n rect4) (visited_part [2; 0; 3; -1]) ∧
                   NoDup (visited_part [2; 0; 3; -1]) ∧
                   min_node_num rect4
                   ≤ Z.of_nat (length (visited_part [2; 0; 3; -1])))
        then 1 else 0).
Proof. apply (is_feasible_decides Checked rect4 [2; 0; 3; -1]). reflexivity. Defined.







(** X22.  The whole search, with 24 nodes or more (or draws of [rand()]
    that never make [r1 = r2]), a clock that does not run backwards
    and reaches the limit, and time for at least one generation: the
    run ends normally, whatever the load behind the working list of
    [copy_array] returns, and the tour it leaves in [bestsol] visits
    every node exactly once; [is_feasible] accepts it when
    [min_node_num <= n]. *)
Theorem search_emits_full_tour (junk : Z → Z) (w : world) (limit fuel : nat)
    (timelim : Z) (t : TSPdata) (v : Vdata) :
  1 ≤ tsp_n t →
  24 ≤ tsp_n t ∨ (∀ p, Z.rem (rand w p) 20 ≠ Z.rem (rand w (S p)) 20) →
  Z.of_nat (length (bestsol v)) = tsp_n t →
  shape (tsp_n t) (stack_words w) →
  (∀ p, 0 ≤ rand w p) →
  (∀ i j : nat, (i ≤ j)%nat → (cpu_time w i <= cpu_time w j)%Q) →
  (cpu_time w 0 - starttime v < inject_Z timelim)%Q →
  (inject_Z timelim <= cpu_time w limit - starttime v)%Q →
  (limit ≤ fuel)%nat →
  ∃ best,
    genetic_algorithm (Lenient junk) w fuel timelim t v
    = Ok {| starttime := starttime v; bestsol := best |} ∧
    best ≡ₚ seqZ 0 (tsp_n t) ∧
    ∀ pol, is_feasible pol t best
           = Ok (if bool_decide (min_node_num t ≤ tsp_n t) then 1 else 0).
Proof.
  intros Hn Hmut Hbest Hstack Hrand Hmono Hfirst Hlimit Hfuel.
  destruct (search_spec junk w limit fuel timelim t v Hn Hmut Hbest Hstack Hrand
              Hmono Hfirst Hlimit Hfuel) as (genes & Hin & Hrun).
  eexists. split; [exact Hrun |].
  pose proof (decoded_tour (tsp_n t) genes Hin) as Hp.
  split; [done |]. intros pol. apply permutation_feasible; [lia | done].
Qed.

Lemma search_emits_full_tour_witness :
  let w := {| rand := λ _, 0; cpu_time := seconds;
              stack_words := replicate 20 (replicate 24 0) |} in
  let t := {| tsp_n := 24; tsp_dist := λ k l, Z.abs (k - l);
              min_node_num := 24 |} in
  let v := {| starttime := 0%Q; bestsol := replicate 24 0 |} in
  ∃ best,
    genetic_algorithm (Lenient (λ _, 0)) w 1 1 t v
    = Ok {| starttime := starttime v; bestsol := best |} ∧
    best ≡ₚ seqZ 0 (tsp_n t) ∧
    ∀ pol, is_feasible pol t best
           = Ok (if bool_decide (min_node_num t ≤ tsp_n t) then 1 else 0).
Proof.
  intros w t v. apply (search_emits_full_tour (λ _, 0) w 1 1 1 t v).
  - simpl. lia.
  - left. simpl. lia.
  - reflexivity.
  - split; [reflexivity |]. apply Forall_replicate. reflexivity.
  - intros p. simpl. lia.
  - intros i j Hij. unfold w, seconds, Qle. simpl. lia.
  - reflexivity.
  - unfold w, v, seconds, Qle. simpl. lia.
  - lia.
Defined.



(** ** The closing routines of main: recompute_obj and output_tour *)














(** ** copy_parameters *)

Lemma setting_snoc (name k v : String.string) (l : list String.string) (m : nat) :
  length l = (2 * m)%nat →
  setting name (l ++ [k; v]) = if String.eqb k name then Some v else setting name l.
Proof.
  revert l. induction m as [|m IH]; intros l Hl.
  - destruct l; [| done]. simpl. by destruct (String.eqb k name).
  - destruct l as [|k1 [|v1 l]]; [done | simpl in Hl; lia |].
    simpl in Hl. simpl. rewrite (IH l) by lia.
    destruct (String.eqb k name); [done |]. by destruct (setting name l).
Qed.

Lemma arg_in (argv : list String.string) (i : Z) (s : String.string) :
  0 ≤ i → argv !! Z.to_nat i = Some s → arg argv i = Ok s.
Proof.
  intros Hi Hs. unfold arg. rewrite inb_true; [by rewrite Hs |].
  apply lookup_lt_Some in Hs. lia.
Qed.

Lemma pair_args (prog key value : String.string) (words : list String.string)
    (k : nat) :
  words !! (2 * k)%nat = Some key → words !! S (2 * k) = Some value →
  arg (prog :: words) (1 + 2 * Z.of_nat k) = Ok key ∧
  arg (prog :: words) (1 + 2 * Z.of_nat k + 1) = Ok value.
Proof.
  intros Hkey Hvalue. split; (apply arg_in; [lia |]).
  - replace (Z.to_nat (1 + 2 * Z.of_nat k)) with (S (2 * k)) by lia. done.
  - replace (Z.to_nat (1 + 2 * Z.of_nat k + 1)) with (S (S (2 * k))) by lia. done.
Qed.

(** The loop over the first [m] pairs of a command line. *)
Lemma read_pairs (atoi : String.string → Z) (prog : String.string)
    (words : list String.string) (m : nat) :
  (2 * m ≤ length words)%nat →
  Forall (λ s, Z.of_nat (String.length s) < MAX_STR) (take (2 * m) words) →
  for_range m 1 2 (read_pair atoi (prog :: words))
    {| timelim := TIMELIM; givesol := GIVESOL; outformat := OUTFORMAT;
       tourfile := TOURFILE |}
  = Ok (settings atoi (take (2 * m) words)).
Proof.
  intros Hm Hshort.
  match goal with |- for_range m 1 2 ?b ?s0 = _ =>
    destruct (for_range_inv
      (λ k p, p = settings atoi (take (2 * k) words)) m 1 2 b s0)
      as (p & -> & ->) end; [done | | done].
  intros k p Hk ->.
  destruct (lookup_lt_is_Some_2 words (2 * k)) as [key Hkey]; [lia |].
  destruct (lookup_lt_is_Some_2 words (S (2 * k))) as [value Hvalue]; [lia |].
  assert (Hshort' : Z.of_nat (String.length value) < MAX_STR).
  { eapply (Forall_lookup_1 _ _ (S (2 * k)) _ Hshort).
    rewrite lookup_take_lt by lia. done. }
  destruct (pair_args prog key value words k Hkey Hvalue) as [Hk1 Hk2].
  assert (Htake : take (2 * S k) words = take (2 * k) words ++ [key; value]).
  { replace (2 * S k)%nat with (S (S (2 * k))) by lia.
    rewrite (take_S_r _ _ value Hvalue), (take_S_r _ _ key Hkey).
    by rewrite <- (assoc_L (++)). }
  assert (Hlen : length (take (2 * k) words) = (2 * k)%nat).
  { rewrite length_take. lia. }
  rewrite Htake. unfold settings, read_pair.
  rewrite !(setting_snoc _ key value _ k Hlen).
  rewrite !Hk1. cbn [mbind outcome_bind].
  destruct (String.eqb key "timelim") eqn:E1.
  { apply String.eqb_eq in E1. subst key. rewrite Hk2. simpl.
    eexists. split; reflexivity. }
  destruct (String.eqb key "givesol") eqn:E2.
  { apply String.eqb_eq in E2. subst key. rewrite Hk2. simpl.
    eexists. split; reflexivity. }
  destruct (String.eqb key "outformat") eqn:E3.
  { apply String.eqb_eq in E3. subst key. rewrite Hk2. simpl.
    eexists. split; reflexivity. }
  destruct (String.eqb key "tourfile") eqn:E4.
  { rewrite Hk2. simpl. unfold set_tourfile.
    rewrite bool_decide_eq_true_2 by done.
    eexists. split; reflexivity. }
  simpl. eexists. split; [reflexivity |].
  by destruct (settings atoi (take (2 * k) words)).
Qed.

(** X27.  [copy_parameters] on a command line of the program name and
    [words], no word of 1024 characters or more: with an odd number of
    words it prints the usage line and ends the process; with an even
    number the words are pairs of a name and a value, every parameter
    is [atoi] of the value (the value itself, for [tourfile]) of the
    last pair with its name, and keeps its default (300, 0, 2,
    "result.tour") when no pair names it; pairs with other names are
    passed over. *)
Theorem copy_parameters_last_wins (atoi : String.string → Z)
    (prog : String.string) (words : list String.string) :
  Forall (λ s, Z.of_nat (String.length s) < MAX_STR) words →
  copy_parameters atoi (Z.of_nat (length (prog :: words))) (prog :: words)
  = Ok (if Nat.even (length words) then Some (settings atoi words) else None).
Proof.
  intros Hshort. unfold copy_parameters. cbn [length].
  rewrite bool_decide_eq_true_2 by lia. cbn [andb].
  destruct (Nat.even (length words)) eqn:Heven.
  - apply Nat.even_spec in Heven. destruct Heven as [m Hm].
    rewrite bool_decide_eq_false_2
      by (rewrite Hm; Z.quot_rem_to_equations; lia).
    unfold for_loop2.
    replace (Z.to_nat (Z.quot (Z.of_nat (S (length words)) - 1 + 1) 2)) with m
      by (rewrite Hm; Z.quot_rem_to_equations; lia).
    rewrite read_pairs; [| lia | by rewrite take_ge by lia].
    simpl. by rewrite take_ge by lia.
  - assert (Hodd : Nat.odd (length words) = true).
    { rewrite <- Nat.negb_even. by rewrite Heven. }
    apply Nat.odd_spec in Hodd. destruct Hodd as [m Hm].
    rewrite bool_decide_eq_true_2
      by (rewrite Hm; Z.quot_rem_to_equations; lia).
    done.
Qed.

Lemma copy_parameters_last_wins_witness :
  let words := ["timelim"; "10"; "seed"; "7"; "timelim"; "20"]%string in
  copy_parameters (λ s, Z.of_nat (String.length s))
    (Z.of_nat (length ("tsp"%string :: words))) ("tsp"%string :: words)
  = Ok (if Nat.even (length words)
        then Some (settings (λ s, Z.of_nat (String.length s)) words) else None).
Proof.
  intros words.
  apply (copy_parameters_last_wins (λ s, Z.of_nat (String.length s)) "tsp"%string words).
  repeat constructor.
Defined.

(** X28.  A value of 1024 characters or more for [tourfile] does not
    fit the field [tourfile[MAX_STR]]: [strcpy] stores behind its end,
    whatever comes before and after the pair on the command line. *)
Theorem copy_parameters_long_name (atoi : String.string → Z)
    (prog value : String.string) (before after : list String.string) :
  Nat.even (length before) = true → Nat.even (length after) = true →
  Forall (λ s, Z.of_nat (String.length s) < MAX_STR) before →
  MAX_STR ≤ Z.of_nat (String.length value) →
  let argv := prog :: before ++ ["tourfile"%string; value] ++ after in
  copy_parameters atoi (Z.of_nat (length argv)) argv = Oob MAX_STR.
Proof.
  intros Hb Ha Hshort Hlong argv.
  apply Nat.even_spec in Hb. destruct Hb as [m Hm].
  apply Nat.even_spec in Ha. destruct Ha as [m' Hm'].
  set (words := before ++ ["tourfile"%string; value] ++ after).
  assert (Hlen : length words = (2 * (m + S m'))%nat).
  { unfold words. rewrite !length_app. simpl. lia. }
  unfold copy_parameters, argv. fold words. cbn [length].
  rewrite bool_decide_eq_true_2 by lia. cbn [andb].
  rewrite bool_decide_eq_false_2
    by (rewrite Hlen; Z.quot_rem_to_equations; lia).
  unfold for_loop2.
  replace (Z.to_nat (Z.quot (Z.of_nat (S (length words)) - 1 + 1) 2))
    with (m + S m')%nat by (rewrite Hlen; Z.quot_rem_to_equations; lia).
  rewrite for_range_app.
  assert (Htake : take (2 * m) words = before).
  { unfold words. rewrite take_app_length'; [done | lia]. }
  rewrite read_pairs; [| lia | by rewrite Htake].
  cbn [mbind outcome_bind]. cbn [for_range].
  assert (Hkey : words !! (2 * m)%nat = Some "tourfile"%string).
  { unfold words. rewrite lookup_app_r by lia.
    by replace (2 * m - length before)%nat with O by lia. }
  assert (Hvalue : words !! S (2 * m) = Some value).
  { unfold words. rewrite lookup_app_r by lia.
    by replace (S (2 * m) - length before)%nat with 1%nat by lia. }
  destruct (pair_args prog _ value words m Hkey Hvalue) as [Hk1 Hk2].
  assert (Hbody : ∀ p, read_pair atoi (prog :: words) (1 + 2 * Z.of_nat m) p
                       = Oob MAX_STR).
  { intros p. unfold read_pair. rewrite !Hk1. cbn [mbind outcome_bind].
    change (String.eqb "tourfile" "timelim") with false.
    change (String.eqb "tourfile" "givesol") with false.
    change (String.eqb "tourfile" "outformat") with false.
    change (String.eqb "tourfile" "tourfile") with true.
    cbn [mbind outcome_bind]. rewrite Hk2. cbn [mbind outcome_bind].
    unfold set_tourfile. by rewrite bool_decide_eq_false_2 by lia. }
  by rewrite Hbody.
Qed.

Lemma copy_parameters_long_name_witness :
  let value := String.concat ""%string (replicate 1024 "a"%string) in
  let argv := "tsp"%string :: ["givesol"; "0"]%string
                ++ ["tourfile"%string; value] ++ ["timelim"; "5"]%string in
  copy_parameters (λ s, Z.of_nat (String.length s)) (Z.of_nat (length argv)) argv
  = Oob MAX_STR.
Proof.
  intros value.
  apply (copy_parameters_long_name (λ s, Z.of_nat (String.length s)) "tsp"%string value
           ["givesol"; "0"]%string ["timelim"; "5"]%string).
  - reflexivity.
  - reflexivity.
  - repeat constructor.
  - vm_compute. discriminate.
Defined.

(** ** Instances of the lemmas on the mutation and the end of the
    search *)

Lemma search_ends_witness :
  let w := {| rand := λ p, Z.of_nat p; cpu_time := seconds;
              stack_words := replicate 20 [0; 0; 0] |} in
  let v := {| starttime := 0%Q; bestsol := [0; 0; 0] |} in
  fueled (genetic_algorithm Checked w 5 2 line3 v).
Proof.
  intros w v. apply (search_ends Checked w 2 5 2 line3 v).
  - intros i j Hij. unfold w, seconds, Qle. simpl. lia.
  - unfold w, v, seconds, Qle. simpl. lia.
  - lia.
Defined.

Lemma mutation_breaks_range_witness :
  ∃ a' row, mutation 3 (replicate 20 [1; 1; 1]) 10 = Ok a' ∧
            a' !! Z.to_nat (mutation_target 10) = Some row ∧ ¬ in_range 3 row.
Proof.
  apply (mutation_breaks_range 3 (replicate 20 [1; 1; 1]) 10).
  - apply shapeb_spec. vm_compute. reflexivity.
  - lia.
  - left. vm_compute. split; [split |]; (discriminate || reflexivity).
Defined.

Lemma tail_marker_outside_iff_witness :
  21 ≤ mutation_point 21 + 10 ↔ 21 ≤ 21.
Proof. apply (tail_marker_outside_iff 21). lia. Defined.
